(** * Center-manifold polynomial algebra: a shallow embedding

    The development follows the Python sources

    - [algorithms/center/polynomial/algebra.py]  (the homogeneous kernels
      [_poly_add], [_poly_scale], [_poly_mul], [_poly_diff], [_poly_poisson],
      [_poly_clean], [_poly_clean_inplace], [_poly_integrate], [_get_degree],
      [_poly_evaluate], [_evaluate_reduced_monomial]),
    - [algorithms/center/transforms.py]          ([_linear_variable_polys],
      [substitute_linear]),
    - [hiten/system/center.py]                   ([_restrict_to_center_manifold],
      the cache of [CenterManifold] and [_get_center_manifold_complex]),

    and states the properties of the natural-language specification over them.

    Coefficients are [complex128] in the sources.  Here they are complex numbers
    with rational real and imaginary parts and exact arithmetic; a magnitude
    test [|c| <= tol] is decided exactly on the squares.  Degrees, positions and
    exponents are natural numbers.  Indexing follows Python: an index outside
    an array or a table raises, and a Python exception is the [None] of the
    [option] monad.  A function that updates an array in place returns the new
    contents of the array. *)

From Stdlib Require Import QArith Qcanon Ring Field.
From stdpp Require Import base numbers option list gmap fin_maps strings.

(** ** Coefficients: complex numbers over the canonical rationals *)

Module Cx.

Record t : Type := mk { re : Qc; im : Qc }.

Definition zero : t := mk 0%Qc 0%Qc.
Definition one : t := mk 1%Qc 0%Qc.
Definition add (a b : t) : t := mk (re a + re b)%Qc (im a + im b)%Qc.
Definition opp (a : t) : t := mk (- re a)%Qc (- im a)%Qc.
Definition sub (a b : t) : t := mk (re a - re b)%Qc (im a - im b)%Qc.
Definition mul (a b : t) : t :=
  mk (re a * re b - im a * im b)%Qc (re a * im b + im a * re b)%Qc.

(** Squared magnitude [re^2 + im^2]. *)
Definition norm2 (a : t) : Qc := (re a * re a + im a * im a)%Qc.

Definition inv (a : t) : t :=
  mk (re a / norm2 a)%Qc (- im a / norm2 a)%Qc.
Definition div (a b : t) : t := mul a (inv b).

(** A real number, an integer and a natural number seen as coefficients. *)
Definition of_Qc (x : Qc) : t := mk x 0%Qc.
Definition of_Z (z : Z) : t := of_Qc (Qc_of_Z z).
Definition of_nat (n : nat) : t := of_Z (Z.of_nat n).

(** The imaginary unit times a real number, [1j * w]. *)
Definition imag (w : Qc) : t := mk 0%Qc w.

Definition eqb (a b : t) : bool :=
  bool_decide (re a = re b) && bool_decide (im a = im b).

(** [np.abs(c) <= tol], with [tol] a real number: for a negative [tol] the test
    fails, otherwise both sides are squared. *)
Definition abs_le (c : t) (tol : Qc) : bool :=
  bool_decide (0 ≤ tol)%Qc && bool_decide (norm2 c ≤ tol * tol)%Qc.

(** [np.abs(c) < tol]. *)
Definition abs_lt (c : t) (tol : Qc) : bool :=
  bool_decide (0 < tol)%Qc && bool_decide (norm2 c < tol * tol)%Qc.

End Cx.

Declare Scope cx_scope.
Delimit Scope cx_scope with cx.
Bind Scope cx_scope with Cx.t.
Notation "0" := Cx.zero : cx_scope.
Notation "1" := Cx.one : cx_scope.
Infix "+" := Cx.add : cx_scope.
Infix "-" := Cx.sub : cx_scope.
Infix "*" := Cx.mul : cx_scope.
Infix "/" := Cx.div : cx_scope.
Notation "- x" := (Cx.opp x) : cx_scope.

(** ** Loops in the error monad *)

(** [for x in xs: s = body(x, s)], where any iteration may raise. *)
Fixpoint for_each {A S : Type} (xs : list A) (body : A → S → option S) (s : S)
  : option S :=
  match xs with
  | [] => Some s
  | x :: xs' =>
      match body x s with
      | Some s' => for_each xs' body s'
      | None => None
      end
  end.

(** [range(n)]. *)
Definition range (n : nat) : list nat := seq 0 n.

(** A Python index into a sequence of length [n]: negative indices count from
    the end, anything else outside [0, n) raises. *)
Definition py_index (n : nat) (idx : Z) : option nat :=
  if bool_decide (0 ≤ idx < Z.of_nat n)%Z then Some (Z.to_nat idx)
  else if bool_decide (- Z.of_nat n ≤ idx < 0)%Z then Some (Z.to_nat (Z.of_nat n + idx))
  else None.

(** [a[i] = x] on a one-dimensional array: raises out of range. *)
Definition array_set {A : Type} (a : list A) (i : nat) (x : A) : option (list A) :=
  if bool_decide (i < length a) then Some (<[i := x]> a) else None.

(** [np.zeros(n)]. *)
Definition np_zeros (n : nat) : list Cx.t := replicate n Cx.zero.

(** Sums of coefficients. *)
Definition csum_with {A : Type} (f : A → Cx.t) (l : list A) : Cx.t :=
  foldr (λ x acc, (f x + acc)%cx) Cx.zero l.

(** ** Index tables *)

Definition N_VARS : nat := 6.

(** Modelled from the spec: the combinatorial size table of the missing
    [polynomial/base.py].  [psi_count v d] is the number of monomials of degree
    [d] in [v] variables, computed by the stars-and-bars recurrence
    [psi[v, d] = psi[v-1, d] + psi[v, d-1]]. *)
Fixpoint psi_count (v : nat) : nat → nat :=
  match v with
  | 0 => λ d, match d with 0 => 1 | S _ => 0 end
  | S v' =>
      fix row (d : nat) : nat :=
        match d with
        | 0 => 1
        | S d' => psi_count v' (S d') + row d'
        end
  end.

(** Modelled from the spec: the exponent tuples of degree [d] in [v] variables,
    in lexicographic order.  Position [i] of [monomials N_VARS d] is the dense
    array index of that tuple. *)
Fixpoint monomials (v : nat) (d : nat) : list (list nat) :=
  match v with
  | 0 => match d with 0 => [[]] | S _ => [] end
  | S v' => k0 ← seq 0 (S d); cons k0 <$> monomials v' (d - k0)
  end.

(** Modelled from the spec: the canonical packing of an exponent tuple into one
    integer, a bit field of [FIELD_BITS] bits per exponent (first exponent in
    the lowest bits). *)
Definition FIELD_BITS : N := 6.
Definition FIELD_MASK : N := 63.

Fixpoint pack_multiindex (k : list nat) : N :=
  match k with
  | [] => 0
  | e :: k' => N.of_nat e + N.shiftl (pack_multiindex k') FIELD_BITS
  end.

(** Modelled from the spec: the inverse of the packing, [n] bit fields read
    from the lowest bits up. *)
Fixpoint unpack_fields (n : nat) (code : N) : list nat :=
  match n with
  | 0 => []
  | S n' => N.to_nat (N.land code FIELD_MASK) :: unpack_fields n' (N.shiftr code FIELD_BITS)
  end.

(** The three tables shared by every kernel. *)
Abbreviation PsiTable := (list (list nat)).
Abbreviation Clmo := (list (list N)).
Abbreviation EncodeDicts := (list (gmap N nat)).

(** Modelled from the spec: the table [psi] of the missing
    [polynomial/base.py], of shape [(N_VARS+1, max_degree+1)]. *)
Definition init_psi_table (max_degree : nat) : PsiTable :=
  (λ v, psi_count v <$> seq 0 (S max_degree)) <$> seq 0 (S N_VARS).

(** Modelled from the spec: the packed codes of every degree [0..max_degree],
    in the order of the enumeration. *)
Definition init_clmo (max_degree : nat) : Clmo :=
  (λ d, pack_multiindex <$> monomials N_VARS d) <$> seq 0 (S max_degree).

(** Modelled from the spec: [init_index_tables(max_degree)] returns the pair
    [(psi, clmo)]. *)
Definition init_index_tables (max_degree : nat) : PsiTable * Clmo :=
  (init_psi_table max_degree, init_clmo max_degree).

(** Modelled from the spec: [_create_encode_dict_from_clmo(clmo)] of the missing
    [polynomial/base.py], the reverse map from packed code to position, one
    dictionary per degree. *)
Definition _create_encode_dict_from_clmo (clmo : Clmo) : EncodeDicts :=
  (λ codes : list N, list_to_map (zip codes (seq 0 (length codes)))) <$> clmo.

(** [psi[v, d]]: raises outside the table. *)
Definition psi_at (psi : PsiTable) (v d : nat) : option nat :=
  row ← psi !! v; row !! d.

(** Modelled from the spec: [decode_multiindex(pos, degree, clmo)] of the
    missing [polynomial/base.py].  It fails when [degree] or [pos] is outside
    the tables. *)
Definition decode_multiindex (pos degree : nat) (clmo : Clmo) : option (list nat) :=
  codes ← clmo !! degree;
  code ← codes !! pos;
  Some (unpack_fields N_VARS code).

(** Modelled from the spec: [fill_exponents(pos, degree, clmo, k_vec)] of the
    missing [polynomial/base.py] writes the decoded tuple into the array
    [k_vec]; the new contents of [k_vec] are returned. *)
Definition fill_exponents (pos degree : nat) (clmo : Clmo) (k_vec : list nat)
  : option (list nat) :=
  decode_multiindex pos degree clmo.

(** Modelled from the spec: [encode_multiindex(k, degree, encode_dict_list)] of
    the missing [polynomial/base.py].  The result is the position of [k], or
    [-1] when the degree of [k] is not [degree], when [degree] is beyond the
    tables, or when the packed code of [k] is absent from the dictionary. *)
Definition encode_multiindex (k : list nat) (degree : nat) (encode_dict_list : EncodeDicts)
  : Z :=
  if bool_decide (sum_list k = degree) then
    match encode_dict_list !! degree with
    | Some dict =>
        match dict !! pack_multiindex k with
        | Some pos => Z.of_nat pos
        | None => (-1)%Z
        end
    | None => (-1)%Z
    end
  else (-1)%Z.

(** ** The parallel runtime

    [_poly_mul] and [_poly_diff] run their outer loop under [prange].  A
    schedule fixes the number of worker threads, the thread that executes each
    iteration and the order in which the iterations take effect: any order, and
    any assignment of iterations to threads. *)
Record Sched : Type := mkSched {
  get_num_threads : nat;
  get_thread_id : nat → nat;
  prange : nat → list nat;
  thread_id_lt : ∀ i, get_thread_id i < get_num_threads;
  prange_perm : ∀ n, prange n ≡ₚ seq 0 n
}.

(** ** Array helpers of the kernels *)

(** [scratch[tid, idx] += v] on a two-dimensional array. *)
Definition array2_add_at (scratch : list (list Cx.t)) (tid : nat) (idx : Z) (v : Cx.t)
  : option (list (list Cx.t)) :=
  row ← scratch !! tid;
  j ← py_index (length row) idx;
  old ← row !! j;
  Some (<[tid := <[j := (old + v)%cx]> row]> scratch).

(** [a[idx] += v] on a one-dimensional array. *)
Definition array_add_at (a : list Cx.t) (idx : Z) (v : Cx.t) : option (list Cx.t) :=
  j ← py_index (length a) idx;
  old ← a !! j;
  Some (<[j := (old + v)%cx]> a).

(** [r += t] and [r -= t] on arrays: [t] has the length of [r], or length one
    and is broadcast; any other shape raises. *)
Definition np_iop (op : Cx.t → Cx.t → Cx.t) (r t : list Cx.t) : option (list Cx.t) :=
  if bool_decide (length t = length r) then Some (zip_with op r t)
  else match t with
       | [x] => Some ((λ y, op y x) <$> r)
       | _ => None
       end.

Definition np_iadd := np_iop Cx.add.
Definition np_isub := np_iop Cx.sub.

(** ** [algorithms/center/polynomial/algebra.py] *)

(** [_poly_add(p, q, out)]: the new contents of [out]. *)
Definition _poly_add (p q out : list Cx.t) : option (list Cx.t) :=
  for_each (range (length p))
    (λ i out, pi ← p !! i; qi ← q !! i; array_set out i (pi + qi)%cx) out.

(** [_poly_scale(p, alpha, out)]: the new contents of [out]. *)
Definition _poly_scale (p : list Cx.t) (alpha : Cx.t) (out : list Cx.t)
  : option (list Cx.t) :=
  for_each (range (length p))
    (λ i out, pi ← p !! i; array_set out i (alpha * pi)%cx) out.

(** The sum of exponents [ks[m] = ki[m] + kj[m]] for [m] in [range(N_VARS)]. *)
Definition add_exponents (ki kj : list nat) : option (list nat) :=
  mapM (λ m, a ← ki !! m; b ← kj !! m; Some (a + b)) (range N_VARS).

Definition _poly_mul (sch : Sched) (p : list Cx.t) (deg_p : nat) (q : list Cx.t)
    (deg_q : nat) (psi : PsiTable) (clmo : Clmo) (encode_dict_list : EncodeDicts)
  : option (list Cx.t) :=
  let deg_r := deg_p + deg_q in
  out_len ← psi_at psi N_VARS deg_r;
  let nT := get_num_threads sch in
  let scratch := replicate nT (np_zeros out_len) in
  scratch ← for_each (prange sch (length p))
    (λ i scratch,
       let tid := get_thread_id sch i in
       pi ← p !! i;
       if Cx.eqb pi Cx.zero then Some scratch else
       ki ← decode_multiindex i deg_p clmo;
       for_each (range (length q))
         (λ j scratch,
            qj ← q !! j;
            if Cx.eqb qj Cx.zero then Some scratch else
            kj ← decode_multiindex j deg_q clmo;
            ks ← add_exponents ki kj;
            let idx := encode_multiindex ks deg_r encode_dict_list in
            if bool_decide (idx ≠ (-1)%Z)
            then array2_add_at scratch tid idx (pi * qj)%cx
            else Some scratch)
         scratch)
    scratch;
  for_each (range nT)
    (λ tid r, row ← scratch !! tid; np_iadd r row) (np_zeros out_len).

(** The write-only buffer [scratch_exp] of the source is never read and is left
    out. *)
Definition _poly_diff (sch : Sched) (p : list Cx.t) (var degree : nat)
    (psi : PsiTable) (clmo : Clmo) (encode_dict_list : EncodeDicts)
  : option (list Cx.t) :=
  if bool_decide (degree = 0) then
    out_size ← psi_at psi N_VARS 0;
    Some (np_zeros out_size)
  else
    out_size ← psi_at psi N_VARS (degree - 1);
    let nT := get_num_threads sch in
    let scratch := replicate nT (np_zeros out_size) in
    scratch ← for_each (prange sch (length p))
      (λ i scratch,
         let tid := get_thread_id sch i in
         coeff ← p !! i;
         if Cx.eqb coeff Cx.zero then Some scratch else
         k_vec ← fill_exponents i degree clmo (replicate 6 0);
         exp ← k_vec !! var;
         if bool_decide (exp = 0) then Some scratch else
         k_vec ← array_set k_vec var (exp - 1);
         let idx := encode_multiindex k_vec (degree - 1) encode_dict_list in
         if bool_decide (idx ≠ (-1)%Z)
         then array2_add_at scratch tid idx (coeff * Cx.of_nat exp)%cx
         else Some scratch)
      scratch;
    for_each (range nT)
      (λ tid dp, row ← scratch !! tid; np_iadd dp row) (np_zeros out_size).

(** Degrees are natural numbers, so [deg_p + deg_q - 2] is already clipped at
    zero as the source does with [if deg_r < 0: deg_r = 0]. *)
Definition _poly_poisson (sch : Sched) (p : list Cx.t) (deg_p : nat) (q : list Cx.t)
    (deg_q : nat) (psi : PsiTable) (clmo : Clmo) (encode_dict_list : EncodeDicts)
  : option (list Cx.t) :=
  if bool_decide (deg_p = 0) || bool_decide (deg_q = 0) then
    n0 ← psi_at psi N_VARS 0;
    Some (np_zeros n0)
  else
    let deg_r := deg_p + deg_q - 2 in
    n_r ← psi_at psi N_VARS deg_r;
    let diff_or_zero (a : list Cx.t) (var deg : nat) :=
      if bool_decide (1 ≤ deg)
      then _poly_diff sch a var deg psi clmo encode_dict_list
      else n0 ← psi_at psi N_VARS 0; Some (np_zeros n0) in
    for_each (range 3)
      (λ m r,
         dpx ← diff_or_zero p m deg_p;
         dqqp ← diff_or_zero q (m + 3) deg_q;
         let deg_dpx := 0 `max` (deg_p - 1) in
         let deg_dqqp := 0 `max` (deg_q - 1) in
         term1 ← _poly_mul sch dpx deg_dpx dqqp deg_dqqp psi clmo encode_dict_list;
         r ← (if bool_decide (length term1 = length r) then np_iadd r term1 else Some r);
         dpq ← diff_or_zero p (m + 3) deg_p;
         dqx ← diff_or_zero q m deg_q;
         let deg_dpq := 0 `max` (deg_p - 1) in
         let deg_dqx := 0 `max` (deg_q - 1) in
         term2 ← _poly_mul sch dpq deg_dpq dqx deg_dqx psi clmo encode_dict_list;
         if bool_decide (length term2 = length r) then np_isub r term2 else Some r)
      (np_zeros n_r).

(** [_poly_clean_inplace(p, tol)]: the new contents of [p]. *)
Definition _poly_clean_inplace (p : list Cx.t) (tol : Qc) : option (list Cx.t) :=
  for_each (range (length p))
    (λ i p, c ← p !! i; if Cx.abs_le c tol then array_set p i Cx.zero else Some p) p.

(** [_poly_clean(p, tol, out)]: the new contents of [out]. *)
Definition _poly_clean (p : list Cx.t) (tol : Qc) (out : list Cx.t)
  : option (list Cx.t) :=
  for_each (range (length p))
    (λ i out,
       c ← p !! i;
       if Cx.abs_le c tol then array_set out i Cx.zero else array_set out i c) out.

Definition _poly_integrate (p : list Cx.t) (var degree : nat)
    (psi : PsiTable) (clmo : Clmo) (encode_dict_list : EncodeDicts)
  : option (list Cx.t) :=
  let out_degree := degree + 1 in
  out_size ← psi_at psi N_VARS out_degree;
  for_each (range (length p))
    (λ i ip,
       coeff ← p !! i;
       if Cx.eqb coeff Cx.zero then Some ip else
       k_vec ← fill_exponents i degree clmo (replicate 6 0);
       let k_integrated := k_vec in
       e ← k_integrated !! var;
       k_integrated ← array_set k_integrated var (e + 1);
       kv ← k_vec !! var;
       let new_coeff := (coeff / Cx.of_nat (kv + 1))%cx in
       let idx := encode_multiindex k_integrated out_degree encode_dict_list in
       if bool_decide (idx ≠ (-1)%Z)
       then array_add_at ip idx new_coeff
       else Some ip)
    (np_zeros out_size).


(** ** [hiten/system/center.py] *)

(** Arrays live in a store and are named by their address, so that a copy and
    its original are different objects. *)
Abbreviation loc := nat (only parsing).
Abbreviation heap := (gmap nat (list Cx.t)) (only parsing).

(** [h.copy()]: a fresh array with the contents of [h]. *)
Definition ndarray_copy (l : loc) (h : heap) : option (loc * heap) :=
  a ← h !! l;
  let l' := fresh (dom h) in
  Some (l', <[l' := a]> h).

(** [[h.copy() for h in poly_H]]. *)
Fixpoint copy_all (poly_H : list loc) (h : heap) : option (list loc * heap) :=
  match poly_H with
  | [] => Some ([], h)
  | l :: ls =>
      '(l', h) ← ndarray_copy l h;
      '(ls', h) ← copy_all ls h;
      Some (l' :: ls', h)
  end.

(** The default tolerance [1e-14]. *)
Definition TOL_1E_14 : Qc := Q2Qc (1 # 100000000000000).

(** The loop over the positions of one block [coeff_vec] of degree [deg]; the
    state is the contents of the block. *)
Definition restrict_block (clmo : Clmo) (tol : Qc) (deg : nat) (coeff_vec : list Cx.t)
  : option (list Cx.t) :=
  for_each (range (length coeff_vec))
    (λ pos coeff_vec,
       c ← coeff_vec !! pos;
       if Cx.abs_le c tol then array_set coeff_vec pos Cx.zero else
       k ← decode_multiindex pos deg clmo;
       k0 ← k !! 0;
       if bool_decide (k0 ≠ 0) then array_set coeff_vec pos Cx.zero else
       k3 ← k !! 3;
       if bool_decide (k3 ≠ 0) then array_set coeff_vec pos Cx.zero else
       Some coeff_vec)
    coeff_vec.

(** [CenterManifold._restrict_to_center_manifold(poly_H, tol)], with the tables
    [self._clmo] of the object: the list of the new blocks and the new store. *)
Definition _restrict_to_center_manifold (clmo : Clmo) (poly_H : list loc) (tol : Qc)
    (h : heap) : option (list loc * heap) :=
  '(poly_cm, h) ← copy_all poly_H h;
  h ← for_each (imap pair poly_cm)
    (λ '(deg, coeff_vec) h,
       a ← h !! coeff_vec;
       if bool_decide (length a = 0) then Some h else
       a' ← restrict_block clmo tol deg a;
       Some (<[coeff_vec := a']> h))
    h;
  Some (poly_cm, h).

(** The contents of a graded polynomial held in the store. *)
Definition read_poly (h : heap) (poly : list loc) : option (list (list Cx.t)) :=
  mapM (λ l, h !! l) poly.

(** ** [algorithms/center/transforms.py] *)

Section transforms.

(** The operations on graded polynomials of [polynomial/operations.py], which
    [substitute_linear] reaches only through their interface.  An operation
    that updates its first argument in place returns its new contents. *)
Variable polynomial_variable :
  nat → nat → PsiTable → Clmo → EncodeDicts → option (list (list Cx.t)).
Variable polynomial_zero_list : nat → PsiTable → option (list (list Cx.t)).
Variable polynomial_add_inplace :
  list (list Cx.t) → list (list Cx.t) → Cx.t → nat → option (list (list Cx.t)).
Variable polynomial_multiply :
  list (list Cx.t) → list (list Cx.t) → nat → PsiTable → Clmo → EncodeDicts →
  option (list (list Cx.t)).
Variable polynomial_power :
  list (list Cx.t) → nat → nat → PsiTable → Clmo → EncodeDicts →
  option (list (list Cx.t)).

(** Modelled from the spec: [polynomial_clean(poly, tol)] of the missing
    [polynomial/operations.py] passes every block through [_poly_clean] with a
    new output array of the same length. *)
Definition polynomial_clean (poly : list (list Cx.t)) (tol : Qc)
  : option (list (list Cx.t)) :=
  mapM (λ p, _poly_clean p tol (np_zeros (length p))) poly.

(** [C[i, j]] on a matrix. *)
Definition matrix_at (C : list (list Cx.t)) (i j : nat) : option Cx.t :=
  row ← C !! i; row !! j.

Definition _linear_variable_polys (C : list (list Cx.t)) (max_deg : nat)
    (psi : PsiTable) (clmo : Clmo) (encode_dict_list : EncodeDicts)
  : option (list (list (list Cx.t))) :=
  new_basis ← mapM (λ j, polynomial_variable j max_deg psi clmo encode_dict_list) (range 6);
  for_each (range 6)
    (λ i L,
       poly_result ← polynomial_zero_list max_deg psi;
       poly_result ← for_each (range 6)
         (λ j poly_result,
            cij ← matrix_at C i j;
            if Cx.eqb cij Cx.zero then Some poly_result else
            basis_j ← new_basis !! j;
            polynomial_add_inplace poly_result basis_j cij max_deg)
         poly_result;
       Some (L ++ [poly_result]))
    [].

(** [p.any()]. *)
Definition np_any (p : list Cx.t) : bool := existsb (λ c, negb (Cx.eqb c Cx.zero)) p.

Definition substitute_linear (poly_old : list (list Cx.t)) (C : list (list Cx.t))
    (max_deg : nat) (psi : PsiTable) (clmo : Clmo) (encode_dict_list : EncodeDicts)
  : option (list (list Cx.t)) :=
  var_polys ← _linear_variable_polys C max_deg psi clmo encode_dict_list;
  poly_new ← polynomial_zero_list max_deg psi;
  poly_new ← for_each (range (max_deg + 1))
    (λ deg poly_new,
       p ← poly_old !! deg;
       if negb (np_any p) then Some poly_new else
       for_each (imap pair p)
         (λ '(pos, coeff) poly_new,
            if Cx.eqb coeff Cx.zero then Some poly_new else
            k ← decode_multiindex pos deg clmo;
            term ← polynomial_zero_list max_deg psi;
            let term :=
              match term with
              | (_ :: t0) :: rest => (coeff :: t0) :: rest
              | _ => term
              end in
            term ← for_each (range 6)
              (λ i_var term,
                 ki ← k !! i_var;
                 if bool_decide (ki = 0) then Some term else
                 vp ← var_polys !! i_var;
                 pwr ← polynomial_power vp ki max_deg psi clmo encode_dict_list;
                 polynomial_multiply term pwr max_deg psi clmo encode_dict_list)
              term;
            polynomial_add_inplace poly_new term Cx.one max_deg)
         poly_new)
    poly_new;
  polynomial_clean poly_new TOL_1E_14.

End transforms.

(** ** The homological equation of [algorithms/center/lie.py] *)

(** Modelled from the spec: the difference of two exponents as a
    coefficient. *)
Definition exponent_diff (a b : nat) : Cx.t := Cx.of_Z (Z.of_nat a - Z.of_nat b).

(** Modelled from the spec: the divisor
    [eta[0]*(k[3]-k[0]) + eta[1]*(k[4]-k[1]) + eta[2]*(k[5]-k[2])]. *)
Definition homological_denominator (eta0 eta1 eta2 : Cx.t) (k : list nat) : option Cx.t :=
  k0 ← k !! 0; k1 ← k !! 1; k2 ← k !! 2;
  k3 ← k !! 3; k4 ← k !! 4; k5 ← k !! 5;
  Some (eta0 * exponent_diff k3 k0 + eta1 * exponent_diff k4 k1
        + eta2 * exponent_diff k5 k2)%cx.

(** Modelled from the spec: [_solve_homological_equation(p_elim, n, eta, clmo)]
    of the missing [lie.py].  Good positions ([k[0] == k[3]]) of the result are
    zero; at a bad position the coefficient is divided by the divisor and
    negated.  A divisor of magnitude at most [eps], the chosen resonance
    threshold, is an error. *)
Definition _solve_homological_equation (p_elim : list Cx.t) (n : nat) (eta : list Cx.t)
    (clmo : Clmo) (eps : Qc) : option (list Cx.t) :=
  eta0 ← eta !! 0; eta1 ← eta !! 1; eta2 ← eta !! 2;
  for_each (range (length p_elim))
    (λ i p_G,
       c ← p_elim !! i;
       k ← decode_multiindex i n clmo;
       k0 ← k !! 0;
       k3 ← k !! 3;
       if bool_decide (k0 = k3) then Some p_G else
       denom ← homological_denominator eta0 eta1 eta2 k;
       if Cx.abs_le denom eps then None else
       array_set p_G i (- c / denom)%cx)
    (np_zeros (length p_elim)).

(** [a[idx] = x] with a Python index. *)
Definition array_set_at (a : list Cx.t) (idx : Z) (x : Cx.t) : option (list Cx.t) :=
  j ← py_index (length a) idx; array_set a j x.

(** The quadratic part [lam*q1*p1 + 1j*w1*q2*p2 + 1j*w2*q3*p3] as a degree-2
    coefficient array, built as in [test_homological_property]. *)
Definition H2_coefficients (lam w1 w2 : Qc) (psi : PsiTable)
    (encode_dict_list : EncodeDicts) : option (list Cx.t) :=
  n2 ← psi_at psi N_VARS 2;
  let H2 := np_zeros n2 in
  H2 ← array_set_at H2 (encode_multiindex [1; 0; 0; 1; 0; 0] 2 encode_dict_list)
         (Cx.of_Qc lam);
  H2 ← array_set_at H2 (encode_multiindex [0; 1; 0; 0; 1; 0] 2 encode_dict_list)
         (Cx.imag w1);
  array_set_at H2 (encode_multiindex [0; 0; 1; 0; 0; 1] 2 encode_dict_list)
    (Cx.imag w2).

(** ** Graded operations of [polynomial/operations.py] *)

(** Modelled from the spec: [polynomial_zero_list(max_deg, psi)] of the missing
    [polynomial/operations.py], one zero block per degree [0..max_deg]. *)
Definition polynomial_zero_list (max_deg : nat) (psi : PsiTable)
  : option (list (list Cx.t)) :=
  mapM (λ d, n ← psi_at psi N_VARS d; Some (np_zeros n)) (range (max_deg + 1)).

(** Modelled from the spec: the variable-polynomial constructor
    [polynomial_variable(idx, max_deg, ...)], the graded polynomial of the
    single variable [idx]. *)
Definition polynomial_variable (idx max_deg : nat) (psi : PsiTable) (clmo : Clmo)
    (encode_dict_list : EncodeDicts) : option (list (list Cx.t)) :=
  poly ← polynomial_zero_list max_deg psi;
  if bool_decide (1 ≤ max_deg) then
    block ← poly !! 1;
    k ← array_set (replicate N_VARS 0) idx 1;
    block ← array_set_at block (encode_multiindex k 1 encode_dict_list) Cx.one;
    Some (<[1 := block]> poly)
  else Some poly.

(** Modelled from the spec: [polynomial_add_inplace(a, b, scale, max_deg)]
    accumulates [scale * b] into [a] block by block, through [_poly_scale] and
    [_poly_add]; the new contents of [a] are returned. *)
Definition polynomial_add_inplace (a b : list (list Cx.t)) (scale : Cx.t)
    (max_deg : nat) : option (list (list Cx.t)) :=
  for_each (range (max_deg + 1))
    (λ d a,
       ad ← a !! d;
       bd ← b !! d;
       scaled ← _poly_scale bd scale (np_zeros (length bd));
       ad ← _poly_add ad scaled ad;
       Some (<[d := ad]> a))
    a.

(** Modelled from the spec: [polynomial_multiply(a, b, max_deg, ...)], the
    product truncated at [max_deg], every pair of blocks multiplied by
    [_poly_mul]. *)
Definition polynomial_multiply (sch : Sched) (a b : list (list Cx.t)) (max_deg : nat)
    (psi : PsiTable) (clmo : Clmo) (encode_dict_list : EncodeDicts)
  : option (list (list Cx.t)) :=
  res ← polynomial_zero_list max_deg psi;
  for_each (range (max_deg + 1))
    (λ d1 res,
       for_each (range (max_deg + 1 - d1))
         (λ d2 res,
            ad ← a !! d1;
            bd ← b !! d2;
            prod ← _poly_mul sch ad d1 bd d2 psi clmo encode_dict_list;
            rd ← res !! (d1 + d2);
            rd ← _poly_add rd prod rd;
            Some (<[d1 + d2 := rd]> res))
         res)
    res.

(** Modelled from the spec: [polynomial_power(a, k, max_deg, ...)], the [k]-th
    power by repeated multiplication. *)
Definition polynomial_power (sch : Sched) (a : list (list Cx.t)) (k max_deg : nat)
    (psi : PsiTable) (clmo : Clmo) (encode_dict_list : EncodeDicts)
  : option (list (list Cx.t)) :=
  one ← polynomial_zero_list max_deg psi;
  let one :=
    match one with
    | (_ :: t0) :: rest => (Cx.one :: t0) :: rest
    | _ => one
    end in
  for_each (range k)
    (λ _ acc, polynomial_multiply sch acc a max_deg psi clmo encode_dict_list) one.

(** ** Notions used to state the properties *)

(** Exponents that fit the bit fields of the packing. *)
Definition small_exponents (k : list nat) : Prop := Forall (λ e, e < 64) k.

(** The effect of cleaning on one coefficient. *)
Definition clean_coeff (tol : Qc) (c : Cx.t) : Cx.t :=
  if Cx.abs_le c tol then Cx.zero else c.

(** A coefficient that cleaning at [tol] leaves alone: zero, or of magnitude
    above [tol]. *)
Definition is_clean (tol : Qc) (c : Cx.t) : Prop :=
  Cx.abs_le c tol = true → c = Cx.zero.

(** The effect of the center-manifold restriction on the coefficient [c] of the
    exponent tuple [k]. *)
Definition restrict_coeff (tol : Qc) (k : list nat) (c : Cx.t) : Cx.t :=
  if Cx.abs_le c tol then Cx.zero
  else if bool_decide (k !! 0 = Some 0 ∧ k !! 3 = Some 0) then c
  else Cx.zero.

Definition restrict_poly (tol : Qc) (H : list (list Cx.t)) : list (list Cx.t) :=
  imap (λ deg block, zip_with (restrict_coeff tol) (monomials N_VARS deg) block) H.

(** A homogeneous polynomial of degree [d]: a dense array of [psi[N_VARS, d]]
    coefficients. *)
Definition homogeneous (d : nat) (p : list Cx.t) : Prop :=
  length p = psi_count N_VARS d.

(** A graded polynomial within tables built for [max_degree]. *)
Definition graded_poly (max_degree : nat) (H : list (list Cx.t)) : Prop :=
  ∀ deg block, H !! deg = Some block → deg ≤ max_degree ∧ homogeneous deg block.

(** *** Per-thread accumulation buffers *)

(** Entry [j] of an array, zero outside it. *)
Definition entry (a : list Cx.t) (j : nat) : Cx.t := default Cx.zero (a !! j).

(** The sum of column [j] over the rows of the buffers. *)
Definition column_sum (scratch : list (list Cx.t)) (j : nat) : Cx.t :=
  csum_with (λ row, entry row j) scratch.

(** [n] columns in every row. *)
Definition shaped (n : nat) (scratch : list (list Cx.t)) : Prop :=
  Forall (λ row, length row = n) scratch.

(** *** Products *)

(** The sum of two exponent tuples. *)
Definition tuple_add (ki kj : list nat) : list nat := zip_with Nat.add ki kj.

(** The term that the pair of positions [(i, j)] contributes to the
    coefficient of the exponent tuple [k] in the product of [p] and [q]:
    [p[i] * q[j]] when the tuples of [i] and [j] add to [k], nothing
    otherwise. *)
Definition pair_term (clmo : Clmo) (p : list Cx.t) (deg_p : nat) (q : list Cx.t)
    (deg_q : nat) (k : list nat) (i j : nat) : Cx.t :=
  match p !! i, q !! j, decode_multiindex i deg_p clmo, decode_multiindex j deg_q clmo with
  | Some pi, Some qj, Some ki, Some kj =>
      if bool_decide (tuple_add ki kj = k) then (pi * qj)%cx else Cx.zero
  | _, _, _, _ => Cx.zero
  end.

(** The convolution sum at the exponent tuple [k]. *)
Definition convolution (clmo : Clmo) (p : list Cx.t) (deg_p : nat) (q : list Cx.t)
    (deg_q : nat) (k : list nat) : Cx.t :=
  csum_with
    (λ i, csum_with (λ j, pair_term clmo p deg_p q deg_q k i j) (range (length q)))
    (range (length p)).

(** The contribution of the pair [(i, j)] to column [col] of the buffers of
    [_poly_mul]. *)
Definition column_term (clmo : Clmo) (p : list Cx.t) (deg_p : nat) (q : list Cx.t)
    (deg_q : nat) (i j col : nat) : Cx.t :=
  match monomials N_VARS (deg_p + deg_q) !! col with
  | Some k => pair_term clmo p deg_p q deg_q k i j
  | None => Cx.zero
  end.

(** *** Derivatives and integrals *)

(** What position [i] of [p] contributes to column [col] of the buffers of
    [_poly_diff]. *)
Definition diff_term (p : list Cx.t) (var d' : nat) (i col : nat) : Cx.t :=
  match p !! i, monomials N_VARS (S d') !! i with
  | Some c, Some ki =>
      match ki !! var with
      | Some e =>
          if bool_decide (e ≠ 0 ∧ monomials N_VARS d' !! col = Some (<[var := e - 1]> ki))
          then (c * Cx.of_nat e)%cx else Cx.zero
      | None => Cx.zero
      end
  | _, _ => Cx.zero
  end.

(** What position [i] of [p] contributes to entry [col] of the result of
    [_poly_integrate]. *)
Definition integrate_term (p : list Cx.t) (var d : nat) (i col : nat) : Cx.t :=
  match p !! i, monomials N_VARS d !! i with
  | Some c, Some ki =>
      match ki !! var with
      | Some e =>
          if bool_decide (monomials N_VARS (d + 1) !! col = Some (<[var := e + 1]> ki))
          then (c / Cx.of_nat (e + 1))%cx else Cx.zero
      | None => Cx.zero
      end
  | _, _ => Cx.zero
  end.

(** *** Poisson brackets *)

(** The two products of derivatives that iteration [m] of [_poly_poisson]
    adds to and subtracts from the result. *)
Definition poisson_term1 (sch : Sched) (p : list Cx.t) (deg_p : nat) (q : list Cx.t)
    (deg_q : nat) (psi : PsiTable) (clmo : Clmo) (encode_dict_list : EncodeDicts)
    (m : nat) : option (list Cx.t) :=
  dpx ← _poly_diff sch p m deg_p psi clmo encode_dict_list;
  dqqp ← _poly_diff sch q (m + 3) deg_q psi clmo encode_dict_list;
  _poly_mul sch dpx (deg_p - 1) dqqp (deg_q - 1) psi clmo encode_dict_list.

Definition poisson_term2 (sch : Sched) (p : list Cx.t) (deg_p : nat) (q : list Cx.t)
    (deg_q : nat) (psi : PsiTable) (clmo : Clmo) (encode_dict_list : EncodeDicts)
    (m : nat) : option (list Cx.t) :=
  dpq ← _poly_diff sch p (m + 3) deg_p psi clmo encode_dict_list;
  dqx ← _poly_diff sch q m deg_q psi clmo encode_dict_list;
  _poly_mul sch dpq (deg_p - 1) dqx (deg_q - 1) psi clmo encode_dict_list.

(** One iteration: [r += term1; r -= term2]. *)
Definition bracket_step (r t1 t2 : list Cx.t) : list Cx.t :=
  zip_with Cx.sub (zip_with Cx.add r t1) t2.

(** *** The homological equation *)

(** The coefficient of the generating function at the exponent tuple [k],
    for the coefficient [c] of the polynomial to eliminate. *)
Definition solution_coeff (eta0 eta1 eta2 : Cx.t) (k : list nat) (c : Cx.t) : Cx.t :=
  if bool_decide (k !! 0 = k !! 3) then Cx.zero
  else match homological_denominator eta0 eta1 eta2 k with
       | Some denom => (- c / denom)%cx
       | None => Cx.zero
       end.

(** The coefficient of [lam*q1*p1 + 1j*w1*q2*p2 + 1j*w2*q3*p3] at [k]. *)
Definition H2_coeff (lam w1 w2 : Qc) (k : list nat) : Cx.t :=
  if bool_decide (k = [1; 0; 0; 1; 0; 0]) then Cx.of_Qc lam
  else if bool_decide (k = [0; 1; 0; 0; 1; 0]) then Cx.imag w1
  else if bool_decide (k = [0; 0; 1; 0; 0; 1]) then Cx.imag w2
  else Cx.zero.

(** The linear polynomial [c * x_var]: the tuple of the variable [var] is at
    position [5 - var] of the enumeration of degree one. *)
Definition linear_monomial (var : nat) (c : Cx.t) : list Cx.t :=
  <[5 - var := c]> (np_zeros 6).

(** ** A concrete runtime and concrete tables, used in examples *)

(** Two worker threads; iteration [i] runs on thread [i mod 2], and the
    iterations take effect from the last to the first. *)
Program Definition two_workers : Sched :=
  {| get_num_threads := 2;
     get_thread_id := λ i, i mod 2;
     prange := λ n, reverse (seq 0 n) |}.
Next Obligation. intros i. cbv beta. apply Nat.mod_upper_bound. lia. Qed.
Next Obligation. intros n. cbv beta. apply reverse_Permutation. Qed.

(** The tables for [max_degree = 2]. *)
Definition psi_2 : PsiTable := (init_index_tables 2).1.
Definition clmo_2 : Clmo := (init_index_tables 2).2.
Definition encode_2 : EncodeDicts := _create_encode_dict_from_clmo clmo_2.

(** The 6x6 identity matrix. *)
Definition identity_matrix : list (list Cx.t) :=
  (λ i, (λ j, if bool_decide (i = j) then Cx.one else Cx.zero) <$> range 6) <$> range 6.

(** A coefficient of magnitude [1e-15]. *)
Definition tiny : Cx.t := Cx.of_Qc (Q2Qc (1 # 1000000000000000)).

(** The tables for [max_degree = 1], and a store that holds the two blocks of
    a graded polynomial of degree one, all coefficients equal to one. *)
Definition clmo_1 : Clmo := (init_index_tables 1).2.

Definition ones_poly : list (list Cx.t) := [replicate 1 Cx.one; replicate 6 Cx.one].

Definition ones_heap : gmap nat (list Cx.t) :=
  <[1 := replicate 6 Cx.one]> (<[0 := replicate 1 Cx.one]> ∅).

(** A store that holds the constant polynomial [1e-15]. *)
Definition tiny_heap : gmap nat (list Cx.t) := <[0 := [tiny]]> ∅.

(** The quadratic polynomial [x0 * x3] with a coefficient of magnitude [1e-15]
    next to it. *)
Definition sample_poly : list (list Cx.t) :=
  [np_zeros 1; np_zeros 6; <[0 := tiny]> (<[17 := Cx.one]> (np_zeros 21))].

(** The linear polynomials [x5] and [x4 + 2*x5] (position 0 holds the
    coefficient of the last variable). *)
Definition linear_a : list Cx.t := <[0 := Cx.one]> (np_zeros 6).
Definition linear_b : list Cx.t :=
  <[1 := Cx.one]> (<[0 := Cx.of_nat 2]> (np_zeros 6)).

(** The quadratic polynomials with coefficient one at position 17 (the tuple
    [(1,0,0,1,0,0)]) and at position 3. *)
Definition quadratic_a : list Cx.t := <[17 := Cx.one]> (np_zeros 21).
Definition quadratic_b : list Cx.t := <[3 := Cx.one]> (np_zeros 21).

(** The eigenvalues [lam = 3.1], [w1 = 2.4], [w2 = 2.2] of
    [test_homological_property], and a quadratic polynomial with bad terms
    only: [q1^2 + 2*q1*p2]. *)
Definition lam_test : Qc := Q2Qc (31 # 10).
Definition w1_test : Qc := Q2Qc (24 # 10).
Definition w2_test : Qc := Q2Qc (22 # 10).

Definition bad_quadratic : list Cx.t :=
  <[20 := Cx.one]> (<[16 := Cx.of_nat 2]> (np_zeros 21)).
(** ** More of [algorithms/center/polynomial/algebra.py] *)

(** A loop whose body may return from the enclosing function: an iteration
    yields [inl s] to go on with the state [s], and [inr r] for [return r]. *)
Fixpoint for_each_return {A St R : Type} (xs : list A)
    (body : A → St → option (St + R)) (s : St) : option (St + R) :=
  match xs with
  | [] => Some (inl s)
  | x :: xs' =>
      match body x s with
      | Some (inl s') => for_each_return xs' body s'
      | Some (inr r) => Some (inr r)
      | None => None
      end
  end.

(** [psi.shape[1]], the number of columns of the table. *)
Definition psi_shape1 (psi : PsiTable) : nat :=
  match psi with
  | [] => 0
  | row :: _ => length row
  end.

(** [_get_degree(p, psi)]: the first degree whose size is the length of [p],
    or [-1]. *)
Definition _get_degree (p : list Cx.t) (psi : PsiTable) : option Z :=
  let num_coeffs := length p in
  if bool_decide (num_coeffs = 0) then Some (-1)%Z else
  r ← for_each_return (range (psi_shape1 psi))
    (λ d (_ : unit),
       n ← psi_at psi N_VARS d;
       if bool_decide (n = num_coeffs) then Some (inr (Z.of_nat d)) else Some (inl tt))
    tt;
  match r with
  | inr d => Some d
  | inl _ => Some (-1)%Z
  end.

(** [a[i, j]] and [a[i, j] = x] on a two-dimensional array. *)
Definition array2_at (a : list (list Cx.t)) (i j : nat) : option Cx.t :=
  row ← a !! i; row !! j.

Definition array2_set (a : list (list Cx.t)) (i j : nat) (x : Cx.t)
  : option (list (list Cx.t)) :=
  row ← a !! i;
  row ← array_set row j x;
  Some (<[i := row]> a).

(** [range(1, n + 1)]. *)
Definition range_from_1 (n : nat) : list nat := seq 1 n.

(** [_poly_evaluate(p, degree, point, clmo)].  The table [pow_table] comes
    from [np.empty]; every entry of it is written before it is read, and it
    starts here filled with zeros. *)
Definition _poly_evaluate (p : list Cx.t) (degree : nat) (point : list Cx.t)
    (clmo : Clmo) : option Cx.t :=
  if bool_decide (length p = 0) then Some Cx.zero else
  let pow_table := replicate N_VARS (np_zeros (degree + 1)) in
  pow_table ← for_each (range N_VARS)
    (λ v pow_table,
       pow_table ← array2_set pow_table v 0 Cx.one;
       base ← point !! v;
       for_each (range_from_1 degree)
         (λ e pow_table,
            prev ← array2_at pow_table v (e - 1);
            array2_set pow_table v e (prev * base)%cx)
         pow_table)
    pow_table;
  for_each (range (length p))
    (λ i current_sum,
       coeff_val ← p !! i;
       if Cx.eqb coeff_val Cx.zero then Some current_sum else
       exps ← decode_multiindex i degree clmo;
       term_val ← for_each (range N_VARS)
         (λ v term_val,
            ev ← exps !! v;
            pw ← array2_at pow_table v ev;
            Some (term_val * pw)%cx)
         Cx.one;
       Some (current_sum + coeff_val * term_val)%cx)
    Cx.zero.

(** The threshold [1e-15]. *)
Definition TOL_1E_15 : Qc := Q2Qc (1 # 1000000000000000).

(** [c ** n] for a natural number [n]. *)
Fixpoint cpow (c : Cx.t) (n : nat) : Cx.t :=
  match n with
  | 0 => Cx.one
  | S n' => (c * cpow c n')%cx
  end.

(** [_evaluate_reduced_monomial(k, coords, var_idx, exp_change)].  The
    exponents [k] are natural numbers; [exp_change] is an integer, so the
    changed exponent may be negative. *)
Definition _evaluate_reduced_monomial (k : list nat) (coords : list Cx.t)
    (var_idx : nat) (exp_change : Z) : option Cx.t :=
  r ← for_each_return (range 6)
    (λ i result,
       ki ← k !! i;
       let exp :=
         if bool_decide (i = var_idx) then (Z.of_nat ki + exp_change)%Z
         else Z.of_nat ki in
       if bool_decide (0 < exp)%Z then
         c ← coords !! i;
         if negb (Cx.abs_le c TOL_1E_15)
         then Some (inl (result * cpow c (Z.to_nat exp))%cx)
         else Some (inr Cx.zero)
       else Some (inl result))
    Cx.one;
  match r with
  | inl result => Some result
  | inr r => Some r
  end.

(** ** The cache of [hiten/system/center.py] *)

(** The Python values that [CenterManifold] computes and caches: [None], a
    list of arrays, a tuple whose items are lists of arrays ([inl]) or other
    objects ([inr]), and any other (immutable) object. *)
Inductive pyobj : Type :=
  | PyNone
  | PyList (items : list nat)
  | PyTuple (items : list (list nat + nat))
  | PyOther (id : nat).

(** The kind of the libration point given to the constructor. *)
Inductive point_kind : Type :=
  | CollinearPoint (is_L3 : bool)
  | TriangularPoint
  | OtherPoint.

(** A cache key is a tuple of strings and integers, such as
    [('hamiltonian', 8, 'center_manifold_complex')]. *)
Abbreviation cache_key := (list (string + Z)).

(** The attributes of a [CenterManifold] object.  The Poincaré maps are
    opaque: the methods below only clear their dictionary. *)
Record CenterManifold : Type := mkCenterManifold {
  _point : point_kind;
  _max_degree : nat;
  _psi : PsiTable;
  _clmo : Clmo;
  _encode_dict_list : EncodeDicts;
  _cache : gmap cache_key pyobj;
  _poincare_maps : gmap nat nat
}.

(** [CenterManifold(point, max_degree)]. *)
Definition CenterManifold_init (point : point_kind) (max_degree : nat)
  : option CenterManifold :=
  match point with
  | CollinearPoint _ =>
      let '(psi, clmo) := init_index_tables max_degree in
      Some (mkCenterManifold point max_degree psi clmo
              (_create_encode_dict_from_clmo clmo) ∅ ∅)
  | TriangularPoint => None
  | OtherPoint => None
  end.

(** [self.cache_get(key)]: [dict.get] gives [None] for a missing key. *)
Definition cache_get (self : CenterManifold) (key : cache_key) : pyobj :=
  default PyNone (_cache self !! key).

(** [self.cache_set(key, value)]. *)
Definition cache_set (self : CenterManifold) (key : cache_key) (value : pyobj)
  : CenterManifold :=
  mkCenterManifold (_point self) (_max_degree self) (_psi self) (_clmo self)
    (_encode_dict_list self) (<[key := value]> (_cache self)) (_poincare_maps self).

(** [self.cache_clear()]. *)
Definition cache_clear (self : CenterManifold) : CenterManifold :=
  mkCenterManifold (_point self) (_max_degree self) (_psi self) (_clmo self)
    (_encode_dict_list self) ∅ ∅.

(** The setter of the property [max_degree], for an integer [value]. *)
Definition max_degree_setter (self : CenterManifold) (value : Z)
  : option CenterManifold :=
  if bool_decide (value ≤ 0)%Z then None else
  if bool_decide (value ≠ Z.of_nat (_max_degree self)) then
    let max_degree := Z.to_nat value in
    let '(psi, clmo) := init_index_tables max_degree in
    Some (cache_clear
            (mkCenterManifold (_point self) max_degree psi clmo
               (_create_encode_dict_from_clmo clmo) (_cache self)
               (_poincare_maps self)))
  else Some self.

(** [[item.copy() for item in sublist] if isinstance(sublist, list) else
    sublist]. *)
Definition copy_sublist (sublist : list nat + nat) (h : gmap nat (list Cx.t))
  : option ((list nat + nat) * gmap nat (list Cx.t)) :=
  match sublist with
  | inl items => '(items', h) ← copy_all items h; Some (inl items', h)
  | inr _ => Some (sublist, h)
  end.

Fixpoint copy_sublists (sublists : list (list nat + nat)) (h : gmap nat (list Cx.t))
  : option (list (list nat + nat) * gmap nat (list Cx.t)) :=
  match sublists with
  | [] => Some ([], h)
  | sublist :: rest =>
      '(sublist', h) ← copy_sublist sublist h;
      '(rest', h) ← copy_sublists rest h;
      Some (sublist' :: rest', h)
  end.

(** The copy that [_get_or_compute] stores on a miss and returns on a hit: the
    arrays of a list are copied, a tuple has the arrays of each of its lists
    copied, any other value is shared. *)
Definition copy_value (val : pyobj) (h : gmap nat (list Cx.t))
  : option (pyobj * gmap nat (list Cx.t)) :=
  match val with
  | PyTuple sublists =>
      '(sublists', h) ← copy_sublists sublists h; Some (PyTuple sublists', h)
  | PyList items => '(items', h) ← copy_all items h; Some (PyList items', h)
  | _ => Some (val, h)
  end.

(** [self._get_or_compute(key, compute_func)]: the value returned, the new
    state of the object and the new store.  [compute_func] is a closure over
    the object and may update it and the store. *)
Definition _get_or_compute (self : CenterManifold) (key : cache_key)
    (compute_func : CenterManifold → gmap nat (list Cx.t) →
                    option (pyobj * CenterManifold * gmap nat (list Cx.t)))
    (h : gmap nat (list Cx.t))
  : option (pyobj * CenterManifold * gmap nat (list Cx.t)) :=
  match cache_get self key with
  | PyNone =>
      '(computed_val, self, h) ← compute_func self h;
      '(stored, h) ← copy_value computed_val h;
      Some (computed_val, cache_set self key stored, h)
  | cached_val =>
      '(copied, h) ← copy_value cached_val h;
      Some (copied, self, h)
  end.

Section center_manifold_pipeline.

(** [self._get_complex_normal_form()], which runs the Lie transformation of
    the missing [lie.py]: the list of blocks it returns, the new state of the
    object and the new store. *)
Variable _get_complex_normal_form :
  CenterManifold → gmap nat (list Cx.t) →
  option (list nat * CenterManifold * gmap nat (list Cx.t)).

Definition _get_center_manifold_complex (self : CenterManifold)
    (h : gmap nat (list Cx.t))
  : option (pyobj * CenterManifold * gmap nat (list Cx.t)) :=
  let key : cache_key :=
    [inl "hamiltonian"; inr (Z.of_nat (_max_degree self));
     inl "center_manifold_complex"] in
  let compute_cm_complex (self : CenterManifold) (h : gmap nat (list Cx.t)) :=
    '(poly_trans, self, h) ← _get_complex_normal_form self h;
    '(poly_cm, h) ← _restrict_to_center_manifold (_clmo self) poly_trans TOL_1E_14 h;
    Some (PyList poly_cm, self, h) in
  _get_or_compute self key compute_cm_complex h.

End center_manifold_pipeline.

(** ** Notions used to state the properties of the additional functions *)

(** The value of the monomial with exponents [k] at [point]. *)
Definition monomial_value (point : list Cx.t) (k : list nat) : Cx.t :=
  foldr Cx.mul Cx.one (zip_with cpow point k).

(** The value at [point] of the term at position [i] of a polynomial of
    degree [d]. *)
Definition term_value (p : list Cx.t) (d : nat) (point : list Cx.t) (i : nat) : Cx.t :=
  match p !! i, monomials N_VARS d !! i with
  | Some c, Some k => (c * monomial_value point k)%cx
  | _, _ => Cx.zero
  end.

(** The value at [point] of a polynomial of degree [d]. *)
Definition poly_value (p : list Cx.t) (d : nat) (point : list Cx.t) : Cx.t :=
  csum_with (term_value p d point) (range (length p)).

(** The tables of an object are those of its maximum degree. *)
Definition tables_consistent (self : CenterManifold) : Prop :=
  (_psi self, _clmo self) = init_index_tables (_max_degree self)
  ∧ _encode_dict_list self = _create_encode_dict_from_clmo (_clmo self).

(** The contents of a cached value: the arrays of a list. *)
Definition read_value (h : gmap nat (list Cx.t)) (val : pyobj)
  : option (list (list Cx.t)) :=
  match val with
  | PyList items => read_poly h items
  | _ => None
  end.

(** What iteration [i] of [_evaluate_reduced_monomial] does to the running
    product: [Some f] when it is multiplied by [f], [None] when the function
    returns zero at once. *)
Definition reduced_factor (k : list nat) (coords : list Cx.t) (var_idx : nat)
    (exp_change : Z) (i : nat) : option Cx.t :=
  let exp :=
    if bool_decide (i = var_idx) then (Z.of_nat (default 0%nat (k !! i)) + exp_change)%Z
    else Z.of_nat (default 0%nat (k !! i)) in
  if bool_decide (0 < exp)%Z then
    if Cx.abs_le (default Cx.zero (coords !! i)) TOL_1E_15 then None
    else Some (cpow (default Cx.zero (coords !! i)) (Z.to_nat exp))
  else Some Cx.one.

(** The exponent of the variable [var] in the tuple at position [i] of degree
    [d], as a coefficient. *)
Definition exponent_coeff (d var i : nat) : Cx.t :=
  match monomials N_VARS d !! i with
  | Some k => Cx.of_nat (default 0 (k !! var))
  | None => Cx.zero
  end.

(** The term that the positions [(i, j, l)] contribute to the coefficient of
    the exponent tuple [k] in the product of [p], [q] and [r]. *)
Definition triple_term (p : list Cx.t) (deg_p : nat) (q : list Cx.t) (deg_q : nat)
    (r : list Cx.t) (deg_r : nat) (k : list nat) (i j l : nat) : Cx.t :=
  match p !! i, q !! j, r !! l with
  | Some pi, Some qj, Some rl =>
      match monomials N_VARS deg_p !! i, monomials N_VARS deg_q !! j,
            monomials N_VARS deg_r !! l with
      | Some ki, Some kj, Some kl =>
          if bool_decide (tuple_add (tuple_add ki kj) kl = k)
          then (pi * qj * rl)%cx else Cx.zero
      | _, _, _ => Cx.zero
      end
  | _, _, _ => Cx.zero
  end.
(** ** Concrete inputs for the additional examples *)

(** The point [(1, 2, 3, 4, 5, 6)]. *)
Definition sample_point : list Cx.t := (λ n, Cx.of_nat (S n)) <$> range 6.

(** An object for the point L1 and [max_degree = 1], as the constructor
    leaves it. *)
Definition sample_manifold : CenterManifold :=
  mkCenterManifold (CollinearPoint false) 1 (init_index_tables 1).1
    (init_index_tables 1).2 (_create_encode_dict_from_clmo (init_index_tables 1).2) ∅ ∅.

(** The key under which the restricted Hamiltonian of degree one is cached. *)
Definition sample_key : list (string + Z) :=
  [inl "hamiltonian"; inr 1%Z; inl "center_manifold_complex"].

(** The same object with the blocks at the addresses 0 and 1 in its cache. *)
Definition sample_manifold_cached : CenterManifold :=
  cache_set sample_manifold sample_key (PyList [0; 1]).

(** A computation that returns the blocks at the addresses 0 and 1. *)
Definition sample_compute (self : CenterManifold) (h : gmap nat (list Cx.t))
  : option (pyobj * CenterManifold * gmap nat (list Cx.t)) :=
  Some (PyList [0; 1], self, h).

(** A normal-form pipeline that returns the blocks at the addresses 0 and 1. *)
Definition sample_pipeline (self : CenterManifold) (h : gmap nat (list Cx.t))
  : option (list nat * CenterManifold * gmap nat (list Cx.t)) :=
  Some ([0; 1], self, h).
(** * Properties *)

(** ** The coefficient field *)

Lemma Cx_eq (a b : Cx.t) : Cx.re a = Cx.re b → Cx.im a = Cx.im b → a = b.
Proof. destruct a, b; simpl; congruence. Qed.

Lemma Cx_eqb_eq (a b : Cx.t) : Cx.eqb a b = true ↔ a = b.
Proof.
  unfold Cx.eqb. rewrite andb_true_iff, !bool_decide_eq_true. split.
  - intros [? ?]. by apply Cx_eq.
  - by intros ->.
Qed.

Lemma Cx_eqb_neq (a b : Cx.t) : Cx.eqb a b = false ↔ a ≠ b.
Proof.
  rewrite <- Cx_eqb_eq. destruct (Cx.eqb a b); split; congruence.
Qed.

#[global] Instance Cx_eq_dec : EqDecision Cx.t.
Proof.
  intros a b. destruct (Cx.eqb a b) eqn:E.
  - left. by apply Cx_eqb_eq.
  - right. by apply Cx_eqb_neq.
Defined.

Lemma Cx_ring_theory :
  ring_theory Cx.zero Cx.one Cx.add Cx.mul Cx.sub Cx.opp eq.
Proof.
  constructor; intros;
    repeat match goal with x : Cx.t |- _ => destruct x end;
    apply Cx_eq; simpl; ring.
Qed.

Add Ring CxRing : Cx_ring_theory.

Lemma Qc_square_nonneg (x : Qc) : (0 ≤ x * x)%Qc.
Proof.
  destruct (Qclt_le_dec x 0) as [Hlt | Hle].
  - replace (x * x)%Qc with ((- x) * (- x))%Qc by ring.
    assert (0 ≤ - x)%Qc as H.
    { apply Qclt_le_weak. rewrite <- (Qcplus_opp_r x).
      rewrite <- (Qcplus_0_l (- x)) at 2. by apply Qcplus_lt_mono_r. }
    rewrite <- (Qcmult_0_l (- x)). by apply Qcmult_le_compat_r.
  - rewrite <- (Qcmult_0_l x). by apply Qcmult_le_compat_r.
Qed.

Lemma Qc_square_pos (x : Qc) : x ≠ 0%Qc → (0 < x * x)%Qc.
Proof.
  intros Hx. destruct (Qcle_lt_or_eq _ _ (Qc_square_nonneg x)) as [? | Heq]; [done |].
  symmetry in Heq. apply Qcmult_integral in Heq. tauto.
Qed.

Lemma Cx_norm2_nonneg (a : Cx.t) : (0 ≤ Cx.norm2 a)%Qc.
Proof.
  unfold Cx.norm2. rewrite <- (Qcplus_0_l 0).
  apply Qcplus_le_compat; apply Qc_square_nonneg.
Qed.

Lemma Cx_norm2_re (a : Cx.t) : (Cx.re a * Cx.re a ≤ Cx.norm2 a)%Qc.
Proof.
  unfold Cx.norm2. rewrite <- (Qcplus_0_r (Cx.re a * Cx.re a)) at 1.
  apply Qcplus_le_compat; [apply Qcle_refl | apply Qc_square_nonneg].
Qed.

Lemma Cx_norm2_zero (a : Cx.t) : Cx.norm2 a = 0%Qc → a = Cx.zero.
Proof.
  intros H. pose proof (Cx_norm2_re a) as Hre. rewrite H in Hre.
  assert (Cx.re a = 0%Qc) as Hr.
  { destruct (decide (Cx.re a = 0%Qc)) as [? | Hne]; [done |].
    apply Qc_square_pos in Hne. by apply Qclt_not_le in Hne. }
  assert (Cx.im a = 0%Qc) as Hi.
  { unfold Cx.norm2 in H. rewrite Hr in H.
    replace (0 * 0 + Cx.im a * Cx.im a)%Qc with (Cx.im a * Cx.im a)%Qc in H by ring.
    apply Qcmult_integral in H. tauto. }
  by apply Cx_eq.
Qed.

Lemma Cx_mul_inv_r (a : Cx.t) : a ≠ Cx.zero → (a * Cx.inv a)%cx = Cx.one.
Proof.
  intros Ha. assert (Cx.norm2 a ≠ 0%Qc) as Hn by (intros H; by apply Ha, Cx_norm2_zero).
  destruct a as [x y]. unfold Cx.inv, Cx.mul, Cx.one, Cx.norm2 in *. simpl in *.
  apply Cx_eq; simpl; field; done.
Qed.

Lemma Cx_field_theory :
  field_theory Cx.zero Cx.one Cx.add Cx.mul Cx.sub Cx.opp Cx.div Cx.inv eq.
Proof.
  constructor.
  - apply Cx_ring_theory.
  - intros H. by injection H.
  - done.
  - intros p Hp. replace (Cx.inv p * p)%cx with (p * Cx.inv p)%cx by ring.
    by apply Cx_mul_inv_r.
Qed.

Lemma Cx_div_mul_cancel (c d : Cx.t) : d ≠ Cx.zero → (c / d * d)%cx = c.
Proof.
  intros Hd. unfold Cx.div.
  replace (c * Cx.inv d * d)%cx with (c * (d * Cx.inv d))%cx by ring.
  rewrite Cx_mul_inv_r by done. ring.
Qed.

Lemma Cx_of_nat_S_nonzero (n : nat) : Cx.of_nat (S n) ≠ Cx.zero.
Proof.
  unfold Cx.of_nat, Cx.of_Z, Cx.of_Qc, Cx.zero. intros H.
  injection H as H. lia.
Qed.

(** ** Properties of the index tables *)

Section index_tables.

Lemma psi_count_0 (v : nat) : psi_count v 0 = 1.
Proof. by destruct v. Qed.

Lemma psi_count_S (v d : nat) :
  psi_count (S v) (S d) = psi_count v (S d) + psi_count (S v) d.
Proof. done. Qed.

Lemma monomials_S (v d : nat) :
  monomials (S v) d = k0 ← seq 0 (S d); cons k0 <$> monomials v (d - k0).
Proof. done. Qed.

(** The enumeration holds exactly the tuples of [v] exponents of degree [d]. *)
Lemma elem_of_monomials (v d : nat) (k : list nat) :
  k ∈ monomials v d ↔ length k = v ∧ sum_list k = d.
Proof.
  revert d k. induction v as [| v IH]; intros d k.
  - destruct d; simpl.
    + rewrite list_elem_of_singleton. split.
      * by intros ->.
      * intros [Hl _]. by destruct k.
    + split; [by intros ?%elem_of_nil |].
      intros [Hl Hs]. destruct k; simplify_eq/=.
  - rewrite monomials_S, list_elem_of_bind. split.
    + intros (k0 & Hk & Hk0). apply list_elem_of_fmap in Hk as (k' & -> & Hk').
      apply IH in Hk' as [<- Hs]. apply elem_of_seq in Hk0. simpl. split; [done | lia].
    + intros [Hl Hs]. destruct k as [| k0 k']; [done |].
      simpl in Hl, Hs. injection Hl as <-. subst d.
      exists k0. split.
      * apply list_elem_of_fmap. exists k'. split; [done |]. apply IH. split; [done | lia].
      * apply elem_of_seq. lia.
Qed.

Lemma monomials_NoDup (v d : nat) : NoDup (monomials v d).
Proof.
  revert d. induction v as [| v IH]; intros d.
  - destruct d; simpl; [apply NoDup_singleton | apply NoDup_nil_2].
  - rewrite monomials_S. apply NoDup_bind.
    + intros x1 x2 y _ _ (? & -> & _)%list_elem_of_fmap (? & ? & _)%list_elem_of_fmap.
      congruence.
    + intros x _. apply NoDup_fmap_2; [| apply IH]. by intros ?? [=].
    + apply NoDup_seq.
Qed.

Lemma sum_list_with_seq_shift (f : nat → nat) (n : nat) :
  sum_list_with f (seq 1 n) = sum_list_with (f ∘ S) (seq 0 n).
Proof.
  rewrite <- fmap_S_seq.
  induction (seq 0 n) as [| x l IH]; csimpl; [done | by rewrite IH].
Qed.

Lemma length_list_bind {A B : Type} (f : A → list B) (l : list A) :
  length (l ≫= f) = sum_list_with (λ x, length (f x)) l.
Proof. induction l as [| x l IH]; csimpl; [done |]. by rewrite length_app, IH. Qed.

Lemma sum_list_with_ext_in {A : Type} (f g : A → nat) (l : list A) :
  (∀ x, x ∈ l → f x = g x) → sum_list_with f l = sum_list_with g l.
Proof.
  induction l as [| x l IH]; intros H; simpl; [done |].
  rewrite (H x) by apply list_elem_of_here.
  rewrite IH; [done |]. intros y Hy. apply H. by apply list_elem_of_further.
Qed.

Lemma sum_psi_count (v d : nat) :
  sum_list_with (λ k0, psi_count v (d - k0)) (seq 0 (S d)) = psi_count (S v) d.
Proof.
  induction d as [| d IHd].
  - simpl. by rewrite psi_count_0.
  - rewrite psi_count_S, <- IHd. rewrite <- (cons_seq (S d) 0).
    change (psi_count v (S d - 0) +
            sum_list_with (λ k0, psi_count v (S d - k0)) (seq 1 (S d)) =
            psi_count v (S d) +
            sum_list_with (λ k0, psi_count v (d - k0)) (seq 0 (S d))).
    rewrite sum_list_with_seq_shift. f_equal.
Qed.

(** The size table counts the enumeration: [psi[v, d] == len(monomials)]. *)
Lemma length_monomials (v d : nat) : length (monomials v d) = psi_count v d.
Proof.
  revert d. induction v as [| v IH]; intros d.
  - by destruct d as [| d].
  - rewrite monomials_S, length_list_bind, <- sum_psi_count.
    apply sum_list_with_ext_in. intros k0 _. by rewrite length_fmap, IH.
Qed.

(** *** Packing *)

Lemma unpack_pack (k : list nat) :
  small_exponents k → unpack_fields (length k) (pack_multiindex k) = k.
Proof.
  induction 1 as [| e k He Hk IH]; [done |].
  cbn [length pack_multiindex unpack_fields].
  unfold FIELD_MASK, FIELD_BITS. change 63%N with (N.ones 6).
  rewrite N.land_ones, N.shiftr_div_pow2, N.shiftl_mul_pow2.
  change (2 ^ 6)%N with 64%N.
  assert (N.of_nat e < 64)%N as He' by lia.
  rewrite N.Div0.mod_add, N.mod_small by done.
  rewrite N.div_add, N.div_small by done.
  rewrite N.add_0_l, IH. f_equal. lia.
Qed.

Lemma pack_inj (k k' : list nat) :
  length k = length k' → small_exponents k → small_exponents k' →
  pack_multiindex k = pack_multiindex k' → k = k'.
Proof.
  intros Hl Hk Hk' Hp.
  rewrite <- (unpack_pack k), <- (unpack_pack k') by done. by rewrite Hl, Hp.
Qed.

Lemma sum_list_bound (k : list nat) (e : nat) : e ∈ k → e ≤ sum_list k.
Proof. intros He. by apply (sum_list_with_in e id). Qed.

Lemma small_exponents_of_degree (k : list nat) :
  sum_list k < 64 → small_exponents k.
Proof.
  intros Hs. apply Forall_forall. intros e He%sum_list_bound. lia.
Qed.

(** *** The tables built by [init_index_tables] *)

Context (max_degree : nat).
Local Abbreviation psi := (init_psi_table max_degree).
Local Abbreviation clmo := (init_clmo max_degree).
Local Abbreviation encode_dict_list := (_create_encode_dict_from_clmo (init_clmo max_degree)).

Lemma psi_at_init (v d : nat) :
  v ≤ N_VARS → d ≤ max_degree → psi_at psi v d = Some (psi_count v d).
Proof.
  intros Hv Hd. unfold psi_at, init_psi_table.
  rewrite list_lookup_fmap, lookup_seq_lt by lia. cbn [fmap option_fmap option_map mbind option_bind].
  rewrite list_lookup_fmap, lookup_seq_lt by lia. done.
Qed.

Lemma psi_at_init_beyond (v d : nat) : max_degree < d → psi_at psi v d = None.
Proof.
  intros Hd. unfold psi_at, init_psi_table.
  rewrite list_lookup_fmap. destruct (seq 0 (S N_VARS) !! v); [| done].
  cbn [fmap option_fmap option_map mbind option_bind].
  rewrite list_lookup_fmap, lookup_seq_ge by lia. done.
Qed.

Lemma clmo_lookup (d : nat) :
  d ≤ max_degree → clmo !! d = Some (pack_multiindex <$> monomials N_VARS d).
Proof.
  intros Hd. unfold init_clmo.
  rewrite list_lookup_fmap, lookup_seq_lt by lia. done.
Qed.

Lemma decode_init_beyond (pos d : nat) :
  max_degree < d → decode_multiindex pos d clmo = None.
Proof.
  intros Hd. unfold decode_multiindex, init_clmo.
  rewrite list_lookup_fmap, lookup_seq_ge by lia. done.
Qed.

Hypothesis max_degree_small : max_degree < 64.

Lemma monomials_small (d : nat) (k : list nat) :
  d ≤ max_degree → k ∈ monomials N_VARS d → length k = N_VARS ∧ small_exponents k.
Proof.
  intros Hd [Hl Hs]%elem_of_monomials. split; [done |].
  apply small_exponents_of_degree. lia.
Qed.

(** Decoding a position reads the enumeration. *)
Lemma decode_init (pos d : nat) :
  d ≤ max_degree → decode_multiindex pos d clmo = monomials N_VARS d !! pos.
Proof.
  intros Hd. unfold decode_multiindex. rewrite clmo_lookup by done.
  cbn [mbind option_bind]. rewrite list_lookup_fmap.
  destruct (monomials N_VARS d !! pos) as [k |] eqn:Hk; [| done].
  cbn [fmap option_fmap option_map].
  destruct (monomials_small d k) as [Hl Hs]; [done | by eapply list_elem_of_lookup_2 |].
  cbn [mbind option_bind]. by rewrite <- Hl, unpack_pack.
Qed.

Lemma codes_NoDup (d : nat) :
  d ≤ max_degree → NoDup (pack_multiindex <$> monomials N_VARS d).
Proof.
  intros Hd. apply NoDup_fmap_2_strong; [| apply monomials_NoDup].
  intros k k' Hk Hk' Hp.
  destruct (monomials_small d k) as [Hl Hs]; [done .. |].
  destruct (monomials_small d k') as [Hl' Hs']; [done .. |].
  apply pack_inj; congruence.
Qed.

Lemma encode_dict_lookup (d : nat) (code : N) (pos : nat) :
  d ≤ max_degree →
  (∃ dict, encode_dict_list !! d = Some dict ∧
     (dict !! code = Some pos ↔
      (pack_multiindex <$> monomials N_VARS d) !! pos = Some code)).
Proof.
  intros Hd. unfold _create_encode_dict_from_clmo.
  rewrite list_lookup_fmap, clmo_lookup by done.
  cbn [fmap option_fmap option_map]. eexists. split; [done |].
  set (codes := pack_multiindex <$> monomials N_VARS d).
  assert (NoDup (zip codes (seq 0 (length codes))).*1) as Hnd.
  { rewrite fst_zip by (rewrite length_seq; lia). by apply codes_NoDup. }
  rewrite <- elem_of_list_to_map by done.
  rewrite list_elem_of_lookup. split.
  - intros [i Hi]. apply lookup_zip_with_Some in Hi as (c & n & [= <- <-] & Hc & Hn).
    apply lookup_seq in Hn as [-> _]. done.
  - intros Hc. exists pos. apply lookup_zip_with_Some. exists code, pos.
    split_and!; [done .. |]. apply lookup_seq. split; [done |].
    by eapply lookup_lt_Some.
Qed.

(** Encoding a tuple of the enumeration gives its position. *)
Lemma encode_init (k : list nat) (d pos : nat) :
  d ≤ max_degree → monomials N_VARS d !! pos = Some k →
  encode_multiindex k d encode_dict_list = Z.of_nat pos.
Proof.
  intros Hd Hk. unfold encode_multiindex.
  assert (k ∈ monomials N_VARS d) as Hin by by eapply list_elem_of_lookup_2.
  apply elem_of_monomials in Hin as [_ Hs]. rewrite bool_decide_eq_true_2 by done.
  destruct (encode_dict_lookup d (pack_multiindex k) pos Hd) as (dict & -> & Hdict).
  rewrite (proj2 Hdict); [done |]. by rewrite list_lookup_fmap, Hk.
Qed.

(** A position returned by [encode_multiindex] is the position of the tuple. *)
Lemma encode_init_inv (k : list nat) (d : nat) :
  length k = N_VARS →
  encode_multiindex k d encode_dict_list = (-1)%Z ∨
  ∃ pos, encode_multiindex k d encode_dict_list = Z.of_nat pos ∧
         d ≤ max_degree ∧ monomials N_VARS d !! pos = Some k.
Proof.
  intros Hl. unfold encode_multiindex. case_bool_decide as Hs; [| by left].
  destruct (decide (d ≤ max_degree)) as [Hd | Hd].
  - destruct (encode_dict_list !! d) as [dict |] eqn:Hdict; [| by left].
    destruct (dict !! pack_multiindex k) as [pos |] eqn:Hpos; [| by left].
    right. exists pos. split_and!; [done .. |].
    destruct (encode_dict_lookup d (pack_multiindex k) pos Hd) as (dict' & Hd' & Hiff).
    rewrite Hdict in Hd'. injection Hd' as <-.
    apply Hiff in Hpos. rewrite list_lookup_fmap in Hpos.
    destruct (monomials N_VARS d !! pos) as [k' |] eqn:Hk'; [| done].
    injection Hpos as Hpos. f_equal.
    destruct (monomials_small d k') as [Hl' Hs'];
      [done | by eapply list_elem_of_lookup_2 |].
    apply pack_inj; [congruence | done | | done].
    apply small_exponents_of_degree. lia.
  - left. unfold _create_encode_dict_from_clmo, init_clmo.
    rewrite !list_lookup_fmap, lookup_seq_ge by lia. done.
Qed.

End index_tables.

Arguments monomials : simpl never.
Arguments psi_count : simpl never.
Arguments pack_multiindex : simpl never.

(** ** Reasoning about loops *)

Section loops.
Context {A S : Type}.
Implicit Types (xs : list A) (body : A → S → option S).

Lemma for_each_app xs1 xs2 body (s : S) :
  for_each (xs1 ++ xs2) body s = for_each xs1 body s ≫= for_each xs2 body.
Proof.
  revert s. induction xs1 as [| x xs1 IH]; intros s; simpl; [done |].
  destruct (body x s); simpl; [apply IH | done].
Qed.

(** The invariant rule: [Inv done s] holds of the state [s] reached after the
    iterations [done]. *)
Lemma for_each_invariant (Inv : list A → S → Prop) xs body (s0 : S) :
  Inv [] s0 →
  (∀ done x rest s, xs = done ++ x :: rest → Inv done s →
     ∃ s', body x s = Some s' ∧ Inv (done ++ [x]) s') →
  ∃ s', for_each xs body s0 = Some s' ∧ Inv xs s'.
Proof.
  intros H0 Hstep.
  cut (∀ rest done s, xs = done ++ rest → Inv done s →
         ∃ s', for_each rest body s = Some s' ∧ Inv xs s').
  { intros H. by apply (H xs [] s0). }
  induction rest as [| x rest IH]; intros done s Hxs Hinv; simpl.
  - exists s. split; [done |]. by rewrite Hxs, app_nil_r.
  - destruct (Hstep done x rest s Hxs Hinv) as (s' & -> & Hinv').
    apply (IH (done ++ [x])); [| done]. by rewrite <- app_assoc.
Qed.

(** A loop stops at the first iteration that raises. *)
Lemma for_each_raises xs1 x xs2 body (s s1 : S) :
  for_each xs1 body s = Some s1 → body x s1 = None →
  for_each (xs1 ++ x :: xs2) body s = None.
Proof. intros H1 Hx. rewrite for_each_app, H1. simpl. by rewrite Hx. Qed.

Lemma for_each_ext xs body1 body2 (s : S) :
  (∀ x s, x ∈ xs → body1 x s = body2 x s) →
  for_each xs body1 s = for_each xs body2 s.
Proof.
  revert s. induction xs as [| x xs IH]; intros s H; simpl; [done |].
  rewrite (H x s) by apply list_elem_of_here.
  destruct (body2 x s); [| done]. apply IH. intros y s' Hy. apply H.
  by apply list_elem_of_further.
Qed.

End loops.

Lemma seq_prefix (n : nat) (done : list nat) (x : nat) (rest : list nat) :
  seq 0 n = done ++ x :: rest → done = seq 0 x ∧ x < n ∧ length done = x.
Proof.
  intros H.
  assert (length done < n) as Hlt.
  { apply (f_equal length) in H. rewrite length_seq, length_app in H. simpl in H. lia. }
  assert (x = length done) as ->.
  { assert (seq 0 n !! length done = Some x) as Hx.
    { rewrite H. by rewrite list_lookup_middle. }
    apply lookup_seq in Hx. lia. }
  split_and!; [| done | done].
  assert (done = take (length done) (seq 0 n)) as Hd.
  { rewrite H. by rewrite take_app_length. }
  rewrite Hd at 1. by rewrite take_seq, Nat.min_l by lia.
Qed.

Lemma seq_snoc (x : nat) : seq 0 x ++ [x] = seq 0 (S x).
Proof. by rewrite seq_S. Qed.

(** ** Element-wise kernels *)

Lemma array_set_Some {A : Type} (a : list A) (i : nat) (x : A) :
  i < length a → array_set a i x = Some (<[i := x]> a).
Proof. intros H. unfold array_set. by rewrite bool_decide_eq_true_2. Qed.

Lemma array_set_None {A : Type} (a : list A) (i : nat) (x : A) :
  length a ≤ i → array_set a i x = None.
Proof. intros H. unfold array_set. rewrite bool_decide_eq_false_2; [done | lia]. Qed.

(** Writing the next entry extends the written prefix by one. *)
Lemma insert_written_prefix {A : Type} (ws out : list A) (x : A) :
  length ws < length out →
  <[length ws := x]> (ws ++ drop (length ws) out)
  = (ws ++ [x]) ++ drop (S (length ws)) out.
Proof.
  intros H. rewrite insert_app_r_alt, Nat.sub_diag by done.
  destruct (drop (length ws) out) as [| y l] eqn:Hd.
  { apply (f_equal length) in Hd. rewrite length_drop in Hd. simpl in Hd. lia. }
  simpl. rewrite <- app_assoc. simpl. do 2 f_equal.
  replace (S (length ws)) with (length ws + 1) by lia.
  rewrite <- drop_drop, Hd. done.
Qed.

(** A loop that writes [g i] at every position [i < n] of [out]. *)
Lemma write_loop {A : Type} (g : nat → option A) (n : nat) (out : list A) (ws : list A) :
  length ws = n → n ≤ length out →
  (∀ i, i < n → g i = ws !! i) →
  for_each (range n) (λ i out, x ← g i; array_set out i x) out
  = Some (ws ++ drop n out).
Proof.
  intros Hws Hn Hg.
  destruct (for_each_invariant
    (λ done o, o = take (length done) ws ++ drop (length done) out)
    (range n) (λ i out, x ← g i; array_set out i x) out) as (s' & Hs' & Hinv).
  - done.
  - intros done x rest s Hd ->. apply seq_prefix in Hd as (-> & Hx & Hlen).
    rewrite Hlen.
    destruct (ws !! x) as [w |] eqn:Hw; [| apply lookup_ge_None in Hw; lia].
    rewrite Hg, Hw by done. simpl.
    rewrite array_set_Some by (rewrite length_app, length_take, length_drop; lia).
    eexists. split; [done |]. rewrite seq_snoc, length_seq.
    rewrite (take_S_r ws x w) by done.
    pose proof (insert_written_prefix (take x ws) out w) as Hi.
    rewrite length_take, Nat.min_l in Hi by lia. rewrite Hi by lia. done.
  - rewrite Hs', Hinv. unfold range. rewrite length_seq, <- Hws, take_ge by lia. done.
Qed.

Lemma bounded_search (P : nat → Prop) (n : nat) :
  (∀ j, P j ∨ ¬ P j) → (∃ j, j < n ∧ P j) ∨ (∀ j, j < n → ¬ P j).
Proof.
  intros Hdec. induction n as [| n [(j & Hj & HP) | Hno]].
  - right. intros; lia.
  - left. exists j. split; [lia | done].
  - destruct (Hdec n) as [HP | HnP].
    + left. exists n. split; [lia | done].
    + right. intros j Hj. destruct (decide (j = n)) as [-> | ?]; [done |]. apply Hno. lia.
Qed.

(** The first position at which a decidable property holds. *)
Lemma first_position (P : nat → Prop) (i : nat) :
  (∀ j, P j ∨ ¬ P j) → P i → ∃ i0, i0 ≤ i ∧ P i0 ∧ ∀ j, j < i0 → ¬ P j.
Proof.
  intros Hdec. induction (lt_wf i) as [i _ IH]. intros HP.
  destruct (bounded_search P i Hdec) as [(j & Hj & HPj) | Hno].
  - destruct (IH j Hj HPj) as (i0 & ? & ? & ?). exists i0. split_and!; [lia | done ..].
  - exists i. done.
Qed.

Lemma write_loop_raises {A : Type} (g : nat → option A) (n : nat) (out : list A) :
  (∃ i, i < n ∧ (g i = None ∨ length out ≤ i)) →
  for_each (range n) (λ i out, x ← g i; array_set out i x) out = None.
Proof.
  intros Hex.
  assert (∃ i, i < n ∧ (g i = None ∨ length out ≤ i) ∧
               ∀ j, j < i → is_Some (g j) ∧ j < length out) as (i & Hi & Hbad & Hmin).
  { destruct Hex as (i & Hi & Hb).
    destruct (first_position (λ j, g j = None ∨ length out ≤ j) i) as (i0 & ? & ? & Hmin);
      [| done |].
    - intros j. destruct (g j); [| by left; left].
      destruct (decide (length out ≤ j)); [by left; right |].
      right. intros [? | ?]; [done | lia].
    - exists i0. split_and!; [lia | done |]. intros j Hj. specialize (Hmin j Hj).
      split; [destruct (g j); [done | tauto] | ].
      destruct (decide (j < length out)); [done |]. exfalso. apply Hmin. right. lia. }
  unfold range. replace n with (i + S (n - S i)) by lia.
  rewrite seq_app. simpl.
  assert (∃ ws, length ws = i ∧ ∀ j, j < i → g j = ws !! j) as (ws & Hws & Hg).
  { clear Hbad Hi. induction i as [| i IH].
    - exists []. split; [done |]. intros; lia.
    - destruct IH as (ws & Hws & Hg); [intros; apply Hmin; lia |].
      destruct (Hmin i) as [[w Hw] _]; [lia |].
      exists (ws ++ [w]). split; [rewrite length_app; simpl; lia |].
      intros j Hj. destruct (decide (j = i)) as [-> | ?].
      + rewrite Hw, lookup_app_r, Hws, Nat.sub_diag by lia. done.
      + rewrite lookup_app_l by lia. apply Hg. lia. }
  eapply for_each_raises.
  - apply (write_loop g i out ws); [done | | done].
    destruct i as [| i]; [lia |]. destruct (Hmin i); lia.
  - destruct Hbad as [-> | Hlen]; [done |].
    destruct (g i); simpl; [| done]. apply array_set_None.
    rewrite length_app, length_drop. lia.
Qed.

(** The invariant rule, indexed by the number of iterations done. *)
Lemma for_each_invariant_idx {A St : Type} (Inv : nat → St → Prop) (xs : list A)
    (body : A → St → option St) (s0 : St) :
  Inv 0 s0 →
  (∀ i x s, xs !! i = Some x → Inv i s → ∃ s', body x s = Some s' ∧ Inv (S i) s') →
  ∃ s', for_each xs body s0 = Some s' ∧ Inv (length xs) s'.
Proof.
  intros H0 Hstep.
  apply (for_each_invariant (λ done s, Inv (length done) s)); [done |].
  intros done x rest s Hxs Hinv.
  destruct (Hstep (length done) x s) as (s' & Hs' & Hinv'); [| done |].
  - rewrite Hxs. by rewrite list_lookup_middle.
  - exists s'. split; [done |]. rewrite length_app. simpl.
    by replace (length done + 1) with (S (length done)) by lia.
Qed.

(** A loop that rewrites the array it runs over, one position at a time. *)
Lemma inplace_loop {A : Type} (body : nat → list A → option (list A)) (a ws : list A) :
  length ws = length a →
  (∀ i c s, a !! i = Some c → s !! i = Some c → length s = length a →
     ∃ w, ws !! i = Some w ∧ body i s = Some (<[i := w]> s)) →
  for_each (range (length a)) body a = Some ws.
Proof.
  intros Hlen Hstep.
  destruct (for_each_invariant_idx (λ m s, s = take m ws ++ drop m a)
              (range (length a)) body a) as (s' & Hs' & Hinv).
  - simpl. by rewrite drop_0.
  - intros i x s Hx ->. apply lookup_seq in Hx as [-> Hi]. simpl.
    destruct (a !! i) as [c |] eqn:Hc; [| apply lookup_ge_None in Hc; lia].
    assert (length (take i ws) = i) as Hti by (rewrite length_take; lia).
    destruct (Hstep i c (take i ws ++ drop i a)) as (w & Hw & ->); [done | | |].
    + by rewrite lookup_app_r, Hti, Nat.sub_diag, lookup_drop, Nat.add_0_r by lia.
    + rewrite length_app, length_drop. lia.
    + eexists. split; [done |]. rewrite (take_S_r ws i w) by done.
      pose proof (insert_written_prefix (take i ws) a w) as Hins.
      rewrite Hti in Hins. apply Hins. lia.
  - rewrite Hs', Hinv. unfold range. rewrite length_seq.
    by rewrite take_ge, drop_ge, app_nil_r by lia.
Qed.

(** ** Sums of coefficients *)

Arguments csum_with : simpl never.

Section csum.
Context {A : Type}.
Implicit Types (f g : A → Cx.t) (l : list A).

Lemma csum_with_nil f : csum_with f [] = Cx.zero.
Proof. done. Qed.

Lemma csum_with_cons f x l : csum_with f (x :: l) = (f x + csum_with f l)%cx.
Proof. done. Qed.

Lemma csum_with_app f l1 l2 :
  csum_with f (l1 ++ l2) = (csum_with f l1 + csum_with f l2)%cx.
Proof.
  induction l1 as [| x l1 IH]; simpl; [rewrite csum_with_nil; ring |].
  rewrite !csum_with_cons, IH. ring.
Qed.

Lemma csum_with_ext f g l :
  (∀ x, x ∈ l → f x = g x) → csum_with f l = csum_with g l.
Proof.
  induction l as [| x l IH]; intros H; [done |].
  rewrite !csum_with_cons, (H x) by apply list_elem_of_here.
  rewrite IH; [done |]. intros y Hy. apply H. by apply list_elem_of_further.
Qed.

Lemma csum_with_zero f l : (∀ x, x ∈ l → f x = Cx.zero) → csum_with f l = Cx.zero.
Proof.
  induction l as [| x l IH]; intros H; [done |].
  rewrite csum_with_cons, (H x) by apply list_elem_of_here.
  rewrite IH; [ring |]. intros y Hy. apply H. by apply list_elem_of_further.
Qed.

Lemma csum_with_Permutation f l1 l2 : l1 ≡ₚ l2 → csum_with f l1 = csum_with f l2.
Proof.
  induction 1 as [| x l1 l2 _ IH | x y l | l1 l2 l3 _ IH1 _ IH2].
  - done.
  - by rewrite !csum_with_cons, IH.
  - rewrite !csum_with_cons. ring.
  - congruence.
Qed.

Lemma csum_with_add f g l :
  csum_with (λ x, (f x + g x)%cx) l = (csum_with f l + csum_with g l)%cx.
Proof.
  induction l as [| x l IH]; [rewrite !csum_with_nil; ring |].
  rewrite !csum_with_cons, IH. ring.
Qed.

Lemma csum_with_mul_l (c : Cx.t) f l :
  csum_with (λ x, (c * f x)%cx) l = (c * csum_with f l)%cx.
Proof.
  induction l as [| x l IH]; [rewrite !csum_with_nil; ring |].
  rewrite !csum_with_cons, IH. ring.
Qed.

(** A sum with at most one nonzero term. *)
Lemma csum_with_single `{!EqDecision A} f l (x0 : A) :
  NoDup l → x0 ∈ l → (∀ x, x ∈ l → x ≠ x0 → f x = Cx.zero) →
  csum_with f l = f x0.
Proof.
  induction 1 as [| x l Hx Hnd IH]; intros Hin Hz; [by apply elem_of_nil in Hin |].
  rewrite csum_with_cons. destruct (decide (x = x0)) as [-> | Hne].
  - rewrite csum_with_zero; [ring |]. intros y Hy. apply Hz; [by apply list_elem_of_further |].
    intros ->. done.
  - rewrite (Hz x) by (done || apply list_elem_of_here).
    rewrite IH; [ring | |].
    + apply elem_of_cons in Hin as [-> | ?]; done.
    + intros y Hy. apply Hz. by apply list_elem_of_further.
Qed.

End csum.

Lemma csum_with_swap {A B : Type} (f : A → B → Cx.t) (la : list A) (lb : list B) :
  csum_with (λ x, csum_with (λ y, f x y) lb) la
  = csum_with (λ y, csum_with (λ x, f x y) la) lb.
Proof.
  induction la as [| x la IH].
  - rewrite csum_with_nil. symmetry. by apply csum_with_zero.
  - rewrite csum_with_cons, IH, <- csum_with_add. done.
Qed.

(** ** Per-thread accumulation buffers *)

Lemma py_index_nat (n j : nat) : j < n → py_index n (Z.of_nat j) = Some j.
Proof.
  intros H. unfold py_index. rewrite bool_decide_eq_true_2 by lia.
  by rewrite Nat2Z.id.
Qed.

Lemma entry_insert (a : list Cx.t) (j j' : nat) (x : Cx.t) :
  j < length a →
  entry (<[j := x]> a) j' = if bool_decide (j' = j) then x else entry a j'.
Proof.
  intros Hj. unfold entry. case_bool_decide as E.
  - subst. by rewrite list_lookup_insert_eq.
  - by rewrite list_lookup_insert_ne.
Qed.

Lemma column_sum_insert (scratch : list (list Cx.t)) (tid : nat) (row row' : list Cx.t)
    (j : nat) :
  scratch !! tid = Some row →
  column_sum (<[tid := row']> scratch) j
  = (column_sum scratch j + (entry row' j - entry row j))%cx.
Proof.
  unfold column_sum. revert tid.
  induction scratch as [| r scratch IH]; intros tid Htid; [done |].
  destruct tid as [| tid]; simpl in *.
  - injection Htid as ->. rewrite !csum_with_cons. ring.
  - rewrite !csum_with_cons, (IH tid) by done. ring.
Qed.

(** [scratch[tid, idx] += v] adds [v] to the sum of column [idx]. *)
Lemma array2_add_at_column (n : nat) (scratch : list (list Cx.t)) (tid j : nat)
    (v : Cx.t) :
  shaped n scratch → tid < length scratch → j < n →
  ∃ scratch',
    array2_add_at scratch tid (Z.of_nat j) v = Some scratch'
    ∧ shaped n scratch'
    ∧ length scratch' = length scratch
    ∧ ∀ j', column_sum scratch' j'
            = (column_sum scratch j' + if bool_decide (j' = j) then v else Cx.zero)%cx.
Proof.
  intros Hsh Htid Hj. unfold array2_add_at.
  destruct (scratch !! tid) as [row |] eqn:Hrow; [| apply lookup_ge_None in Hrow; lia].
  assert (length row = n) as Hlen.
  { eapply (proj1 (Forall_lookup _ _) Hsh); done. }
  simpl. rewrite Hlen, py_index_nat by done. simpl.
  destruct (row !! j) as [old |] eqn:Hold; [| apply lookup_ge_None in Hold; lia].
  simpl. eexists. split_and!; [done | | by rewrite length_insert |].
  - apply Forall_insert; [done |]. by rewrite length_insert.
  - intros j'. rewrite (column_sum_insert scratch tid row) by done.
    rewrite entry_insert by lia. f_equal. case_bool_decide as E.
    + subst. unfold entry. rewrite Hold. simpl. ring.
    + ring.
Qed.

Lemma shaped_zeros (nT n : nat) : shaped n (replicate nT (np_zeros n)).
Proof.
  apply Forall_replicate. unfold np_zeros. by rewrite length_replicate.
Qed.

Lemma entry_zeros (n j : nat) : entry (np_zeros n) j = Cx.zero.
Proof.
  unfold entry, np_zeros.
  destruct (replicate n Cx.zero !! j) as [x |] eqn:Hx; [| done].
  by apply lookup_replicate in Hx as [-> _].
Qed.

Lemma column_sum_zeros (nT n j : nat) :
  column_sum (replicate nT (np_zeros n)) j = Cx.zero.
Proof.
  unfold column_sum. apply csum_with_zero.
  intros row [-> _]%elem_of_replicate. apply entry_zeros.
Qed.

Lemma np_iop_same_length (op : Cx.t → Cx.t → Cx.t) (r t : list Cx.t) :
  length t = length r → np_iop op r t = Some (zip_with op r t).
Proof. intros H. unfold np_iop. by rewrite bool_decide_eq_true_2. Qed.

(** The reduction [for tid in range(nT): r += scratch[tid]]. *)
Lemma reduce_rows (n : nat) (scratch : list (list Cx.t)) :
  shaped n scratch →
  ∃ r,
    for_each (range (length scratch))
      (λ tid r, row ← scratch !! tid; np_iadd r row) (np_zeros n) = Some r
    ∧ length r = n
    ∧ ∀ j, j < n → r !! j = Some (column_sum scratch j).
Proof.
  intros Hsh.
  destruct (for_each_invariant_idx
    (λ m r, length r = n ∧ ∀ j, j < n → r !! j = Some (column_sum (take m scratch) j))
    (range (length scratch))
    (λ tid r, row ← scratch !! tid; np_iadd r row) (np_zeros n))
    as (r & Hr & Hlen & Hsum).
  - split; [unfold np_zeros; by rewrite length_replicate |].
    intros j Hj. unfold np_zeros. by rewrite lookup_replicate_2.
  - intros m tid r Htid [Hlen Hsum]. apply lookup_seq in Htid as [-> Hm]. simpl.
    destruct (scratch !! m) as [row |] eqn:Hrow; [| apply lookup_ge_None in Hrow; lia].
    assert (length row = n) as Hrl.
    { eapply (proj1 (Forall_lookup _ _) Hsh); done. }
    simpl. unfold np_iadd. rewrite np_iop_same_length by lia.
    eexists. split; [done |]. split; [rewrite length_zip_with; lia |].
    intros j Hj.
    destruct (row !! j) as [x |] eqn:Hx; [| apply lookup_ge_None in Hx; lia].
    rewrite lookup_zip_with, (Hsum j Hj), Hx. simpl. f_equal. rewrite (take_S_r scratch m row) by done.
    unfold column_sum. rewrite csum_with_app, csum_with_cons, csum_with_nil.
    cbv beta. replace (entry row j) with x by (unfold entry; by rewrite Hx). ring.
  - exists r. split_and!; [done | done |]. intros j Hj. rewrite (Hsum j Hj).
    unfold range. rewrite length_seq. by rewrite firstn_all.
Qed.

(** A loop whose iterations each add a contribution to a measure of the
    state: the contributions add up. *)
Lemma additive_loop {A St : Type} (Shape : St → Prop) (measure : St → nat → Cx.t)
    (contrib : A → nat → Cx.t) (xs : list A) (body : A → St → option St) (s0 : St) :
  Shape s0 →
  (∀ x s, x ∈ xs → Shape s →
     ∃ s', body x s = Some s' ∧ Shape s'
           ∧ ∀ j, measure s' j = (measure s j + contrib x j)%cx) →
  ∃ s', for_each xs body s0 = Some s' ∧ Shape s'
        ∧ ∀ j, measure s' j = (measure s0 j + csum_with (λ x, contrib x j) xs)%cx.
Proof.
  intros H0 Hstep.
  destruct (for_each_invariant
    (λ done s, Shape s
       ∧ ∀ j, measure s j = (measure s0 j + csum_with (λ x, contrib x j) done)%cx)
    xs body s0) as (s' & Hs' & Hsh & Hm).
  - split; [done |]. intros j. rewrite csum_with_nil. ring.
  - intros done x rest s Hxs [Hsh Hm].
    destruct (Hstep x s) as (s' & Hb & Hsh' & Hm'); [| done |].
    { rewrite Hxs. apply elem_of_app. right. apply list_elem_of_here. }
    exists s'. split_and!; [done | done |]. intros j.
    rewrite Hm', Hm, csum_with_app, csum_with_cons, csum_with_nil. ring.
  - by exists s'.
Qed.

(** ** [_poly_mul] *)

Lemma sum_list_tuple_add (ki kj : list nat) :
  length ki = length kj → sum_list (tuple_add ki kj) = sum_list ki + sum_list kj.
Proof.
  revert kj. induction ki as [| a ki IH]; intros [| b kj] Hl; try done.
  simpl in *. rewrite IH by lia. lia.
Qed.

Lemma tuple_add_monomials (a b : nat) (ki kj : list nat) :
  ki ∈ monomials N_VARS a → kj ∈ monomials N_VARS b →
  tuple_add ki kj ∈ monomials N_VARS (a + b).
Proof.
  intros [Hli Hsi]%elem_of_monomials [Hlj Hsj]%elem_of_monomials.
  apply elem_of_monomials. split.
  - unfold tuple_add. rewrite length_zip_with. lia.
  - rewrite sum_list_tuple_add by lia. lia.
Qed.

Lemma tuple_add_comm (ki kj : list nat) : tuple_add ki kj = tuple_add kj ki.
Proof.
  unfold tuple_add. revert kj. induction ki as [| a ki IH]; intros [| b kj]; try done.
  simpl. rewrite IH. f_equal. lia.
Qed.

Lemma add_exponents_result (ki kj : list nat) :
  length ki = N_VARS → length kj = N_VARS →
  add_exponents ki kj = Some (tuple_add ki kj).
Proof.
  intros Hi Hj.
  destruct ki as [| a0 [| a1 [| a2 [| a3 [| a4 [| a5 [| ? ?]]]]]]]; try done.
  destruct kj as [| b0 [| b1 [| b2 [| b3 [| b4 [| b5 [| ? ?]]]]]]]; try done.
Qed.

(** The position of a tuple of the enumeration. *)
Lemma monomials_position (d : nat) (k : list nat) :
  k ∈ monomials N_VARS d → ∃ pos, monomials N_VARS d !! pos = Some k.
Proof. intros H. by apply list_elem_of_lookup_1. Qed.

Lemma monomials_lookup_inj (d i j : nat) (k : list nat) :
  monomials N_VARS d !! i = Some k → monomials N_VARS d !! j = Some k → i = j.
Proof. apply NoDup_lookup, monomials_NoDup. Qed.

Lemma prange_elem (sch : Sched) (n i : nat) : i ∈ prange sch n → i < n.
Proof. rewrite (prange_perm sch n). intros ?%elem_of_seq. lia. Qed.

Section poly_mul.
Context (max_degree : nat).
Hypothesis max_degree_small : max_degree < 64.
Local Abbreviation psi := (init_psi_table max_degree).
Local Abbreviation clmo := (init_clmo max_degree).
Local Abbreviation encode_dict_list := (_create_encode_dict_from_clmo (init_clmo max_degree)).
Local Abbreviation column_term := (column_term (init_clmo max_degree)).

Lemma column_term_hit (p : list Cx.t) (deg_p : nat) (q : list Cx.t) (deg_q : nat)
    (i j pos col : nat) (pi qj : Cx.t) (ki kj : list nat) :
  deg_p ≤ max_degree → deg_q ≤ max_degree →
  p !! i = Some pi → q !! j = Some qj →
  monomials N_VARS deg_p !! i = Some ki → monomials N_VARS deg_q !! j = Some kj →
  monomials N_VARS (deg_p + deg_q) !! pos = Some (tuple_add ki kj) →
  column_term p deg_p q deg_q i j col
  = if bool_decide (col = pos) then (pi * qj)%cx else Cx.zero.
Proof.
  intros Hdp Hdq Hpi Hqj Hki Hkj Hpos. unfold column_term, pair_term.
  rewrite Hpi, Hqj. rewrite !decode_init, Hki, Hkj by done.
  destruct (monomials N_VARS (deg_p + deg_q) !! col) as [k |] eqn:Hk.
  - case_bool_decide as E1; case_bool_decide as E2; try done.
    + subst k. exfalso. apply E2. by eapply monomials_lookup_inj.
    + subst col. congruence.
  - rewrite bool_decide_eq_false_2; [done |]. intros ->. congruence.
Qed.

Lemma column_term_zero_l (p : list Cx.t) (deg_p : nat) (q : list Cx.t) (deg_q : nat)
    (i j col : nat) :
  p !! i = Some Cx.zero → column_term p deg_p q deg_q i j col = Cx.zero.
Proof.
  intros Hpi. unfold column_term, pair_term. rewrite Hpi.
  repeat case_match; try done; ring.
Qed.

Lemma column_term_zero_r (p : list Cx.t) (deg_p : nat) (q : list Cx.t) (deg_q : nat)
    (i j col : nat) :
  q !! j = Some Cx.zero → column_term p deg_p q deg_q i j col = Cx.zero.
Proof.
  intros Hqj. unfold column_term, pair_term. rewrite Hqj.
  repeat case_match; try done; ring.
Qed.

(** The product is the array of the convolution sums. *)
Lemma poly_mul_result (sch : Sched) (p : list Cx.t) (deg_p : nat) (q : list Cx.t)
    (deg_q : nat) :
  deg_p + deg_q ≤ max_degree →
  length p ≤ psi_count N_VARS deg_p → length q ≤ psi_count N_VARS deg_q →
  ∃ r,
    _poly_mul sch p deg_p q deg_q psi clmo encode_dict_list = Some r
    ∧ length r = psi_count N_VARS (deg_p + deg_q)
    ∧ ∀ idx k, monomials N_VARS (deg_p + deg_q) !! idx = Some k →
        r !! idx = Some (convolution clmo p deg_p q deg_q k).
Proof.
  intros Hdeg Hp Hq. unfold _poly_mul.
  rewrite psi_at_init by (unfold N_VARS; lia). simpl.
  set (n := psi_count N_VARS (deg_p + deg_q)).
  set (nT := get_num_threads sch).
  pose (Shape := λ s : list (list Cx.t), shaped n s ∧ length s = nT).
  lazymatch goal with
  | |- context [for_each (prange sch (length p)) ?body ?s0] =>
      destruct (additive_loop Shape column_sum
                  (λ i col, csum_with (λ j, column_term p deg_p q deg_q i j col)
                              (range (length q)))
                  (prange sch (length p)) body s0) as (s' & -> & [Hsh Hlen] & Hsum)
  end.
  { split; [apply shaped_zeros | by rewrite length_replicate]. }
  { intros i s Hi%prange_elem [Hsh Hlen].
    destruct (p !! i) as [pi |] eqn:Hpi; [| apply lookup_ge_None in Hpi; lia].
    simpl. destruct (Cx.eqb pi Cx.zero) eqn:Hz.
    { apply Cx_eqb_eq in Hz as ->. exists s. split_and!; [done | done |].
      intros col. rewrite csum_with_zero; [ring |].
      intros j _. by apply column_term_zero_l. }
    pose proof (length_monomials N_VARS deg_p) as Hmp.
    destruct (monomials N_VARS deg_p !! i) as [ki |] eqn:Hki;
      [| apply lookup_ge_None in Hki; lia].
    rewrite decode_init, Hki by lia. simpl.
    apply (additive_loop Shape column_sum
             (λ j col, column_term p deg_p q deg_q i j col)); [done |].
    intros j s1 Hj%elem_of_seq [Hsh1 Hlen1].
    destruct (q !! j) as [qj |] eqn:Hqj; [| apply lookup_ge_None in Hqj; lia].
    simpl. destruct (Cx.eqb qj Cx.zero) eqn:Hzq.
    { apply Cx_eqb_eq in Hzq as ->. exists s1. split_and!; [done | done |].
      intros col. rewrite column_term_zero_r by done. ring. }
    pose proof (length_monomials N_VARS deg_q) as Hmq.
    destruct (monomials N_VARS deg_q !! j) as [kj |] eqn:Hkj;
      [| apply lookup_ge_None in Hkj; lia].
    rewrite decode_init, Hkj by lia. simpl.
    assert (ki ∈ monomials N_VARS deg_p) as Hkin by by eapply list_elem_of_lookup_2.
    assert (kj ∈ monomials N_VARS deg_q) as Hkjn by by eapply list_elem_of_lookup_2.
    rewrite add_exponents_result
      by (eapply elem_of_monomials; done).
    simpl.
    destruct (monomials_position (deg_p + deg_q) (tuple_add ki kj)) as [pos Hpos];
      [by apply tuple_add_monomials |].
    rewrite (encode_init max_degree max_degree_small _ _ pos) by done.
    rewrite bool_decide_eq_true_2 by lia.
    destruct (array2_add_at_column n s1 (get_thread_id sch i) pos (pi * qj)%cx)
      as (s2 & -> & Hsh2 & Hlen2 & Hcol); [done | | |].
    { rewrite Hlen1. apply thread_id_lt. }
    { apply lookup_lt_Some in Hpos. by rewrite length_monomials in Hpos. }
    exists s2. split_and!; [done | split; [done | congruence] |].
    intros col. rewrite Hcol. f_equal. symmetry.
    eapply column_term_hit; done || lia. }
  simpl. destruct (reduce_rows n s' Hsh) as (r & Hr & Hrl & Hrj).
  rewrite Hlen in Hr. exists r. split_and!; [done | done |].
  intros idx k Hk.
  assert (idx < n) as Hidx.
  { apply lookup_lt_Some in Hk. by rewrite length_monomials in Hk. }
  rewrite (Hrj idx Hidx), Hsum, column_sum_zeros. f_equal.
  rewrite (csum_with_Permutation _ _ _ (prange_perm sch (length p))).
  unfold convolution, column_term. rewrite Hk.
  replace (0 + csum_with (λ x, csum_with (λ j, pair_term clmo p deg_p q deg_q k x j)
                                (range (length q))) (seq 0 (length p)))%cx
    with (csum_with (λ x, csum_with (λ j, pair_term clmo p deg_p q deg_q k x j)
                                (range (length q))) (seq 0 (length p))) by ring.
  done.
Qed.

End poly_mul.

Lemma pair_term_comm (clmo : Clmo) (p : list Cx.t) (deg_p : nat) (q : list Cx.t)
    (deg_q : nat) (k : list nat) (i j : nat) :
  pair_term clmo p deg_p q deg_q k i j = pair_term clmo q deg_q p deg_p k j i.
Proof.
  unfold pair_term.
  destruct (p !! i), (q !! j), (decode_multiindex i deg_p clmo),
    (decode_multiindex j deg_q clmo); try done.
  rewrite (tuple_add_comm l0 l). case_bool_decide; [ring | done].
Qed.

Lemma convolution_comm (clmo : Clmo) (p : list Cx.t) (deg_p : nat) (q : list Cx.t)
    (deg_q : nat) (k : list nat) :
  convolution clmo p deg_p q deg_q k = convolution clmo q deg_q p deg_p k.
Proof.
  unfold convolution. rewrite csum_with_swap.
  apply csum_with_ext. intros j _. apply csum_with_ext. intros i _.
  apply pair_term_comm.
Qed.

(** Two arrays over the enumeration of one degree with the same coefficients
    are equal. *)
Lemma homogeneous_ext (d : nat) (a b : list Cx.t) :
  homogeneous d a → homogeneous d b →
  (∀ idx k, monomials N_VARS d !! idx = Some k → a !! idx = b !! idx) →
  a = b.
Proof.
  unfold homogeneous. intros Ha Hb Hab. apply list_eq. intros idx.
  destruct (monomials N_VARS d !! idx) as [k |] eqn:Hk; [by eapply Hab |].
  apply lookup_ge_None in Hk. rewrite length_monomials in Hk.
  by rewrite !(proj2 (lookup_ge_None _ _)) by lia.
Qed.

(** [_poly_mul] is commutative. *)
Lemma poly_mul_comm (max_degree : nat) (sch : Sched) (p : list Cx.t) (deg_p : nat)
    (q : list Cx.t) (deg_q : nat) :
  max_degree < 64 → deg_p + deg_q ≤ max_degree →
  length p ≤ psi_count N_VARS deg_p → length q ≤ psi_count N_VARS deg_q →
  _poly_mul sch p deg_p q deg_q (init_psi_table max_degree) (init_clmo max_degree)
    (_create_encode_dict_from_clmo (init_clmo max_degree))
  = _poly_mul sch q deg_q p deg_p (init_psi_table max_degree) (init_clmo max_degree)
      (_create_encode_dict_from_clmo (init_clmo max_degree)).
Proof.
  intros Hsmall Hdeg Hp Hq.
  destruct (poly_mul_result max_degree Hsmall sch p deg_p q deg_q)
    as (r1 & -> & Hl1 & Hr1); [done .. |].
  destruct (poly_mul_result max_degree Hsmall sch q deg_q p deg_p)
    as (r2 & -> & Hl2 & Hr2); [lia | done .. |].
  f_equal. apply (homogeneous_ext (deg_p + deg_q)); [done | |].
  - unfold homogeneous. by rewrite Hl2, Nat.add_comm.
  - intros idx k Hk. rewrite (Hr1 idx k Hk), (Hr2 idx k).
    + by rewrite convolution_comm.
    + by rewrite Nat.add_comm.
Qed.

(** ** [_poly_diff] and [_poly_integrate] *)

Lemma sum_list_insert (k : list nat) (var e x : nat) :
  k !! var = Some e → sum_list (<[var := x]> k) + e = sum_list k + x.
Proof.
  revert var. induction k as [| a k IH]; intros [| var] H; simplify_eq/=; [lia |].
  specialize (IH var H). lia.
Qed.

Lemma monomials_lower (d' var e : nat) (ki : list nat) :
  ki ∈ monomials N_VARS (S d') → ki !! var = Some e → e ≠ 0 →
  <[var := e - 1]> ki ∈ monomials N_VARS d'.
Proof.
  intros [Hl Hs]%elem_of_monomials He Hne. apply elem_of_monomials.
  split; [by rewrite length_insert |].
  pose proof (sum_list_insert ki var e (e - 1) He). lia.
Qed.

Lemma monomials_raise (d var e : nat) (k : list nat) :
  k ∈ monomials N_VARS d → k !! var = Some e →
  <[var := e + 1]> k ∈ monomials N_VARS (d + 1).
Proof.
  intros [Hl Hs]%elem_of_monomials He. apply elem_of_monomials.
  split; [by rewrite length_insert |].
  pose proof (sum_list_insert k var e (e + 1) He). lia.
Qed.

Lemma monomials_var (d var : nat) (k : list nat) :
  k ∈ monomials N_VARS d → var < N_VARS → ∃ e, k !! var = Some e.
Proof.
  intros [Hl _]%elem_of_monomials Hv.
  destruct (k !! var) eqn:E; [by eexists |]. apply lookup_ge_None in E. lia.
Qed.

Lemma insert_insert_back (k : list nat) (var e x : nat) :
  k !! var = Some e → <[var := e]> (<[var := x]> k) = k.
Proof. intros H. rewrite list_insert_insert_eq. by apply list_insert_id. Qed.

Lemma array_add_at_entry (n : nat) (a : list Cx.t) (j : nat) (v : Cx.t) :
  length a = n → j < n →
  ∃ a', array_add_at a (Z.of_nat j) v = Some a'
        ∧ length a' = n
        ∧ ∀ j', entry a' j'
                = (entry a j' + if bool_decide (j' = j) then v else Cx.zero)%cx.
Proof.
  intros Hlen Hj. unfold array_add_at. rewrite Hlen, py_index_nat by done. simpl.
  destruct (a !! j) as [old |] eqn:Hold; [| apply lookup_ge_None in Hold; lia].
  simpl. eexists. split_and!; [done | by rewrite length_insert |].
  intros j'. rewrite entry_insert by lia. case_bool_decide as E.
  - subst. unfold entry. rewrite Hold. done.
  - ring.
Qed.

Section poly_diff.
Context (max_degree : nat).
Hypothesis max_degree_small : max_degree < 64.
Local Abbreviation psi := (init_psi_table max_degree).
Local Abbreviation clmo := (init_clmo max_degree).
Local Abbreviation encode_dict_list := (_create_encode_dict_from_clmo (init_clmo max_degree)).

(** The derivative, as sums over the positions of [p]. *)
Lemma poly_diff_sums (sch : Sched) (p : list Cx.t) (var d' : nat) :
  S d' ≤ max_degree → var < N_VARS → length p ≤ psi_count N_VARS (S d') →
  ∃ dp,
    _poly_diff sch p var (S d') psi clmo encode_dict_list = Some dp
    ∧ length dp = psi_count N_VARS d'
    ∧ ∀ col, col < psi_count N_VARS d' →
        dp !! col = Some (csum_with (λ i, diff_term p var d' i col) (seq 0 (length p))).
Proof.
  intros Hdeg Hvar Hp. unfold _poly_diff.
  rewrite bool_decide_eq_false_2 by lia.
  replace (S d' - 1) with d' by lia.
  rewrite psi_at_init by (unfold N_VARS; lia). simpl.
  set (n := psi_count N_VARS d').
  set (nT := get_num_threads sch).
  pose (Shape := λ s : list (list Cx.t), shaped n s ∧ length s = nT).
  lazymatch goal with
  | |- context [for_each (prange sch (length p)) ?body ?s0] =>
      destruct (additive_loop Shape column_sum (λ i col, diff_term p var d' i col)
                  (prange sch (length p)) body s0) as (s' & -> & [Hsh Hlen] & Hsum)
  end.
  { split; [apply shaped_zeros | by rewrite length_replicate]. }
  { intros i s Hi%prange_elem [Hsh Hlen]. unfold diff_term.
    destruct (p !! i) as [c |] eqn:Hc; [| apply lookup_ge_None in Hc; lia].
    simpl. destruct (Cx.eqb c Cx.zero) eqn:Hz.
    { apply Cx_eqb_eq in Hz as ->. exists s. split_and!; [done | done |].
      intros col. repeat case_match; ring. }
    pose proof (length_monomials N_VARS (S d')) as Hm.
    destruct (monomials N_VARS (S d') !! i) as [ki |] eqn:Hki;
      [| apply lookup_ge_None in Hki; lia].
    assert (ki ∈ monomials N_VARS (S d')) as Hkin by by eapply list_elem_of_lookup_2.
    unfold fill_exponents. rewrite decode_init, Hki by lia. simpl.
    destruct (monomials_var _ var ki Hkin Hvar) as [e He]. rewrite He. simpl.
    case_bool_decide as He0.
    { subst e. exists s. split_and!; [done | done |].
      intros col. rewrite bool_decide_eq_false_2 by (intros [? ?]; done). ring. }
    rewrite array_set_Some
      by (apply elem_of_monomials in Hkin as [-> _]; done).
    simpl.
    destruct (monomials_position d' (<[var := e - 1]> ki)) as [pos Hpos];
      [by apply monomials_lower |].
    rewrite (encode_init max_degree max_degree_small _ _ pos) by (done || lia).
    rewrite bool_decide_eq_true_2 by lia.
    destruct (array2_add_at_column n s (get_thread_id sch i) pos (c * Cx.of_nat e)%cx)
      as (s2 & -> & Hsh2 & Hlen2 & Hcol); [done | | |].
    { rewrite Hlen. apply thread_id_lt. }
    { apply lookup_lt_Some in Hpos. by rewrite length_monomials in Hpos. }
    exists s2. split_and!; [done | split; [done | congruence] |].
    intros col. rewrite Hcol. f_equal.
    case_bool_decide as E1; case_bool_decide as E2; try done.
    - subst col. exfalso. apply E2. done.
    - exfalso. apply E1. destruct E2 as [_ E2]. by eapply monomials_lookup_inj. }
  simpl. destruct (reduce_rows n s' Hsh) as (r & Hr & Hrl & Hrj).
  rewrite Hlen in Hr. exists r. split_and!; [done | done |].
  intros col Hcol. rewrite (Hrj col Hcol), Hsum, column_sum_zeros. f_equal.
  rewrite (csum_with_Permutation _ _ _ (prange_perm sch (length p))). ring.
Qed.

(** The derivative, coefficient by coefficient: the coefficient at [k] is
    [(k[var] + 1)] times the coefficient of [p] at [k] with [k[var]] raised
    by one. *)
Lemma poly_diff_result (sch : Sched) (p : list Cx.t) (var d' : nat) :
  S d' ≤ max_degree → var < N_VARS → homogeneous (S d') p →
  ∃ dp,
    _poly_diff sch p var (S d') psi clmo encode_dict_list = Some dp
    ∧ homogeneous d' dp
    ∧ ∀ idx k e i0 c,
        monomials N_VARS d' !! idx = Some k → k !! var = Some e →
        monomials N_VARS (S d') !! i0 = Some (<[var := e + 1]> k) →
        p !! i0 = Some c →
        dp !! idx = Some (c * Cx.of_nat (e + 1))%cx.
Proof.
  intros Hdeg Hvar Hp. unfold homogeneous in Hp.
  destruct (poly_diff_sums sch p var d') as (dp & Hdp & Hlen & Hsum); [done | done | lia |].
  exists dp. split_and!; [done | done |].
  intros idx k e i0 c Hk He Hi0 Hc.
  assert (idx < psi_count N_VARS d') as Hidx.
  { apply lookup_lt_Some in Hk. by rewrite length_monomials in Hk. }
  assert (var < length k) as Hvk by by eapply lookup_lt_Some.
  rewrite (Hsum idx Hidx). f_equal.
  rewrite (csum_with_single _ _ i0).
  - unfold diff_term. rewrite Hc, Hi0, list_lookup_insert_eq by done.
    replace (e + 1 - 1) with e by lia.
    rewrite list_insert_insert_eq, (list_insert_id k var e) by done.
    rewrite bool_decide_eq_true_2; [done |]. split; [lia | done].
  - apply NoDup_seq.
  - apply elem_of_seq. apply lookup_lt_Some in Hc. lia.
  - intros i _ Hne. unfold diff_term.
    destruct (p !! i) as [ci |]; [| done].
    destruct (monomials N_VARS (S d') !! i) as [ki |] eqn:Hki; [| done].
    destruct (ki !! var) as [e' |] eqn:He'; [| done].
    rewrite bool_decide_eq_false_2; [done |]. intros [Hne0 Hcol].
    apply Hne. rewrite Hk in Hcol. injection Hcol as ->.
    apply (monomials_lookup_inj (S d') i i0 ki); [done |].
    rewrite Hi0. f_equal.
    rewrite list_lookup_insert_eq in He by (rewrite length_insert in Hvk; done).
    injection He as <-. replace (e' - 1 + 1) with e' by lia.
    by rewrite list_insert_insert_eq, list_insert_id.
Qed.

(** The integral, as sums over the positions of [p]. *)
Lemma poly_integrate_sums (p : list Cx.t) (var d : nat) :
  d + 1 ≤ max_degree → var < N_VARS → length p ≤ psi_count N_VARS d →
  ∃ ip,
    _poly_integrate p var d psi clmo encode_dict_list = Some ip
    ∧ length ip = psi_count N_VARS (d + 1)
    ∧ ∀ col, col < psi_count N_VARS (d + 1) →
        ip !! col
        = Some (csum_with (λ i, integrate_term p var d i col) (seq 0 (length p))).
Proof.
  intros Hdeg Hvar Hp. unfold _poly_integrate.
  rewrite psi_at_init by (unfold N_VARS; lia). simpl.
  set (n := psi_count N_VARS (d + 1)).
  lazymatch goal with
  | |- context [for_each (range (length p)) ?body ?s0] =>
      destruct (additive_loop (λ a : list Cx.t, length a = n) entry
                  (λ i col, integrate_term p var d i col)
                  (range (length p)) body s0) as (ip & -> & Hlen & Hsum)
  end.
  { unfold np_zeros. by rewrite length_replicate. }
  { intros i a Hi%elem_of_seq Hlen. unfold integrate_term.
    destruct (p !! i) as [c |] eqn:Hc; [| apply lookup_ge_None in Hc; lia].
    simpl. destruct (Cx.eqb c Cx.zero) eqn:Hz.
    { apply Cx_eqb_eq in Hz as ->. exists a. split_and!; [done | done |].
      intros col. unfold Cx.div. repeat case_match; ring. }
    pose proof (length_monomials N_VARS d) as Hm.
    destruct (monomials N_VARS d !! i) as [ki |] eqn:Hki;
      [| apply lookup_ge_None in Hki; lia].
    assert (ki ∈ monomials N_VARS d) as Hkin by by eapply list_elem_of_lookup_2.
    unfold fill_exponents. rewrite decode_init, Hki by lia. simpl.
    destruct (monomials_var _ var ki Hkin Hvar) as [e He]. rewrite He. simpl.
    rewrite array_set_Some
      by (apply elem_of_monomials in Hkin as [-> _]; done).
    simpl.
    destruct (monomials_position (d + 1) (<[var := e + 1]> ki)) as [pos Hpos];
      [by apply monomials_raise |].
    rewrite (encode_init max_degree max_degree_small _ _ pos) by (done || lia).
    rewrite bool_decide_eq_true_2 by lia.
    destruct (array_add_at_entry n a pos (c / Cx.of_nat (e + 1))%cx)
      as (a' & -> & Hlen' & Hent); [done | |].
    { apply lookup_lt_Some in Hpos. by rewrite length_monomials in Hpos. }
    exists a'. split_and!; [done | done |].
    intros col. rewrite Hent. f_equal.
    case_bool_decide as E1; case_bool_decide as E2; try done.
    - subst col. exfalso. apply E2. done.
    - exfalso. apply E1. by eapply monomials_lookup_inj. }
  exists ip. split_and!; [done | done |].
  intros col Hcol.
  assert (ip !! col = Some (entry ip col)) as ->.
  { unfold entry. destruct (ip !! col) eqn:E; [done |].
    apply lookup_ge_None in E. lia. }
  rewrite Hsum, entry_zeros. f_equal. unfold range. ring.
Qed.

(** The integral, coefficient by coefficient. *)
Lemma poly_integrate_result (p : list Cx.t) (var d : nat) :
  d + 1 ≤ max_degree → var < N_VARS → homogeneous d p →
  ∃ ip,
    _poly_integrate p var d psi clmo encode_dict_list = Some ip
    ∧ homogeneous (d + 1) ip
    ∧ (∀ i k e c idx,
         monomials N_VARS d !! i = Some k → k !! var = Some e → p !! i = Some c →
         monomials N_VARS (d + 1) !! idx = Some (<[var := e + 1]> k) →
         ip !! idx = Some (c / Cx.of_nat (e + 1))%cx)
    ∧ (∀ idx k,
         monomials N_VARS (d + 1) !! idx = Some k → k !! var = Some 0 →
         ip !! idx = Some Cx.zero).
Proof.
  intros Hdeg Hvar Hp. unfold homogeneous in Hp.
  destruct (poly_integrate_sums p var d) as (ip & Hip & Hlen & Hsum); [done | done | lia |].
  exists ip. split_and!; [done | done | |].
  - intros i k e c idx Hk He Hc Hidx.
    assert (idx < psi_count N_VARS (d + 1)) as Hlt.
    { apply lookup_lt_Some in Hidx. by rewrite length_monomials in Hidx. }
    rewrite (Hsum idx Hlt). f_equal.
    rewrite (csum_with_single _ _ i).
    + unfold integrate_term. rewrite Hc, Hk, He.
      by rewrite bool_decide_eq_true_2.
    + apply NoDup_seq.
    + apply elem_of_seq. apply lookup_lt_Some in Hc. lia.
    + intros i' _ Hne. unfold integrate_term.
      destruct (p !! i') as [ci |]; [| done].
      destruct (monomials N_VARS d !! i') as [ki |] eqn:Hki; [| done].
      destruct (ki !! var) as [e' |] eqn:He'; [| done].
      rewrite bool_decide_eq_false_2; [done |]. intros Hcol.
      apply Hne. rewrite Hidx in Hcol. injection Hcol as Hcol.
      apply (monomials_lookup_inj d i' i ki); [done |]. rewrite Hk. f_equal.
      assert (e = e') as <-.
      { apply (f_equal (λ l, l !! var)) in Hcol.
        rewrite !list_lookup_insert_eq in Hcol by by eapply lookup_lt_Some.
        injection Hcol. lia. }
      apply (f_equal (λ l, <[var := e]> l)) in Hcol.
      by rewrite !list_insert_insert_eq, !list_insert_id in Hcol.
  - intros idx k Hk Hk0.
    assert (idx < psi_count N_VARS (d + 1)) as Hlt.
    { apply lookup_lt_Some in Hk. by rewrite length_monomials in Hk. }
    rewrite (Hsum idx Hlt). f_equal. apply csum_with_zero. intros i _.
    unfold integrate_term.
    destruct (p !! i) as [ci |]; [| done].
    destruct (monomials N_VARS d !! i) as [ki |] eqn:Hki; [| done].
    destruct (ki !! var) as [e' |] eqn:He'; [| done].
    rewrite bool_decide_eq_false_2; [done |]. rewrite Hk. intros [= ->].
    rewrite list_lookup_insert_eq in Hk0 by by eapply lookup_lt_Some.
    injection Hk0. lia.
Qed.

End poly_diff.

(** ** [_poly_poisson] *)

Lemma for_each_cons {A St : Type} (x : A) (xs : list A) (body : A → St → option St)
    (s : St) :
  for_each (x :: xs) body s = body x s ≫= for_each xs body.
Proof. simpl. by destruct (body x s). Qed.

Lemma bracket_step_opp (r t1 t2 : list Cx.t) :
  bracket_step (Cx.opp <$> r) t2 t1 = Cx.opp <$> bracket_step r t1 t2.
Proof.
  unfold bracket_step. revert t1 t2.
  induction r as [| x r IH]; intros t1 t2; [done |].
  destruct t1 as [| y1 t1], t2 as [| y2 t2]; csimpl; try done.
  rewrite IH. f_equal. ring.
Qed.

Lemma bracket_step_length (n : nat) (r t1 t2 : list Cx.t) :
  length r = n → length t1 = n → length t2 = n → length (bracket_step r t1 t2) = n.
Proof. intros. unfold bracket_step. rewrite !length_zip_with. lia. Qed.

Lemma bracket_step_lookup (r t1 t2 : list Cx.t) (idx : nat) (x y1 y2 : Cx.t) :
  r !! idx = Some x → t1 !! idx = Some y1 → t2 !! idx = Some y2 →
  bracket_step r t1 t2 !! idx = Some (x + y1 - y2)%cx.
Proof.
  intros Hr H1 H2. unfold bracket_step.
  rewrite !lookup_zip_with, Hr. simpl. rewrite H1. simpl. by rewrite H2.
Qed.

Lemma opp_zeros (n : nat) : Cx.opp <$> np_zeros n = np_zeros n.
Proof.
  unfold np_zeros. rewrite fmap_replicate. f_equal.
Qed.

(** The products of derivatives exist and are homogeneous of degree
    [deg_p + deg_q - 2]. *)
Lemma poisson_terms_exist (max_degree : nat) (sch : Sched) (a b : nat)
    (p q : list Cx.t) (m : nat) :
  max_degree < 64 → S a ≤ max_degree → S b ≤ max_degree → a + b ≤ max_degree →
  homogeneous (S a) p → homogeneous (S b) q → m < 3 →
  ∃ t1 t2,
    poisson_term1 sch p (S a) q (S b) (init_psi_table max_degree) (init_clmo max_degree)
      (_create_encode_dict_from_clmo (init_clmo max_degree)) m = Some t1
    ∧ poisson_term2 sch p (S a) q (S b) (init_psi_table max_degree)
        (init_clmo max_degree) (_create_encode_dict_from_clmo (init_clmo max_degree)) m
      = Some t2
    ∧ homogeneous (a + b) t1 ∧ homogeneous (a + b) t2.
Proof.
  intros Hsmall Ha Hb Hab Hp Hq Hm.
  unfold poisson_term1, poisson_term2.
  destruct (poly_diff_result max_degree Hsmall sch p m a)
    as (dpx & -> & Hdpx & _); [done | unfold N_VARS; lia | done |].
  destruct (poly_diff_result max_degree Hsmall sch q (m + 3) b)
    as (dqqp & -> & Hdqqp & _); [done | unfold N_VARS; lia | done |].
  destruct (poly_diff_result max_degree Hsmall sch p (m + 3) a)
    as (dpq & -> & Hdpq & _); [done | unfold N_VARS; lia | done |].
  destruct (poly_diff_result max_degree Hsmall sch q m b)
    as (dqx & -> & Hdqx & _); [done | unfold N_VARS; lia | done |].
  cbn [mbind option_bind].
  replace (S a - 1) with a by lia. replace (S b - 1) with b by lia.
  unfold homogeneous in *.
  destruct (poly_mul_result max_degree Hsmall sch dpx a dqqp b)
    as (t1 & -> & Ht1 & _); [lia .. |].
  destruct (poly_mul_result max_degree Hsmall sch dpq a dqx b)
    as (t2 & -> & Ht2 & _); [lia .. |].
  by exists t1, t2.
Qed.

(** Exchanging the arguments exchanges the two products. *)
Lemma poisson_terms_swap (max_degree : nat) (sch : Sched) (a b : nat)
    (p q : list Cx.t) (m : nat) :
  max_degree < 64 → S a ≤ max_degree → S b ≤ max_degree →
  homogeneous (S a) p → homogeneous (S b) q → m < 3 →
  poisson_term1 sch q (S b) p (S a) (init_psi_table max_degree) (init_clmo max_degree)
    (_create_encode_dict_from_clmo (init_clmo max_degree)) m
  = poisson_term2 sch p (S a) q (S b) (init_psi_table max_degree)
      (init_clmo max_degree) (_create_encode_dict_from_clmo (init_clmo max_degree)) m
  ∧ poisson_term2 sch q (S b) p (S a) (init_psi_table max_degree)
      (init_clmo max_degree) (_create_encode_dict_from_clmo (init_clmo max_degree)) m
    = poisson_term1 sch p (S a) q (S b) (init_psi_table max_degree)
        (init_clmo max_degree) (_create_encode_dict_from_clmo (init_clmo max_degree)) m.
Proof.
  intros Hsmall Ha Hb Hp Hq Hm. unfold poisson_term1, poisson_term2.
  destruct (poly_diff_result max_degree Hsmall sch p m a)
    as (dpx & -> & Hdpx & _); [done | unfold N_VARS; lia | done |].
  destruct (poly_diff_result max_degree Hsmall sch q (m + 3) b)
    as (dqqp & -> & Hdqqp & _); [done | unfold N_VARS; lia | done |].
  destruct (poly_diff_result max_degree Hsmall sch p (m + 3) a)
    as (dpq & -> & Hdpq & _); [done | unfold N_VARS; lia | done |].
  destruct (poly_diff_result max_degree Hsmall sch q m b)
    as (dqx & -> & Hdqx & _); [done | unfold N_VARS; lia | done |].
  cbn [mbind option_bind].
  replace (S a - 1) with a by lia. replace (S b - 1) with b by lia.
  unfold homogeneous in *.
  destruct (decide (a + b ≤ max_degree)) as [Hab | Hab].
  - split; apply poly_mul_comm; lia.
  - unfold _poly_mul. rewrite !psi_at_init_beyond by lia. done.
Qed.

(** The bracket of two polynomials of positive degree is the alternating sum
    of the six products. *)
Lemma poly_poisson_result (max_degree : nat) (sch : Sched) (a b : nat)
    (p q : list Cx.t) (t1 t2 : nat → list Cx.t) :
  max_degree < 64 → a + b ≤ max_degree →
  (∀ m, m < 3 →
     poisson_term1 sch p (S a) q (S b) (init_psi_table max_degree) (init_clmo max_degree)
       (_create_encode_dict_from_clmo (init_clmo max_degree)) m = Some (t1 m)
     ∧ poisson_term2 sch p (S a) q (S b) (init_psi_table max_degree)
         (init_clmo max_degree) (_create_encode_dict_from_clmo (init_clmo max_degree)) m
       = Some (t2 m)
     ∧ homogeneous (a + b) (t1 m) ∧ homogeneous (a + b) (t2 m)) →
  _poly_poisson sch p (S a) q (S b) (init_psi_table max_degree) (init_clmo max_degree)
    (_create_encode_dict_from_clmo (init_clmo max_degree))
  = Some (bracket_step
            (bracket_step
               (bracket_step (np_zeros (psi_count N_VARS (a + b))) (t1 0) (t2 0))
               (t1 1) (t2 1))
            (t1 2) (t2 2)).
Proof.
  intros Hsmall Hab Hterms. unfold _poly_poisson.
  rewrite !bool_decide_eq_false_2 by lia. cbn [orb].
  replace (S a + S b - 2) with (a + b) by lia.
  rewrite !psi_at_init by (unfold N_VARS; lia). cbn [mbind option_bind].
  cbv beta zeta. set (n := psi_count N_VARS (a + b)).
  lazymatch goal with
  | |- for_each _ ?body _ = _ =>
      assert (∀ m r, m < 3 → length r = n →
                body m r = Some (bracket_step r (t1 m) (t2 m))) as Hbody
  end.
  { intros m r Hm Hr. destruct (Hterms m Hm) as (H1 & H2 & Hh1 & Hh2).
    unfold poisson_term1, poisson_term2 in H1, H2. unfold homogeneous in Hh1, Hh2.
    rewrite !bool_decide_eq_true_2 by lia.
    replace (0 `max` (S a - 1)) with (S a - 1) by lia.
    replace (0 `max` (S b - 1)) with (S b - 1) by lia.
    destruct (_poly_diff sch p m (S a) _ _ _) as [dpx |]; [| done].
    destruct (_poly_diff sch q (m + 3) (S b) _ _ _) as [dqqp |]; [| done].
    cbn [mbind option_bind] in H1 |- *. rewrite H1. cbn [mbind option_bind].
    rewrite bool_decide_eq_true_2 by (fold n in Hh1; lia).
    unfold np_iadd. rewrite np_iop_same_length by (fold n in Hh1; lia).
    cbn [mbind option_bind].
    destruct (_poly_diff sch p (m + 3) (S a) _ _ _) as [dpq |]; [| done].
    destruct (_poly_diff sch q m (S b) _ _ _) as [dqx |]; [| done].
    cbn [mbind option_bind] in H2 |- *. rewrite H2. cbn [mbind option_bind].
    fold n in Hh1, Hh2.
    rewrite bool_decide_eq_true_2 by (rewrite length_zip_with; lia).
    unfold np_isub. rewrite np_iop_same_length by (rewrite length_zip_with; lia).
    done. }
  assert (∀ m, m < 3 → length (t1 m) = n ∧ length (t2 m) = n) as Hlens.
  { intros m Hm. destruct (Hterms m Hm) as (_ & _ & Hh1 & Hh2). done. }
  change (range 3) with [0; 1; 2].
  assert (length (np_zeros n) = n) as H0 by (unfold np_zeros; by rewrite length_replicate).
  rewrite for_each_cons, Hbody by (done || lia). cbn [mbind option_bind].
  pose proof (bracket_step_length n _ _ _ H0 (proj1 (Hlens 0 ltac:(lia)))
                (proj2 (Hlens 0 ltac:(lia)))) as H1.
  rewrite for_each_cons, Hbody by (done || lia). cbn [mbind option_bind].
  pose proof (bracket_step_length n _ _ _ H1 (proj1 (Hlens 1 ltac:(lia)))
                (proj2 (Hlens 1 ltac:(lia)))) as H2.
  rewrite for_each_cons, Hbody by (done || lia). done.
Qed.

Lemma poly_poisson_defined (max_degree : nat) (sch : Sched) (a b : nat)
    (p q : list Cx.t) :
  max_degree < 64 → S a ≤ max_degree → S b ≤ max_degree → a + b ≤ max_degree →
  homogeneous (S a) p → homogeneous (S b) q →
  ∃ t1 t2 : nat → list Cx.t,
    (∀ m, m < 3 →
       poisson_term1 sch p (S a) q (S b) (init_psi_table max_degree)
         (init_clmo max_degree) (_create_encode_dict_from_clmo (init_clmo max_degree)) m
       = Some (t1 m)
       ∧ poisson_term2 sch p (S a) q (S b) (init_psi_table max_degree)
           (init_clmo max_degree) (_create_encode_dict_from_clmo (init_clmo max_degree)) m
         = Some (t2 m)
       ∧ homogeneous (a + b) (t1 m) ∧ homogeneous (a + b) (t2 m))
    ∧ _poly_poisson sch p (S a) q (S b) (init_psi_table max_degree)
        (init_clmo max_degree) (_create_encode_dict_from_clmo (init_clmo max_degree))
      = Some (bracket_step
                (bracket_step
                   (bracket_step (np_zeros (psi_count N_VARS (a + b))) (t1 0) (t2 0))
                   (t1 1) (t2 1))
                (t1 2) (t2 2)).
Proof.
  intros Hsmall Ha Hb Hab Hp Hq.
  set (t1 := λ m, default [] (poisson_term1 sch p (S a) q (S b)
                    (init_psi_table max_degree) (init_clmo max_degree)
                    (_create_encode_dict_from_clmo (init_clmo max_degree)) m)).
  set (t2 := λ m, default [] (poisson_term2 sch p (S a) q (S b)
                    (init_psi_table max_degree) (init_clmo max_degree)
                    (_create_encode_dict_from_clmo (init_clmo max_degree)) m)).
  assert (∀ m, m < 3 →
       poisson_term1 sch p (S a) q (S b) (init_psi_table max_degree)
         (init_clmo max_degree) (_create_encode_dict_from_clmo (init_clmo max_degree)) m
       = Some (t1 m)
       ∧ poisson_term2 sch p (S a) q (S b) (init_psi_table max_degree)
           (init_clmo max_degree) (_create_encode_dict_from_clmo (init_clmo max_degree)) m
         = Some (t2 m)
       ∧ homogeneous (a + b) (t1 m) ∧ homogeneous (a + b) (t2 m)) as Hterms.
  { intros m Hm.
    destruct (poisson_terms_exist max_degree sch a b p q m)
      as (x1 & x2 & H1 & H2 & Hh1 & Hh2); [done .. |].
    unfold t1, t2. rewrite H1, H2. done. }
  exists t1, t2. split; [done |]. by apply poly_poisson_result.
Qed.

(** ** The homological equation *)

Lemma exponent_diff_sub (a b : nat) :
  exponent_diff a b = (Cx.of_nat a - Cx.of_nat b)%cx.
Proof.
  unfold exponent_diff, Cx.of_nat, Cx.of_Z, Cx.of_Qc, Cx.sub. simpl.
  apply Cx_eq; simpl; [apply Z2Qc_inj_sub | ring].
Qed.

Lemma Cx_of_nat_0 : Cx.of_nat 0 = Cx.zero.
Proof. apply Cx_eq; [apply Z2Qc_inj_0 | done]. Qed.

Lemma Cx_mul_zero_l (x : Cx.t) : (Cx.zero * x)%cx = Cx.zero.
Proof. ring. Qed.

Lemma Qc_of_Z_square_ge_1 (z : Z) : z ≠ 0%Z → (1 ≤ Qc_of_Z z * Qc_of_Z z)%Qc.
Proof.
  intros Hz. rewrite <- Z2Qc_inj_mul, <- Z2Qc_inj_1.
  apply (proj1 (Z2Qc_inj_le 1 (z * z))).
  assert (z < 0 ∨ 0 < z)%Z as [? | ?] by lia; nia.
Qed.

Section denominators.
Context (lam w1 w2 eps : Qc).
Hypothesis lam_above_eps : (eps * eps < lam * lam)%Qc.

Lemma denominator_defined (k : list nat) :
  length k = N_VARS →
  ∃ denom,
    homological_denominator (Cx.of_Qc lam) (Cx.imag w1) (Cx.imag w2) k = Some denom.
Proof.
  intros Hk.
  destruct k as [| a0 [| a1 [| a2 [| a3 [| a4 [| a5 [| ? ?]]]]]]]; try done.
  by eexists.
Qed.

Lemma denominator_re (k : list nat) (k0 k3 : nat) (denom : Cx.t) :
  homological_denominator (Cx.of_Qc lam) (Cx.imag w1) (Cx.imag w2) k = Some denom →
  k !! 0 = Some k0 → k !! 3 = Some k3 →
  Cx.re denom = (lam * Qc_of_Z (Z.of_nat k3 - Z.of_nat k0))%Qc.
Proof.
  unfold homological_denominator. intros Hd H0 H3. rewrite H0, H3 in Hd. simpl in Hd.
  destruct (k !! 1); [| done]. destruct (k !! 2); [| done].
  destruct (k !! 4); [| done]. destruct (k !! 5); [| done].
  simpl in Hd. injection Hd as <-. simpl. ring.
Qed.

(** With [|lam| > eps], the divisor of a bad term is no resonance. *)
Lemma denominator_not_small (k : list nat) (k0 k3 : nat) (denom : Cx.t) :
  homological_denominator (Cx.of_Qc lam) (Cx.imag w1) (Cx.imag w2) k = Some denom →
  k !! 0 = Some k0 → k !! 3 = Some k3 → k0 ≠ k3 →
  Cx.abs_le denom eps = false ∧ denom ≠ Cx.zero.
Proof.
  intros Hd H0 H3 Hne. pose proof (denominator_re k k0 k3 denom Hd H0 H3) as Hre.
  set (z := (Z.of_nat k3 - Z.of_nat k0)%Z) in *.
  assert (lam * lam ≤ Cx.norm2 denom)%Qc as Hnorm.
  { etrans; [| apply Cx_norm2_re]. rewrite Hre.
    replace (lam * Qc_of_Z z * (lam * Qc_of_Z z))%Qc
      with ((lam * lam) * (Qc_of_Z z * Qc_of_Z z))%Qc by ring.
    rewrite <- (Qcmult_1_r (lam * lam)) at 1.
    apply Qcmult_le_mono_nonneg_l; [apply Qc_square_nonneg |].
    apply Qc_of_Z_square_ge_1. unfold z. lia. }
  assert (eps * eps < Cx.norm2 denom)%Qc as Hlt by by eapply Qclt_le_trans.
  split.
  - unfold Cx.abs_le. apply andb_false_iff. right.
    apply bool_decide_eq_false_2. by apply Qclt_not_le.
  - intros ->. apply Qclt_not_le in Hlt. apply Hlt.
    replace (Cx.norm2 Cx.zero) with 0%Qc by (unfold Cx.norm2; simpl; ring).
    apply Qc_square_nonneg.
Qed.

End denominators.

Section solver.
Context (max_degree : nat).
Hypothesis max_degree_small : max_degree < 64.
Context (lam w1 w2 eps : Qc).
Hypothesis lam_above_eps : (eps * eps < lam * lam)%Qc.

(** The solver returns the array of [solution_coeff]. *)
Lemma solve_homological_result (p_elim : list Cx.t) (n : nat) :
  n ≤ max_degree → homogeneous n p_elim →
  _solve_homological_equation p_elim n [Cx.of_Qc lam; Cx.imag w1; Cx.imag w2]
    (init_clmo max_degree) eps
  = Some (zip_with (solution_coeff (Cx.of_Qc lam) (Cx.imag w1) (Cx.imag w2))
            (monomials N_VARS n) p_elim).
Proof.
  intros Hn Hp. unfold homogeneous in Hp. unfold _solve_homological_equation.
  cbn [lookup list_lookup mbind option_bind].
  pose proof (length_monomials N_VARS n) as Hm.
  assert (length (np_zeros (length p_elim)) = length p_elim) as Hz
    by (unfold np_zeros; by rewrite length_replicate).
  rewrite <- Hz at 1. apply inplace_loop.
  { rewrite length_zip_with, Hz. lia. }
  intros i z s Hzi Hs Hls. rewrite Hz in Hls.
  assert (i < length p_elim) as Hi by (apply lookup_lt_Some in Hzi; lia).
  assert (z = Cx.zero) as ->.
  { unfold np_zeros in Hzi. by apply lookup_replicate in Hzi as [-> _]. }
  destruct (p_elim !! i) as [c |] eqn:Hc; [| apply lookup_ge_None in Hc; lia].
  destruct (monomials N_VARS n !! i) as [k |] eqn:Hk;
    [| apply lookup_ge_None in Hk; lia].
  exists (solution_coeff (Cx.of_Qc lam) (Cx.imag w1) (Cx.imag w2) k c). split.
  { rewrite lookup_zip_with, Hk. simpl. by rewrite Hc. }
  cbn [mbind option_bind]. rewrite decode_init, Hk by done. cbn [mbind option_bind].
  assert (length k = N_VARS) as Hlk.
  { eapply elem_of_monomials, list_elem_of_lookup_2, Hk. }
  destruct (denominator_defined lam w1 w2 k Hlk) as [denom Hd].
  unfold solution_coeff. rewrite Hd.
  destruct (k !! 0) as [k0 |] eqn:H0; [| apply lookup_ge_None in H0; unfold N_VARS in *; lia].
  destruct (k !! 3) as [k3 |] eqn:H3; [| apply lookup_ge_None in H3; unfold N_VARS in *; lia].
  cbn [mbind option_bind].
  destruct (decide (k0 = k3)) as [-> | Hne].
  - rewrite !bool_decide_eq_true_2 by done. by rewrite list_insert_id.
  - rewrite !bool_decide_eq_false_2 by congruence.
    destruct (denominator_not_small lam w1 w2 eps lam_above_eps
                k k0 k3 denom Hd H0 H3 Hne) as [-> _].
    apply array_set_Some. lia.
Qed.

End solver.

(** *** The quadratic part and its derivatives *)

Lemma array_set_at_nat (a : list Cx.t) (j : nat) (x : Cx.t) :
  j < length a → array_set_at a (Z.of_nat j) x = Some (<[j := x]> a).
Proof.
  intros Hj. unfold array_set_at. rewrite py_index_nat by done. simpl.
  by apply array_set_Some.
Qed.

Lemma H2_coefficients_result (max_degree : nat) (lam w1 w2 : Qc) :
  max_degree < 64 → 2 ≤ max_degree →
  ∃ H2,
    H2_coefficients lam w1 w2 (init_psi_table max_degree)
      (_create_encode_dict_from_clmo (init_clmo max_degree)) = Some H2
    ∧ homogeneous 2 H2
    ∧ ∀ i k, monomials N_VARS 2 !! i = Some k → H2 !! i = Some (H2_coeff lam w1 w2 k).
Proof.
  intros Hsmall Hdeg.
  exists (<[6 := Cx.imag w2]> (<[11 := Cx.imag w1]> (<[17 := Cx.of_Qc lam]> (np_zeros 21)))).
  split_and!.
  - unfold H2_coefficients. rewrite psi_at_init by (unfold N_VARS; lia).
    change (psi_count N_VARS 2) with 21. cbn [mbind option_bind].
    rewrite (encode_init max_degree Hsmall [1; 0; 0; 1; 0; 0] 2 17) by (reflexivity || lia).
    rewrite (encode_init max_degree Hsmall [0; 1; 0; 0; 1; 0] 2 11) by (reflexivity || lia).
    rewrite (encode_init max_degree Hsmall [0; 0; 1; 0; 0; 1] 2 6) by (reflexivity || lia).
    rewrite array_set_at_nat by (simpl; lia). cbn [mbind option_bind].
    rewrite array_set_at_nat by (simpl; lia). cbn [mbind option_bind].
    rewrite array_set_at_nat by (simpl; lia). done.
  - reflexivity.
  - intros i k Hk.
    do 21 (destruct i as [| i]; [injection Hk as <-; reflexivity |]).
    done.
Qed.

(** The position of the tuple of one variable. *)
Lemma monomials_1_lookup (var : nat) :
  var < N_VARS →
  monomials N_VARS 1 !! (5 - var) = Some (<[var := 1]> (replicate N_VARS 0)).
Proof.
  intros Hv. do 6 (destruct var as [| var]; [reflexivity |]). unfold N_VARS in Hv. lia.
Qed.

Lemma linear_monomial_homogeneous (var : nat) (c : Cx.t) :
  homogeneous 1 (linear_monomial var c).
Proof. unfold homogeneous, linear_monomial. by rewrite length_insert. Qed.

Lemma linear_monomial_lookup (var : nat) (c : Cx.t) (i : nat) :
  i < 6 →
  linear_monomial var c !! i = Some (if bool_decide (i = 5 - var) then c else Cx.zero).
Proof.
  intros Hi. unfold linear_monomial. case_bool_decide as E.
  - subst. by rewrite list_lookup_insert_eq by (simpl; lia).
  - rewrite list_lookup_insert_ne by done. unfold np_zeros.
    by rewrite lookup_replicate_2.
Qed.

(** An array of six coefficients that agrees with a linear monomial. *)
Lemma linear_monomial_ext (var : nat) (c : Cx.t) (a : list Cx.t) :
  homogeneous 1 a →
  (∀ i, i < 6 → a !! i = Some (if bool_decide (i = 5 - var) then c else Cx.zero)) →
  a = linear_monomial var c.
Proof.
  intros Ha Hlook. apply (homogeneous_ext 1); [done | apply linear_monomial_homogeneous |].
  intros idx k Hk. assert (idx < 6) as Hidx.
  { apply lookup_lt_Some in Hk. by rewrite length_monomials in Hk. }
  by rewrite Hlook, linear_monomial_lookup.
Qed.

Section derivatives_of_H2.
Context (max_degree : nat).
Hypothesis max_degree_small : max_degree < 64.
Hypothesis quadratic_in_table : 2 ≤ max_degree.
Context (sch : Sched) (lam w1 w2 : Qc) (H2 : list Cx.t).
Hypothesis H2_homogeneous : homogeneous 2 H2.
Hypothesis H2_lookup :
  ∀ i k, monomials N_VARS 2 !! i = Some k → H2 !! i = Some (H2_coeff lam w1 w2 k).

Lemma diff_H2_lookup (var : nat) :
  var < N_VARS →
  ∃ dH,
    _poly_diff sch H2 var 2 (init_psi_table max_degree) (init_clmo max_degree)
      (_create_encode_dict_from_clmo (init_clmo max_degree)) = Some dH
    ∧ homogeneous 1 dH
    ∧ ∀ idx k e,
        monomials N_VARS 1 !! idx = Some k → k !! var = Some e →
        dH !! idx
        = Some (H2_coeff lam w1 w2 (<[var := (e + 1)%nat]> k) * Cx.of_nat (e + 1))%cx.
Proof.
  intros Hv.
  destruct (poly_diff_result max_degree max_degree_small sch H2 var 1)
    as (dH & HdH & Hhom & Hdiff); [done .. |].
  exists dH. split_and!; [done | done |].
  intros idx k e Hk He.
  assert (k ∈ monomials N_VARS 1) as Hkin by by eapply list_elem_of_lookup_2.
  destruct (monomials_position 2 (<[var := e + 1]> k)) as [i0 Hi0].
  { by apply (monomials_raise 1). }
  by apply (Hdiff idx k e i0 _ Hk He Hi0), H2_lookup.
Qed.

(** The six first derivatives of the quadratic part. *)
Lemma diff_H2_result (eta : Cx.t) (var var' : nat) :
  (var, var', eta) ∈ [(0, 3, Cx.of_Qc lam); (1, 4, Cx.imag w1); (2, 5, Cx.imag w2);
                      (3, 0, Cx.of_Qc lam); (4, 1, Cx.imag w1); (5, 2, Cx.imag w2)] →
  _poly_diff sch H2 var 2 (init_psi_table max_degree) (init_clmo max_degree)
    (_create_encode_dict_from_clmo (init_clmo max_degree))
  = Some (linear_monomial var' (eta * Cx.of_nat 1)%cx).
Proof.
  intros Hin.
  assert (var < N_VARS) as Hv.
  { unfold N_VARS. repeat (apply elem_of_cons in Hin as [[= -> -> ->] | Hin]; [lia |]).
    by apply elem_of_nil in Hin. }
  destruct (diff_H2_lookup var Hv) as (dH & -> & Hhom & Hlook).
  f_equal. apply linear_monomial_ext; [done |].
  intros i Hi.
  repeat (apply elem_of_cons in Hin as [[= -> -> ->] | Hin];
    [do 6 (destruct i as [| i];
             [erewrite Hlook by reflexivity; f_equal;
              cbn; rewrite ?Cx_of_nat_0; ring |]); lia |]).
  by apply elem_of_nil in Hin.
Qed.

End derivatives_of_H2.

(** *** Products with a linear monomial *)

Lemma tuple_add_unit (var e : nat) (kj : list nat) :
  var < N_VARS → length kj = N_VARS → kj !! var = Some e →
  tuple_add (<[var := 1]> (replicate N_VARS 0)) kj = <[var := e + 1]> kj.
Proof.
  intros Hv Hl He.
  destruct kj as [| a0 [| a1 [| a2 [| a3 [| a4 [| a5 [| ? ?]]]]]]]; try done.
  do 6 (destruct var as [| var];
        [injection He as <-; unfold tuple_add; simpl; f_equal; lia || (repeat f_equal; lia) |]).
  unfold N_VARS in Hv. lia.
Qed.

Lemma pair_term_zero_l (clmo : Clmo) (p : list Cx.t) (deg_p : nat) (q : list Cx.t)
    (deg_q : nat) (k : list nat) (i j : nat) :
  p !! i = Some Cx.zero → pair_term clmo p deg_p q deg_q k i j = Cx.zero.
Proof.
  intros Hp. unfold pair_term. rewrite Hp. repeat case_match; try done; ring.
Qed.

Lemma insert_lookup_eq (k k' : list nat) (var x y : nat) :
  var < length k' → <[var := x]> k' = k → k !! var = Some y → x = y.
Proof.
  intros Hv <- Hy. rewrite list_lookup_insert_eq in Hy by done. congruence.
Qed.

(** Multiplying by [c * x_var] moves the coefficient of [k - e_var] to [k]. *)
Lemma mul_linear_monomial (max_degree : nat) (sch : Sched) (var : nat) (c : Cx.t)
    (dG : list Cx.t) (n' : nat) :
  max_degree < 64 → 1 + n' ≤ max_degree → var < N_VARS → homogeneous n' dG →
  ∃ t,
    _poly_mul sch (linear_monomial var c) 1 dG n' (init_psi_table max_degree)
      (init_clmo max_degree) (_create_encode_dict_from_clmo (init_clmo max_degree))
    = Some t
    ∧ homogeneous (1 + n') t
    ∧ ∀ idx k e,
        monomials N_VARS (1 + n') !! idx = Some k → k !! var = Some e →
        (e = 0 → t !! idx = Some Cx.zero)
        ∧ (∀ e' j0 x, e = S e' →
             monomials N_VARS n' !! j0 = Some (<[var := e']> k) → dG !! j0 = Some x →
             t !! idx = Some (c * x)%cx).
Proof.
  intros Hsmall Hdeg Hv HdG. unfold homogeneous in HdG.
  pose proof (linear_monomial_homogeneous var c) as Hlin. unfold homogeneous in Hlin.
  destruct (poly_mul_result max_degree Hsmall sch (linear_monomial var c) 1 dG n')
    as (t & Ht & Hlen & Hconv); [lia .. |].
  exists t. split_and!; [done | done |].
  intros idx k e Hk He. rewrite (Hconv idx k Hk). unfold convolution.
  change (psi_count N_VARS 1) with 6 in Hlin. rewrite Hlin.
  assert (length k = N_VARS) as Hlk.
  { eapply elem_of_monomials, list_elem_of_lookup_2, Hk. }
  (* only the position of the variable contributes *)
  rewrite (csum_with_single _ (range 6) (5 - var));
    [| apply NoDup_seq | apply elem_of_seq; lia |].
  2:{ intros i Hi%elem_of_seq Hne. apply csum_with_zero. intros j _.
      apply pair_term_zero_l. rewrite linear_monomial_lookup by lia.
      by rewrite bool_decide_eq_false_2. }
  assert (∀ j, pair_term (init_clmo max_degree) (linear_monomial var c) 1 dG n' k
                 (5 - var) j
               = match dG !! j, monomials N_VARS n' !! j with
                 | Some x, Some kj =>
                     if bool_decide
                          (tuple_add (<[var := 1]> (replicate N_VARS 0)) kj = k)
                     then (c * x)%cx else Cx.zero
                 | _, _ => Cx.zero
                 end) as Hterm.
  { intros j. unfold pair_term.
    rewrite linear_monomial_lookup, bool_decide_eq_true_2 by (done || lia).
    rewrite !decode_init, monomials_1_lookup by (done || lia).
    destruct (dG !! j); [| done]. by destruct (monomials N_VARS n' !! j). }
  split.
  - intros ->. f_equal. apply csum_with_zero. intros j _. rewrite Hterm.
    destruct (dG !! j) as [x |]; [| done].
    destruct (monomials N_VARS n' !! j) as [kj |] eqn:Hkj; [| done].
    assert (kj ∈ monomials N_VARS n') as Hkjin by by eapply list_elem_of_lookup_2.
    destruct (monomials_var n' var kj Hkjin Hv) as [ej Hej].
    rewrite (tuple_add_unit var ej) by (done || by eapply elem_of_monomials).
    rewrite bool_decide_eq_false_2; [done |]. intros Hins.
    apply (insert_lookup_eq k kj var (ej + 1) 0) in Hins; [lia | | done].
    by eapply lookup_lt_Some.
  - intros e' j0 x -> Hj0 Hx. f_equal.
    rewrite (csum_with_single _ _ j0);
      [| apply NoDup_seq | apply elem_of_seq; apply lookup_lt_Some in Hx; lia |].
    + rewrite Hterm, Hx, Hj0.
      rewrite (tuple_add_unit var e')
        by (done || rewrite ?length_insert; done
            || (apply list_lookup_insert_eq; lia)).
      rewrite list_insert_insert_eq. replace (e' + 1) with (S e') by lia.
      rewrite (list_insert_id k var (S e')) by done.
      by rewrite bool_decide_eq_true_2.
    + intros j _ Hne. rewrite Hterm.
      destruct (dG !! j) as [xj |]; [| done].
      destruct (monomials N_VARS n' !! j) as [kj |] eqn:Hkj; [| done].
      assert (kj ∈ monomials N_VARS n') as Hkjin by by eapply list_elem_of_lookup_2.
      destruct (monomials_var n' var kj Hkjin Hv) as [ej Hej].
      rewrite (tuple_add_unit var ej) by (done || by eapply elem_of_monomials).
      rewrite bool_decide_eq_false_2; [done |]. intros Hins.
      apply Hne. apply (monomials_lookup_inj n' j j0 kj); [done |].
      rewrite Hj0. f_equal.
      assert (ej + 1 = S e') as Hej'.
      { apply (insert_lookup_eq k kj var); [by eapply lookup_lt_Some | done | done]. }
      rewrite <- Hins, list_insert_insert_eq.
      replace e' with ej by lia. by rewrite list_insert_id.
Qed.

(** *** The bracket with the quadratic part *)

Lemma Cx_of_nat_1 : Cx.of_nat 1 = Cx.one.
Proof. apply Cx_eq; [apply Z2Qc_inj_1 | done]. Qed.

Section bracket_with_H2.
Context (max_degree : nat).
Hypothesis max_degree_small : max_degree < 64.
Hypothesis quadratic_in_table : 2 ≤ max_degree.
Context (sch : Sched) (lam w1 w2 : Qc) (H2 G : list Cx.t) (b : nat).
Hypothesis H2_homogeneous : homogeneous 2 H2.
Hypothesis H2_lookup :
  ∀ i k, monomials N_VARS 2 !! i = Some k → H2 !! i = Some (H2_coeff lam w1 w2 k).
Hypothesis G_in_table : S b ≤ max_degree.
Hypothesis G_homogeneous : homogeneous (S b) G.

(** A product of a derivative of the quadratic part and a derivative of [G]:
    the coefficient of [G], times the eigenvalue, times an exponent. *)
Lemma bracket_term_H2 (eta : Cx.t) (varH varG : nat) :
  (varH, varG, eta) ∈ [(0, 3, Cx.of_Qc lam); (1, 4, Cx.imag w1); (2, 5, Cx.imag w2);
                       (3, 0, Cx.of_Qc lam); (4, 1, Cx.imag w1); (5, 2, Cx.imag w2)] →
  ∃ t,
    (dH ← _poly_diff sch H2 varH 2 (init_psi_table max_degree) (init_clmo max_degree)
            (_create_encode_dict_from_clmo (init_clmo max_degree));
     dG ← _poly_diff sch G varG (S b) (init_psi_table max_degree) (init_clmo max_degree)
            (_create_encode_dict_from_clmo (init_clmo max_degree));
     _poly_mul sch dH (2 - 1) dG (S b - 1) (init_psi_table max_degree)
       (init_clmo max_degree) (_create_encode_dict_from_clmo (init_clmo max_degree)))
    = Some t
    ∧ ∀ idx k e g,
        monomials N_VARS (S b) !! idx = Some k → k !! varG = Some e →
        G !! idx = Some g →
        t !! idx = Some (eta * (g * Cx.of_nat e))%cx.
Proof.
  intros Hin.
  assert (varG < N_VARS) as Hv.
  { unfold N_VARS. repeat (apply elem_of_cons in Hin as [[= -> -> ->] | Hin]; [lia |]).
    by apply elem_of_nil in Hin. }
  rewrite (diff_H2_result max_degree max_degree_small quadratic_in_table sch lam w1 w2
             H2 H2_homogeneous H2_lookup eta varH varG Hin).
  cbn [mbind option_bind].
  destruct (poly_diff_result max_degree max_degree_small sch G varG b)
    as (dG & -> & HdG & Hdiff); [done .. |].
  cbn [mbind option_bind].
  replace (2 - 1) with 1 by lia. replace (S b - 1) with b by lia.
  destruct (mul_linear_monomial max_degree sch varG (eta * Cx.of_nat 1)%cx dG b)
    as (t & -> & Ht & Hmul); [done | lia | done | done |].
  exists t. split; [done |].
  intros idx k e g Hk He Hg.
  destruct (Hmul idx k e Hk He) as [Hzero Hpos].
  destruct e as [| e'].
  - rewrite Hzero by done. f_equal. rewrite Cx_of_nat_0. ring.
  - assert (k ∈ monomials N_VARS (S b)) as Hkin by by eapply list_elem_of_lookup_2.
    destruct (monomials_position b (<[varG := e']> k)) as [j0 Hj0].
    { replace e' with (S e' - 1) by lia. by apply monomials_lower. }
    assert (dG !! j0 = Some (g * Cx.of_nat (e' + 1))%cx) as HdGj.
    { apply (Hdiff j0 (<[varG := e']> k) e' idx g); [done | | | done].
      - apply list_lookup_insert_eq. by eapply lookup_lt_Some.
      - rewrite list_insert_insert_eq. replace (e' + 1) with (S e') by lia.
        by rewrite list_insert_id. }
    rewrite (Hpos e' j0 _ eq_refl Hj0 HdGj). f_equal.
    replace (e' + 1) with (S e') by lia. rewrite Cx_of_nat_1. ring.
Qed.

Lemma poisson_term1_H2 (eta : Cx.t) (m : nat) (t : list Cx.t) :
  (m, eta) ∈ [(0, Cx.of_Qc lam); (1, Cx.imag w1); (2, Cx.imag w2)] →
  poisson_term1 sch H2 2 G (S b) (init_psi_table max_degree) (init_clmo max_degree)
    (_create_encode_dict_from_clmo (init_clmo max_degree)) m = Some t →
  ∀ idx k e g,
    monomials N_VARS (S b) !! idx = Some k → k !! (m + 3) = Some e →
    G !! idx = Some g →
    t !! idx = Some (eta * (g * Cx.of_nat e))%cx.
Proof.
  intros Hin Ht. unfold poisson_term1 in Ht.
  destruct (bracket_term_H2 eta m (m + 3)) as (t' & Ht' & Hlook).
  { repeat (apply elem_of_cons in Hin as [[= -> ->] | Hin]; [repeat constructor |]).
    by apply elem_of_nil in Hin. }
  rewrite Ht' in Ht. by injection Ht as <-.
Qed.

Lemma poisson_term2_H2 (eta : Cx.t) (m : nat) (t : list Cx.t) :
  (m, eta) ∈ [(0, Cx.of_Qc lam); (1, Cx.imag w1); (2, Cx.imag w2)] →
  poisson_term2 sch H2 2 G (S b) (init_psi_table max_degree) (init_clmo max_degree)
    (_create_encode_dict_from_clmo (init_clmo max_degree)) m = Some t →
  ∀ idx k e g,
    monomials N_VARS (S b) !! idx = Some k → k !! m = Some e →
    G !! idx = Some g →
    t !! idx = Some (eta * (g * Cx.of_nat e))%cx.
Proof.
  intros Hin Ht. unfold poisson_term2 in Ht.
  destruct (bracket_term_H2 eta (m + 3) m) as (t' & Ht' & Hlook).
  { repeat (apply elem_of_cons in Hin as [[= -> ->] | Hin]; [repeat constructor |]).
    by apply elem_of_nil in Hin. }
  rewrite Ht' in Ht. by injection Ht as <-.
Qed.

(** The bracket [{H2, G}] multiplies every coefficient of [G] by the divisor
    of its exponent tuple. *)
Lemma poisson_H2_result :
  ∃ r,
    _poly_poisson sch H2 2 G (S b) (init_psi_table max_degree) (init_clmo max_degree)
      (_create_encode_dict_from_clmo (init_clmo max_degree)) = Some r
    ∧ homogeneous (S b) r
    ∧ ∀ idx k g denom,
        monomials N_VARS (S b) !! idx = Some k → G !! idx = Some g →
        homological_denominator (Cx.of_Qc lam) (Cx.imag w1) (Cx.imag w2) k = Some denom →
        r !! idx = Some (g * denom)%cx.
Proof.
  destruct (poly_poisson_defined max_degree sch 1 b H2 G)
    as (t1 & t2 & Hterms & Hpq); [done | done | done | lia | done | done |].
  destruct (Hterms 0) as (H10 & H20 & Hh10 & Hh20); [lia |].
  destruct (Hterms 1) as (H11 & H21 & Hh11 & Hh21); [lia |].
  destruct (Hterms 2) as (H12 & H22 & Hh12 & Hh22); [lia |].
  assert (length (np_zeros (psi_count N_VARS (1 + b))) = psi_count N_VARS (1 + b)) as Hz
    by (unfold np_zeros; by rewrite length_replicate).
  eexists. split_and!; [exact Hpq | |].
  - unfold homogeneous in *. by repeat apply bracket_step_length.
  - intros idx k g denom Hk Hg Hd.
    assert (length k = N_VARS) as Hlk.
    { eapply elem_of_monomials, list_elem_of_lookup_2, Hk. }
    destruct k as [| k0 [| k1 [| k2 [| k3 [| k4 [| k5 [| ? ?]]]]]]]; try done.
    unfold homological_denominator in Hd. simpl in Hd. injection Hd as <-.
    assert (np_zeros (psi_count N_VARS (1 + b)) !! idx = Some Cx.zero) as Hzero.
    { unfold np_zeros. apply lookup_replicate_2.
      apply lookup_lt_Some in Hk. by rewrite length_monomials in Hk. }
    assert (t1 0 !! idx = Some (Cx.of_Qc lam * (g * Cx.of_nat k3))%cx) as A0.
    { eapply (poisson_term1_H2 _ 0); [repeat constructor | done | done | reflexivity | done]. }
    assert (t2 0 !! idx = Some (Cx.of_Qc lam * (g * Cx.of_nat k0))%cx) as B0.
    { eapply (poisson_term2_H2 _ 0); [repeat constructor | done | done | reflexivity | done]. }
    assert (t1 1 !! idx = Some (Cx.imag w1 * (g * Cx.of_nat k4))%cx) as A1.
    { eapply (poisson_term1_H2 _ 1); [repeat constructor | done | done | reflexivity | done]. }
    assert (t2 1 !! idx = Some (Cx.imag w1 * (g * Cx.of_nat k1))%cx) as B1.
    { eapply (poisson_term2_H2 _ 1); [repeat constructor | done | done | reflexivity | done]. }
    assert (t1 2 !! idx = Some (Cx.imag w2 * (g * Cx.of_nat k5))%cx) as A2.
    { eapply (poisson_term1_H2 _ 2); [repeat constructor | done | done | reflexivity | done]. }
    assert (t2 2 !! idx = Some (Cx.imag w2 * (g * Cx.of_nat k2))%cx) as B2.
    { eapply (poisson_term2_H2 _ 2); [repeat constructor | done | done | reflexivity | done]. }
    rewrite (bracket_step_lookup _ _ _ idx _ _ _
               (bracket_step_lookup _ _ _ idx _ _ _
                  (bracket_step_lookup _ _ _ idx _ _ _ Hzero A0 B0) A1 B1) A2 B2).
    f_equal. rewrite !exponent_diff_sub. ring.
Qed.

End bracket_with_H2.

(** ** [_poly_add], [_poly_scale], [_poly_clean], [_poly_clean_inplace] *)

Lemma poly_add_as_write_loop (p q out : list Cx.t) :
  _poly_add p q out
  = for_each (range (length p))
      (λ i out, x ← (pi ← p !! i; qi ← q !! i; Some (pi + qi)%cx); array_set out i x) out.
Proof.
  unfold _poly_add. apply for_each_ext. intros i s _.
  destruct (p !! i); simpl; [| done]. by destruct (q !! i).
Qed.

Lemma poly_scale_as_write_loop (p : list Cx.t) (alpha : Cx.t) (out : list Cx.t) :
  _poly_scale p alpha out
  = for_each (range (length p))
      (λ i out, x ← (pi ← p !! i; Some (alpha * pi)%cx); array_set out i x) out.
Proof.
  unfold _poly_scale. apply for_each_ext. intros i s _. by destruct (p !! i).
Qed.

Lemma poly_add_result (p q out : list Cx.t) :
  _poly_add p q out
  = if bool_decide (length p ≤ length q ∧ length p ≤ length out)
    then Some (zip_with Cx.add p q ++ drop (length p) out)
    else None.
Proof.
  rewrite poly_add_as_write_loop. case_bool_decide as Hlen.
  - destruct Hlen as [Hq Hout]. apply write_loop; [| done |].
    + rewrite length_zip_with. lia.
    + intros i Hi. rewrite lookup_zip_with.
      destruct (p !! i) as [pi |] eqn:Hp; [| apply lookup_ge_None in Hp; lia].
      destruct (q !! i) as [qi |] eqn:Hqi; [| apply lookup_ge_None in Hqi; lia].
      done.
  - apply write_loop_raises.
    destruct (decide (length p ≤ length q)) as [Hq | Hq].
    + exists (length out). split; [lia |]. by right.
    + exists (length q). split; [lia |]. left.
      destruct (p !! length q); simpl; [| done].
      by rewrite (proj2 (lookup_ge_None q (length q))).
Qed.

Lemma poly_scale_result (p : list Cx.t) (alpha : Cx.t) (out : list Cx.t) :
  _poly_scale p alpha out
  = if bool_decide (length p ≤ length out)
    then Some ((Cx.mul alpha <$> p) ++ drop (length p) out)
    else None.
Proof.
  rewrite poly_scale_as_write_loop. case_bool_decide as Hlen.
  - apply write_loop; [by rewrite length_fmap | done |].
    intros i Hi. rewrite list_lookup_fmap. by destruct (p !! i).
  - apply write_loop_raises. exists (length out). split; [lia |]. by right.
Qed.



Lemma poly_clean_inplace_result (p : list Cx.t) (tol : Qc) :
  _poly_clean_inplace p tol = Some (clean_coeff tol <$> p).
Proof.
  unfold _poly_clean_inplace.
  destruct (for_each_invariant
    (λ done s, s = (clean_coeff tol <$> take (length done) p) ++ drop (length done) p)
    (range (length p))
    (λ i p, c ← p !! i; if Cx.abs_le c tol then array_set p i Cx.zero else Some p) p)
    as (s' & Hs' & Hinv).
  - simpl. by rewrite drop_0.
  - intros done x rest s Hd ->. apply seq_prefix in Hd as (-> & Hx & Hlen).
    rewrite Hlen. rewrite seq_snoc, length_seq.
    destruct (p !! x) as [c |] eqn:Hc; [| apply lookup_ge_None in Hc; lia].
    set (ws := clean_coeff tol <$> take x p).
    assert (length ws = x) as Hws.
    { unfold ws. rewrite length_fmap, length_take. lia. }
    rewrite lookup_app_r, Hws, Nat.sub_diag, lookup_drop, Nat.add_0_r, Hc by lia.
    simpl. rewrite (take_S_r p x c), fmap_app by done. fold ws. simpl.
    unfold clean_coeff at 1. destruct (Cx.abs_le c tol).
    + rewrite array_set_Some by (rewrite length_app, length_drop; lia).
      eexists. split; [done |].
      pose proof (insert_written_prefix ws p Cx.zero) as Hi.
      rewrite Hws in Hi. by apply Hi.
    + eexists. split; [done |]. rewrite (drop_S p c x) by done.
      by rewrite <- app_assoc.
  - rewrite Hs', Hinv. unfold range. rewrite length_seq, take_ge, drop_ge by lia.
    by rewrite app_nil_r.
Qed.

Lemma poly_clean_result (p : list Cx.t) (tol : Qc) (out : list Cx.t) :
  length p ≤ length out →
  _poly_clean p tol out = Some ((clean_coeff tol <$> p) ++ drop (length p) out).
Proof.
  intros Hlen. unfold _poly_clean.
  rewrite (for_each_ext _ _
    (λ i out, x ← (c ← p !! i; Some (clean_coeff tol c)); array_set out i x)).
  - apply write_loop; [by rewrite length_fmap | done |].
    intros i Hi. rewrite list_lookup_fmap. by destruct (p !! i).
  - intros i s _. destruct (p !! i) as [c |]; simpl; [| done].
    unfold clean_coeff. by destruct (Cx.abs_le c tol).
Qed.

(** C10.  For an output array of the length of [p], [_poly_clean(p, tol, out)]
    and [_poly_clean_inplace] applied to a copy of [p] produce the same array:
    every coefficient of magnitude at most [tol] is zero in it, the others are
    those of [p]. *)
Theorem poly_clean_agrees_with_inplace (p : list Cx.t) (tol : Qc) (out : list Cx.t) :
  length out = length p →
  ∃ r, _poly_clean p tol out = Some r
       ∧ _poly_clean_inplace p tol = Some r
       ∧ length r = length p
       ∧ ∀ i c, p !! i = Some c →
                r !! i = Some (if Cx.abs_le c tol then Cx.zero else c).
Proof.
  intros Hlen. exists (clean_coeff tol <$> p). split_and!.
  - rewrite poly_clean_result by lia. by rewrite drop_ge, app_nil_r by lia.
  - apply poly_clean_inplace_result.
  - by rewrite length_fmap.
  - intros i c Hc. by rewrite list_lookup_fmap, Hc.
Qed.

Lemma poly_clean_agrees_with_inplace_witness :
  ∃ r, _poly_clean [Cx.one; Cx.zero] TOL_1E_14 [Cx.zero; Cx.zero] = Some r
       ∧ _poly_clean_inplace [Cx.one; Cx.zero] TOL_1E_14 = Some r
       ∧ length r = length [Cx.one; Cx.zero]
       ∧ ∀ i c, [Cx.one; Cx.zero] !! i = Some c →
                r !! i = Some (if Cx.abs_le c TOL_1E_14 then Cx.zero else c).
Proof.
  apply (poly_clean_agrees_with_inplace [Cx.one; Cx.zero] TOL_1E_14 [Cx.zero; Cx.zero]).
  reflexivity.
Defined.

(** ** [substitute_linear] *)

Lemma clean_coeff_is_clean (tol : Qc) (c : Cx.t) : is_clean tol (clean_coeff tol c).
Proof.
  unfold is_clean, clean_coeff. destruct (Cx.abs_le c tol) eqn:E; [done |].
  intros H. congruence.
Qed.

Lemma polynomial_clean_result (poly : list (list Cx.t)) (tol : Qc) :
  polynomial_clean poly tol = Some ((λ p : list Cx.t, clean_coeff tol <$> p) <$> poly).
Proof.
  unfold polynomial_clean. apply mapM_Some. induction poly as [| p poly IH]; simpl.
  - constructor.
  - constructor; [| done].
    rewrite poly_clean_result by (unfold np_zeros; by rewrite length_replicate).
    unfold np_zeros. by rewrite drop_ge, app_nil_r by (rewrite length_replicate; lia).
Qed.

Lemma polynomial_clean_is_clean (poly r : list (list Cx.t)) (tol : Qc) :
  polynomial_clean poly tol = Some r →
  ∀ block c, block ∈ r → c ∈ block → is_clean tol c.
Proof.
  rewrite polynomial_clean_result. intros [= <-] block c Hb Hc.
  apply list_elem_of_fmap in Hb as (p & -> & _).
  apply list_elem_of_fmap in Hc as (c0 & -> & _).
  apply clean_coeff_is_clean.
Qed.

(** C8.  Whatever the graded operations compute, the polynomial returned by
    [substitute_linear] has been cleaned at [1e-14]: a coefficient of it whose
    magnitude is at most [1e-14] is exactly zero. *)
Theorem substitute_linear_cleaned
    (polynomial_variable :
       nat → nat → PsiTable → Clmo → EncodeDicts → option (list (list Cx.t)))
    (polynomial_zero_list : nat → PsiTable → option (list (list Cx.t)))
    (polynomial_add_inplace :
       list (list Cx.t) → list (list Cx.t) → Cx.t → nat → option (list (list Cx.t)))
    (polynomial_multiply polynomial_power : _)
    (poly_old C : list (list Cx.t)) (max_deg : nat)
    (psi : PsiTable) (clmo : Clmo) (encode_dict_list : EncodeDicts)
    (poly_new : list (list Cx.t)) :
  substitute_linear polynomial_variable polynomial_zero_list polynomial_add_inplace
    polynomial_multiply polynomial_power poly_old C max_deg psi clmo encode_dict_list
  = Some poly_new →
  ∀ block c, block ∈ poly_new → c ∈ block →
    Cx.abs_le c TOL_1E_14 = true → c = Cx.zero.
Proof.
  unfold substitute_linear. intros Hrun block c Hb Hc.
  destruct (_linear_variable_polys _ _ _ _ _ _ _ _) as [var_polys |]; [| done].
  simpl in Hrun. destruct (polynomial_zero_list max_deg psi) as [zero |]; [| done].
  simpl in Hrun. destruct (for_each _ _ zero) as [acc |]; [| done]. simpl in Hrun.
  by apply (polynomial_clean_is_clean acc poly_new TOL_1E_14 Hrun block c).
Qed.

Lemma substitute_linear_cleaned_witness :
  ∃ poly_new,
    substitute_linear polynomial_variable polynomial_zero_list polynomial_add_inplace
      (polynomial_multiply two_workers) (polynomial_power two_workers)
      sample_poly identity_matrix 2 psi_2 clmo_2 encode_2 = Some poly_new
    ∧ ∀ block c, block ∈ poly_new → c ∈ block →
        Cx.abs_le c TOL_1E_14 = true → c = Cx.zero.
Proof.
  destruct (substitute_linear polynomial_variable polynomial_zero_list
              polynomial_add_inplace (polynomial_multiply two_workers)
              (polynomial_power two_workers) sample_poly identity_matrix 2
              psi_2 clmo_2 encode_2) as [poly_new |] eqn:Hrun.
  - exists poly_new. split; [reflexivity |].
    exact (substitute_linear_cleaned _ _ _ _ _ _ _ _ _ _ _ _ Hrun).
  - vm_compute in Hrun. discriminate Hrun.
Defined.

(** ** [_restrict_to_center_manifold] *)

Lemma restrict_coeff_zero (tol : Qc) (k : list nat) :
  restrict_coeff tol k Cx.zero = Cx.zero.
Proof.
  unfold restrict_coeff. destruct (Cx.abs_le _ _); [done |]. by case_bool_decide.
Qed.

Lemma restrict_coeff_idemp (tol : Qc) (k : list nat) (c : Cx.t) :
  restrict_coeff tol k (restrict_coeff tol k c) = restrict_coeff tol k c.
Proof.
  assert (restrict_coeff tol k c = Cx.zero ∨ restrict_coeff tol k c = c) as [-> | Hc].
  { unfold restrict_coeff. destruct (Cx.abs_le c tol); [by left |].
    case_bool_decide; [by right | by left]. }
  - apply restrict_coeff_zero.
  - by rewrite !Hc.
Qed.

Section restrict.
Context (max_degree : nat).
Hypothesis max_degree_small : max_degree < 64.
Local Abbreviation clmo := (init_clmo max_degree).

(** The loop over one block. *)
Lemma restrict_block_result (tol : Qc) (deg : nat) (a : list Cx.t) :
  deg ≤ max_degree → length a ≤ psi_count N_VARS deg →
  restrict_block clmo tol deg a
  = Some (zip_with (restrict_coeff tol) (monomials N_VARS deg) a).
Proof.
  intros Hdeg Hlen. unfold restrict_block.
  pose proof (length_monomials N_VARS deg) as Hmono.
  apply inplace_loop.
  { rewrite length_zip_with. lia. }
  intros i c s Ha Hs Hls.
  assert (i < length a) as Hi by by eapply lookup_lt_Some.
  destruct (monomials N_VARS deg !! i) as [k |] eqn:Hk;
    [| apply lookup_ge_None in Hk; lia].
  exists (restrict_coeff tol k c). split.
  { rewrite lookup_zip_with, Hk. simpl. by rewrite Ha. }
  rewrite Hs. simpl. unfold restrict_coeff.
  destruct (Cx.abs_le c tol); [apply array_set_Some; lia |].
  rewrite decode_init, Hk by done. simpl.
  assert (length k = N_VARS) as Hlk.
  { eapply elem_of_monomials, list_elem_of_lookup_2, Hk. }
  destruct k as [| k0 [| k1 [| k2 [| k3 k']]]]; try done. simpl.
  case_bool_decide as Hk0;
    [by rewrite bool_decide_eq_false_2, array_set_Some
       by (lia || (intros [[= ?] _]; lia)) |].
  simpl. case_bool_decide as Hk3;
    [by rewrite bool_decide_eq_false_2, array_set_Some
       by (lia || (intros [_ [= ?]]; lia)) |].
  rewrite bool_decide_eq_true_2 by (split; f_equal; lia).
  by rewrite list_insert_id.
Qed.

Lemma copy_all_result (poly_H : list nat) (h : gmap nat (list Cx.t)) (H : list (list Cx.t)) :
  read_poly h poly_H = Some H →
  ∃ poly_cm h1,
    copy_all poly_H h = Some (poly_cm, h1)
    ∧ NoDup poly_cm
    ∧ (∀ l, l ∈ poly_cm → h !! l = None)
    ∧ (∀ l, is_Some (h !! l) → h1 !! l = h !! l)
    ∧ read_poly h1 poly_cm = Some H.
Proof.
  unfold read_poly. revert h H. induction poly_H as [| l ls IH]; intros h H Hread.
  - apply mapM_Some, Forall2_nil_inv_l in Hread as ->.
    exists [], h. split_and!; [done | constructor | by intros ? ?%elem_of_nil | done | done].
  - apply mapM_Some, Forall2_cons_inv_l in Hread as (a & H' & Hl & Hls & ->).
    set (l' := fresh (dom h)).
    assert (h !! l' = None) as Hfresh.
    { apply not_elem_of_dom. apply is_fresh. }
    destruct (IH (<[l' := a]> h) H') as (ls' & h1 & Hcopy & Hnd & Hnew & Hold & Hread').
    { apply mapM_Some. eapply Forall2_impl; [done |]. intros x y Hx. simpl in Hx.
      rewrite lookup_insert_ne; [done |]. intros <-. congruence. }
    exists (l' :: ls'), h1. split_and!.
    + simpl. unfold ndarray_copy. rewrite Hl. simpl. fold l'. by rewrite Hcopy.
    + constructor; [| done]. intros Hin%Hnew. by rewrite lookup_insert_eq in Hin.
    + intros x [-> | Hx]%elem_of_cons; [done |]. apply Hnew in Hx.
      destruct (decide (l' = x)) as [<- | Hne]; [done |].
      by rewrite lookup_insert_ne in Hx.
    + intros x Hx. assert (l' ≠ x) as Hne by (intros <-; rewrite Hfresh in Hx; by destruct Hx).
      rewrite Hold; rewrite lookup_insert_ne; done.
    + apply mapM_Some. constructor; [| by apply mapM_Some].
      rewrite Hold; rewrite lookup_insert_eq; done.
Qed.

(** The loop over the copied blocks. *)
Lemma restrict_blocks_result (tol : Qc) (poly_cm : list nat)
    (h1 : gmap nat (list Cx.t)) (H : list (list Cx.t)) :
  graded_poly max_degree H → NoDup poly_cm → read_poly h1 poly_cm = Some H →
  ∃ h2,
    for_each (imap pair poly_cm)
      (λ '(deg, coeff_vec) h,
         a ← h !! coeff_vec;
         if bool_decide (length a = 0) then Some h else
         a' ← restrict_block clmo tol deg a;
         Some (<[coeff_vec := a']> h)) h1 = Some h2
    ∧ (∀ l, l ∉ poly_cm → h2 !! l = h1 !! l)
    ∧ read_poly h2 poly_cm = Some (restrict_poly tol H).
Proof.
  intros Hgr Hnd Hread. apply mapM_Some in Hread.
  pose proof (Forall2_length _ _ _ Hread) as Hlen.
  set (F := λ deg block, zip_with (restrict_coeff tol) (monomials N_VARS deg) block).
  destruct (for_each_invariant_idx
    (λ m (h : gmap nat (list Cx.t)),
       (∀ l, l ∉ poly_cm → h !! l = h1 !! l)
       ∧ ∀ i l a, poly_cm !! i = Some l → H !! i = Some a →
           h !! l = Some (if bool_decide (i < m) then F i a else a))
    (imap pair poly_cm)
    (λ '(deg, coeff_vec) h,
         a ← h !! coeff_vec;
         if bool_decide (length a = 0) then Some h else
         a' ← restrict_block clmo tol deg a;
         Some (<[coeff_vec := a']> h)) h1) as (h2 & Hrun & Hother & Hblocks).
  - split; [done |]. intros i l a Hl Ha. rewrite bool_decide_eq_false_2 by lia.
    exact (Forall2_lookup_lr _ _ _ i l a Hread Hl Ha).
  - intros m [deg l] h Hx [Hother Hblocks].
    apply list_lookup_imap_Some in Hx as (l0 & Hl & [= -> ->]).
    destruct (H !! m) as [a |] eqn:Ha;
      [| apply lookup_ge_None in Ha; apply lookup_lt_Some in Hl; lia].
    destruct (Hgr m a Ha) as [Hdeg Hhom].
    rewrite (Hblocks m l0 a Hl Ha), bool_decide_eq_false_2 by lia. simpl.
    assert (restrict_block clmo tol m a = Some (F m a)) as Hblock.
    { apply restrict_block_result; [done | by rewrite Hhom]. }
    assert (∃ h', (if bool_decide (length a = 0) then Some h
                   else restrict_block clmo tol m a ≫= λ a', Some (<[l0 := a']> h))
                  = Some h'
                  ∧ h' !! l0 = Some (F m a)
                  ∧ ∀ l, l ≠ l0 → h' !! l = h !! l) as (h' & -> & Hl0 & Hrest).
    { case_bool_decide as Hempty.
      - exists h. split_and!; [done | | done].
        rewrite (Hblocks m l0 a Hl Ha), bool_decide_eq_false_2 by lia.
        destruct a; [| done]. unfold F. by rewrite zip_with_nil_r.
      - rewrite Hblock. simpl. eexists. split_and!; [done | apply lookup_insert_eq |].
        intros l Hne. by rewrite lookup_insert_ne. }
    exists h'. split; [done |]. split.
    + intros l Hnotin. rewrite Hrest; [by apply Hother |].
      intros ->. apply Hnotin. by eapply list_elem_of_lookup_2.
    + intros i l b Hi Hb. destruct (decide (i = m)) as [-> | Hne].
      * rewrite Hl in Hi. injection Hi as <-. rewrite Ha in Hb. injection Hb as <-.
        by rewrite bool_decide_eq_true_2 by lia.
      * rewrite Hrest.
        -- rewrite (Hblocks i l b Hi Hb). by repeat case_bool_decide; try lia.
        -- intros ->. apply Hne. by eapply NoDup_lookup.
  - exists h2. split_and!; [done | done |].
    apply mapM_Some. apply Forall2_same_length_lookup. split.
    { unfold restrict_poly. rewrite length_imap. done. }
    intros i l b Hl Hb. unfold restrict_poly in Hb.
    apply list_lookup_imap_Some in Hb as (a & Ha & ->).
    rewrite (Hblocks i l a Hl Ha), bool_decide_eq_true_2; [done |].
    rewrite length_imap. by eapply lookup_lt_Some.
Qed.

(** The restriction copies the blocks of a graded polynomial, leaves every
    array that existed before the call as it was, and returns the blocks of
    [restrict_poly]. *)
Lemma restrict_run (tol : Qc) (poly_H : list nat) (h : gmap nat (list Cx.t))
    (H : list (list Cx.t)) :
  graded_poly max_degree H → read_poly h poly_H = Some H →
  ∃ poly_cm h',
    _restrict_to_center_manifold clmo poly_H tol h = Some (poly_cm, h')
    ∧ (∀ l, is_Some (h !! l) → h' !! l = h !! l)
    ∧ read_poly h' poly_cm = Some (restrict_poly tol H).
Proof.
  intros Hgr Hread.
  destruct (copy_all_result poly_H h H Hread)
    as (poly_cm & h1 & Hcopy & Hnd & Hnew & Hold & Hread1).
  destruct (restrict_blocks_result tol poly_cm h1 H Hgr Hnd Hread1)
    as (h2 & Hloop & Hother & Hread2).
  exists poly_cm, h2. unfold _restrict_to_center_manifold.
  rewrite Hcopy. simpl. rewrite Hloop. simpl. split_and!; [done | | done].
  intros l Hl. rewrite Hother; [by apply Hold |].
  intros Hin%Hnew. rewrite Hin in Hl. by destruct Hl.
Qed.

End restrict.

Lemma restrict_poly_graded (max_degree : nat) (tol : Qc) (H : list (list Cx.t)) :
  graded_poly max_degree H → graded_poly max_degree (restrict_poly tol H).
Proof.
  intros Hgr deg block Hb. unfold restrict_poly in Hb.
  apply list_lookup_imap_Some in Hb as (a & Ha & ->).
  destruct (Hgr deg a Ha) as [Hdeg Hhom]. split; [done |].
  unfold homogeneous in *. rewrite length_zip_with, length_monomials. lia.
Qed.

Lemma restrict_poly_idemp (tol : Qc) (H : list (list Cx.t)) :
  restrict_poly tol (restrict_poly tol H) = restrict_poly tol H.
Proof.
  unfold restrict_poly. apply list_eq. intros deg.
  rewrite !list_lookup_imap. destruct (H !! deg) as [a |]; [| done]. simpl. f_equal.
  apply list_eq. intros pos. rewrite !lookup_zip_with.
  destruct (monomials N_VARS deg !! pos) as [k |]; [| done]. simpl.
  destruct (a !! pos) as [c |]; [| done]. simpl. by rewrite restrict_coeff_idemp.
Qed.

Lemma read_poly_preserved (h h' : gmap nat (list Cx.t)) (poly : list nat)
    (H : list (list Cx.t)) :
  (∀ l, is_Some (h !! l) → h' !! l = h !! l) →
  read_poly h poly = Some H → read_poly h' poly = Some H.
Proof.
  intros Hold Hread. apply mapM_Some. apply mapM_Some in Hread.
  eapply Forall2_impl; [done |]. intros l a Hl. simpl in *. rewrite Hold; [done |].
  by rewrite Hl.
Qed.

(** C3, as amended.  The restriction of a graded polynomial returns new blocks
    and leaves every array of the store that existed before the call, the
    blocks of the input among them, as it was.  A coefficient of the output is
    zero exactly when the coefficient of the input has magnitude at most [tol]
    (by default [1e-14]) or its exponent tuple has [k[0] != 0] or
    [k[3] != 0]; every other coefficient is copied unchanged. *)
Theorem restrict_zeroes_hyperbolic_or_small (max_degree : nat) (tol : Qc)
    (h : gmap nat (list Cx.t)) (poly_H : list nat) (H : list (list Cx.t)) :
  max_degree < 64 → graded_poly max_degree H → read_poly h poly_H = Some H →
  ∃ poly_cm h' H_cm,
    _restrict_to_center_manifold (init_index_tables max_degree).2 poly_H tol h
      = Some (poly_cm, h')
    ∧ (∀ l, is_Some (h !! l) → h' !! l = h !! l)
    ∧ read_poly h' poly_H = Some H
    ∧ read_poly h' poly_cm = Some H_cm
    ∧ length H_cm = length H
    ∧ ∀ deg block pos c, H !! deg = Some block → block !! pos = Some c →
        ∃ k block_cm,
          decode_multiindex pos deg (init_index_tables max_degree).2 = Some k
          ∧ H_cm !! deg = Some block_cm
          ∧ length block_cm = length block
          ∧ block_cm !! pos
            = Some (if Cx.abs_le c tol then Cx.zero
                    else if bool_decide (k !! 0 = Some 0 ∧ k !! 3 = Some 0) then c
                    else Cx.zero).
Proof.
  intros Hsmall Hgr Hread.
  destruct (restrict_run max_degree Hsmall tol poly_H h H Hgr Hread)
    as (poly_cm & h' & Hrun & Hold & Hread').
  exists poly_cm, h', (restrict_poly tol H). split_and!; [done | done | | done | |].
  - by eapply read_poly_preserved.
  - unfold restrict_poly. by rewrite length_imap.
  - intros deg block pos c Hb Hc. destruct (Hgr deg block Hb) as [Hdeg Hhom].
    assert (pos < length block) as Hpos by by eapply lookup_lt_Some.
    pose proof (length_monomials N_VARS deg) as Hmono. unfold homogeneous in Hhom.
    destruct (monomials N_VARS deg !! pos) as [k |] eqn:Hk;
      [| apply lookup_ge_None in Hk; lia].
    exists k, (zip_with (restrict_coeff tol) (monomials N_VARS deg) block).
    split_and!.
    + change (init_index_tables max_degree).2 with (init_clmo max_degree).
      by rewrite decode_init.
    + unfold restrict_poly. by rewrite list_lookup_imap, Hb.
    + rewrite length_zip_with. lia.
    + rewrite lookup_zip_with, Hk. simpl. by rewrite Hc.
Qed.

Lemma ones_poly_graded : graded_poly 1 ones_poly.
Proof.
  intros deg block Hb. destruct deg as [| [| deg]]; simpl in Hb; [| | done].
  - injection Hb as <-. split; [lia | reflexivity].
  - injection Hb as <-. split; [lia | reflexivity].
Qed.

Lemma restrict_zeroes_hyperbolic_or_small_witness :
  ∃ poly_cm h' H_cm,
    _restrict_to_center_manifold (init_index_tables 1).2 [0; 1] TOL_1E_14 ones_heap
      = Some (poly_cm, h')
    ∧ (∀ l, is_Some (ones_heap !! l) → h' !! l = ones_heap !! l)
    ∧ read_poly h' [0; 1] = Some ones_poly
    ∧ read_poly h' poly_cm = Some H_cm
    ∧ length H_cm = length ones_poly
    ∧ ∀ deg block pos c, ones_poly !! deg = Some block → block !! pos = Some c →
        ∃ k block_cm,
          decode_multiindex pos deg (init_index_tables 1).2 = Some k
          ∧ H_cm !! deg = Some block_cm
          ∧ length block_cm = length block
          ∧ block_cm !! pos
            = Some (if Cx.abs_le c TOL_1E_14 then Cx.zero
                    else if bool_decide (k !! 0 = Some 0 ∧ k !! 3 = Some 0) then c
                    else Cx.zero).
Proof.
  apply (restrict_zeroes_hyperbolic_or_small 1 TOL_1E_14 ones_heap [0; 1] ones_poly).
  - lia.
  - exact ones_poly_graded.
  - reflexivity.
Defined.

(** C3 as stated fails: the constant polynomial [1e-15] sits at the exponent
    tuple [(0,0,0,0,0,0)], which has [k[0] == 0] and [k[3] == 0], and yet the
    restriction returns the zero polynomial instead of a copy. *)
Lemma restrict_drops_small_center_coefficient :
  ∃ poly_cm h',
    _restrict_to_center_manifold (init_index_tables 0).2 [0] TOL_1E_14 tiny_heap
      = Some (poly_cm, h')
    ∧ read_poly tiny_heap [0] = Some [[tiny]]
    ∧ decode_multiindex 0 0 (init_index_tables 0).2 = Some [0; 0; 0; 0; 0; 0]
    ∧ read_poly h' poly_cm = Some [[Cx.zero]]
    ∧ tiny ≠ Cx.zero.
Proof.
  destruct (restrict_run 0 ltac:(lia) TOL_1E_14 [0] tiny_heap [[tiny]])
    as (poly_cm & h' & Hrun & _ & Hread).
  - intros deg block Hb. destruct deg as [| deg]; simpl in Hb; [| done].
    injection Hb as <-. split; [lia | reflexivity].
  - reflexivity.
  - exists poly_cm, h'. split_and!; [done | reflexivity | reflexivity | | done].
    rewrite Hread. reflexivity.
Qed.

(** C7.  Restricting the restricted polynomial returns the same polynomial
    again, and a nonzero coefficient of the restricted polynomial sits at an
    exponent tuple with [k[0] == 0] and [k[3] == 0]. *)
Theorem restrict_idempotent (max_degree : nat) (tol : Qc)
    (h : gmap nat (list Cx.t)) (poly_H : list nat) (H : list (list Cx.t)) :
  max_degree < 64 → graded_poly max_degree H → read_poly h poly_H = Some H →
  ∃ poly_cm h1 H_cm,
    _restrict_to_center_manifold (init_index_tables max_degree).2 poly_H tol h
      = Some (poly_cm, h1)
    ∧ read_poly h1 poly_cm = Some H_cm
    ∧ (∃ poly_cm2 h2,
         _restrict_to_center_manifold (init_index_tables max_degree).2 poly_cm tol h1
           = Some (poly_cm2, h2)
         ∧ read_poly h2 poly_cm2 = Some H_cm)
    ∧ ∀ deg block pos c, H_cm !! deg = Some block → block !! pos = Some c →
        c ≠ Cx.zero →
        ∃ k, decode_multiindex pos deg (init_index_tables max_degree).2 = Some k
             ∧ k !! 0 = Some 0 ∧ k !! 3 = Some 0.
Proof.
  intros Hsmall Hgr Hread.
  destruct (restrict_run max_degree Hsmall tol poly_H h H Hgr Hread)
    as (poly_cm & h1 & Hrun & _ & Hread1).
  pose proof (restrict_poly_graded max_degree tol H Hgr) as Hgr1.
  destruct (restrict_run max_degree Hsmall tol poly_cm h1 _ Hgr1 Hread1)
    as (poly_cm2 & h2 & Hrun2 & _ & Hread2).
  rewrite restrict_poly_idemp in Hread2.
  exists poly_cm, h1, (restrict_poly tol H). split_and!; [done | done | by eauto |].
  intros deg block pos c Hb Hc Hne. unfold restrict_poly in Hb.
  apply list_lookup_imap_Some in Hb as (a & Ha & ->).
  apply lookup_zip_with_Some in Hc as (k & c0 & -> & Hk & Hc0).
  destruct (Hgr deg a Ha) as [Hdeg _]. exists k.
  change (init_index_tables max_degree).2 with (init_clmo max_degree).
  rewrite decode_init by done.
  split; [done |]. unfold restrict_coeff in Hne.
  destruct (Cx.abs_le c0 tol); [done |]. by case_bool_decide.
Qed.

Lemma restrict_idempotent_witness :
  ∃ poly_cm h1 H_cm,
    _restrict_to_center_manifold (init_index_tables 1).2 [0; 1] TOL_1E_14 ones_heap
      = Some (poly_cm, h1)
    ∧ read_poly h1 poly_cm = Some H_cm
    ∧ (∃ poly_cm2 h2,
         _restrict_to_center_manifold (init_index_tables 1).2 poly_cm TOL_1E_14 h1
           = Some (poly_cm2, h2)
         ∧ read_poly h2 poly_cm2 = Some H_cm)
    ∧ ∀ deg block pos c, H_cm !! deg = Some block → block !! pos = Some c →
        c ≠ Cx.zero →
        ∃ k, decode_multiindex pos deg (init_index_tables 1).2 = Some k
             ∧ k !! 0 = Some 0 ∧ k !! 3 = Some 0.
Proof.
  apply (restrict_idempotent 1 TOL_1E_14 ones_heap [0; 1] ones_poly).
  - lia.
  - exact ones_poly_graded.
  - reflexivity.
Defined.

(** ** Claims about [_poly_mul] *)



Lemma tuple_add_zero_r (k : list nat) :
  length k = N_VARS → tuple_add k (replicate N_VARS 0) = k.
Proof.
  intros Hk.
  destruct k as [| a0 [| a1 [| a2 [| a3 [| a4 [| a5 [| ? ?]]]]]]]; try done.
  unfold tuple_add. simpl. by rewrite !Nat.add_0_r.
Qed.

(** C6.  Multiplying a homogeneous polynomial by the degree-0 unit polynomial
    [[1]] returns the polynomial. *)
Theorem poly_mul_unit (max_degree : nat) (sch : Sched) (p : list Cx.t) (d : nat) :
  max_degree < 64 → d ≤ max_degree → homogeneous d p →
  _poly_mul sch p d [Cx.one] 0 (init_index_tables max_degree).1
    (init_index_tables max_degree).2
    (_create_encode_dict_from_clmo (init_index_tables max_degree).2) = Some p
  ∧ psi_at (init_index_tables max_degree).1 N_VARS d = Some (length p).
Proof.
  intros Hsmall Hd Hp.
  change (init_index_tables max_degree).1 with (init_psi_table max_degree).
  change (init_index_tables max_degree).2 with (init_clmo max_degree).
  split; [| rewrite psi_at_init by (unfold N_VARS; lia); by rewrite Hp].
  destruct (poly_mul_result max_degree Hsmall sch p d [Cx.one] 0)
    as (r & -> & Hlen & Hconv); [lia | by rewrite Hp | done |].
  f_equal. rewrite Nat.add_0_r in Hlen, Hconv.
  apply (homogeneous_ext d); [done | done |].
  intros idx k Hk. rewrite (Hconv idx k Hk). unfold convolution.
  assert (idx < length p) as Hidx.
  { apply lookup_lt_Some in Hk. rewrite length_monomials in Hk. by rewrite Hp. }
  destruct (p !! idx) as [c |] eqn:Hc; [| apply lookup_ge_None in Hc; lia].
  rewrite (csum_with_single _ _ idx).
  - simpl. unfold range, csum_with. simpl. unfold pair_term.
    rewrite Hc. simpl. rewrite !decode_init, Hk by lia.
    change (monomials N_VARS 0 !! 0) with (Some (replicate N_VARS 0)).
    rewrite tuple_add_zero_r by (eapply elem_of_monomials, list_elem_of_lookup_2, Hk).
    rewrite bool_decide_eq_true_2 by done. f_equal. ring.
  - apply NoDup_seq.
  - apply elem_of_seq. lia.
  - intros i Hi%elem_of_seq Hne. unfold range, csum_with. simpl. unfold pair_term.
    destruct (p !! i); [| ring]. simpl. rewrite !decode_init by lia.
    change (monomials N_VARS 0 !! 0) with (Some (replicate N_VARS 0)).
    destruct (monomials N_VARS d !! i) as [ki |] eqn:Hki; [| ring].
    rewrite tuple_add_zero_r by (eapply elem_of_monomials, list_elem_of_lookup_2, Hki).
    rewrite bool_decide_eq_false_2; [ring |].
    intros ->. apply Hne. by eapply monomials_lookup_inj.
Qed.

Lemma poly_mul_unit_witness :
  _poly_mul two_workers linear_b 1 [Cx.one] 0 (init_index_tables 2).1
    (init_index_tables 2).2
    (_create_encode_dict_from_clmo (init_index_tables 2).2) = Some linear_b
  ∧ psi_at (init_index_tables 2).1 N_VARS 1 = Some (length linear_b).
Proof.
  apply (poly_mul_unit 2 two_workers linear_b 1).
  - lia.
  - lia.
  - reflexivity.
Defined.

(** ** Claims about [_poly_diff] and [_poly_integrate] *)

(** C5.  Within tables built for [max_degree], the integral of a homogeneous
    [p] of degree [d] with respect to a variable [v] in [0..5] is a
    homogeneous polynomial of degree [d+1]: the coefficient of [p] at [k],
    divided by [k[v]+1], sits at [k + e_v], and every tuple without the
    variable has coefficient zero.  Differentiating it with respect to [v]
    gives [p] back, whatever the schedule of the parallel loop. *)
Theorem diff_integrate_roundtrip (max_degree : nat) (sch : Sched) (p : list Cx.t)
    (v d : nat) :
  max_degree < 64 → d + 1 ≤ max_degree → v < N_VARS → homogeneous d p →
  ∃ ip,
    _poly_integrate p v d (init_index_tables max_degree).1
      (init_index_tables max_degree).2
      (_create_encode_dict_from_clmo (init_index_tables max_degree).2) = Some ip
    ∧ psi_at (init_index_tables max_degree).1 N_VARS (d + 1) = Some (length ip)
    ∧ _poly_diff sch ip v (d + 1) (init_index_tables max_degree).1
        (init_index_tables max_degree).2
        (_create_encode_dict_from_clmo (init_index_tables max_degree).2) = Some p
    ∧ (∀ i k e c,
         decode_multiindex i d (init_index_tables max_degree).2 = Some k →
         k !! v = Some e → p !! i = Some c →
         ∃ idx,
           encode_multiindex (<[v := e + 1]> k) (d + 1)
             (_create_encode_dict_from_clmo (init_index_tables max_degree).2)
           = Z.of_nat idx
           ∧ ip !! idx = Some (c / Cx.of_nat (e + 1))%cx)
    ∧ (∀ idx k,
         decode_multiindex idx (d + 1) (init_index_tables max_degree).2 = Some k →
         k !! v = Some 0 → ip !! idx = Some Cx.zero).
Proof.
  intros Hsmall Hdeg Hv Hp.
  change (init_index_tables max_degree).1 with (init_psi_table max_degree).
  change (init_index_tables max_degree).2 with (init_clmo max_degree).
  destruct (poly_integrate_result max_degree Hsmall p v d)
    as (ip & Hip & Hhom & Hcoef & Hconst); [done .. |].
  exists ip. split_and!.
  - done.
  - rewrite psi_at_init by (unfold N_VARS; lia). by rewrite Hhom.
  - replace (d + 1) with (S d) in * by lia.
    destruct (poly_diff_result max_degree Hsmall sch ip v d)
      as (dp & -> & Hdp & Hdiff); [done .. |].
    f_equal. apply (homogeneous_ext d); [done | done |].
    intros idx k Hk.
    assert (k ∈ monomials N_VARS d) as Hkin by by eapply list_elem_of_lookup_2.
    destruct (monomials_var d v k Hkin Hv) as [e He].
    destruct (monomials_position (d + 1) (<[v := e + 1]> k)) as [i0 Hi0];
      [by apply monomials_raise |].
    replace (d + 1) with (S d) in Hi0 by lia.
    destruct (p !! idx) as [c |] eqn:Hc.
    + rewrite (Hdiff idx k e i0 (c / Cx.of_nat (e + 1))%cx); [| done | done | done |].
      * f_equal. apply Cx_div_mul_cancel.
        replace (e + 1) with (S e) by lia. apply Cx_of_nat_S_nonzero.
      * by apply (Hcoef idx k e c i0).
    + apply lookup_ge_None in Hc. apply lookup_lt_Some in Hk.
      rewrite length_monomials in Hk. unfold homogeneous in Hp. lia.
  - intros i k e c Hk He Hc. rewrite decode_init in Hk by lia.
    assert (k ∈ monomials N_VARS d) as Hkin by by eapply list_elem_of_lookup_2.
    destruct (monomials_position (d + 1) (<[v := e + 1]> k)) as [idx Hidx];
      [by apply monomials_raise |].
    exists idx. split.
    + by apply (encode_init max_degree Hsmall).
    + by apply (Hcoef i k e c idx).
  - intros idx k Hk Hk0. rewrite decode_init in Hk by lia. by apply (Hconst idx k).
Qed.

Lemma diff_integrate_roundtrip_witness :
  ∃ ip,
    _poly_integrate linear_b 4 1 (init_index_tables 2).1 (init_index_tables 2).2
      (_create_encode_dict_from_clmo (init_index_tables 2).2) = Some ip
    ∧ psi_at (init_index_tables 2).1 N_VARS (1 + 1) = Some (length ip)
    ∧ _poly_diff two_workers ip 4 (1 + 1) (init_index_tables 2).1
        (init_index_tables 2).2
        (_create_encode_dict_from_clmo (init_index_tables 2).2) = Some linear_b
    ∧ (∀ i k e c,
         decode_multiindex i 1 (init_index_tables 2).2 = Some k →
         k !! 4 = Some e → linear_b !! i = Some c →
         ∃ idx,
           encode_multiindex (<[4 := e + 1]> k) (1 + 1)
             (_create_encode_dict_from_clmo (init_index_tables 2).2)
           = Z.of_nat idx
           ∧ ip !! idx = Some (c / Cx.of_nat (e + 1))%cx)
    ∧ (∀ idx k,
         decode_multiindex idx (1 + 1) (init_index_tables 2).2 = Some k →
         k !! 4 = Some 0 → ip !! idx = Some Cx.zero).
Proof.
  apply (diff_integrate_roundtrip 2 two_workers linear_b 4 1).
  - lia.
  - lia.
  - unfold N_VARS. lia.
  - reflexivity.
Defined.

(** ** Claims about [_poly_poisson] *)

(** C4.  Within tables built for [max_degree], the bracket of homogeneous
    polynomials of degrees [deg_p >= 1] and [deg_q >= 1] is returned with
    [psi[N_VARS, deg_p+deg_q-2]] coefficients, and the bracket with the
    arguments exchanged is its negation, coefficient by coefficient.  When
    either degree is zero the result is the zero constant polynomial. *)
Theorem poly_poisson_antisymmetric (max_degree : nat) (sch : Sched)
    (p : list Cx.t) (deg_p : nat) (q : list Cx.t) (deg_q : nat) :
  max_degree < 64 →
  1 ≤ deg_p → 1 ≤ deg_q → deg_p ≤ max_degree → deg_q ≤ max_degree →
  deg_p + deg_q - 2 ≤ max_degree → homogeneous deg_p p → homogeneous deg_q q →
  (∃ r,
     _poly_poisson sch p deg_p q deg_q (init_index_tables max_degree).1
       (init_index_tables max_degree).2
       (_create_encode_dict_from_clmo (init_index_tables max_degree).2) = Some r
     ∧ psi_at (init_index_tables max_degree).1 N_VARS (deg_p + deg_q - 2)
       = Some (length r)
     ∧ _poly_poisson sch q deg_q p deg_p (init_index_tables max_degree).1
         (init_index_tables max_degree).2
         (_create_encode_dict_from_clmo (init_index_tables max_degree).2)
       = Some (Cx.opp <$> r))
  ∧ (∀ (p0 q0 : list Cx.t) (d : nat),
       _poly_poisson sch p0 0 q0 d (init_index_tables max_degree).1
         (init_index_tables max_degree).2
         (_create_encode_dict_from_clmo (init_index_tables max_degree).2)
       = Some [Cx.zero]
       ∧ _poly_poisson sch p0 d q0 0 (init_index_tables max_degree).1
           (init_index_tables max_degree).2
           (_create_encode_dict_from_clmo (init_index_tables max_degree).2)
         = Some [Cx.zero]).
Proof.
  intros Hsmall Hp1 Hq1 Hp Hq Hr Hhp Hhq.
  change (init_index_tables max_degree).1 with (init_psi_table max_degree).
  change (init_index_tables max_degree).2 with (init_clmo max_degree).
  split.
  - destruct deg_p as [| a]; [lia |]. destruct deg_q as [| b]; [lia |].
    replace (S a + S b - 2) with (a + b) in * by lia.
    destruct (poly_poisson_defined max_degree sch a b p q)
      as (t1 & t2 & Hterms & Hpq); [done .. |].
    eexists. split_and!; [done | |].
    + rewrite psi_at_init by (unfold N_VARS; lia). f_equal. symmetry.
      destruct (Hterms 0) as (_ & _ & ? & ?); [lia |].
      destruct (Hterms 1) as (_ & _ & ? & ?); [lia |].
      destruct (Hterms 2) as (_ & _ & ? & ?); [lia |].
      repeat apply bracket_step_length; try done.
      unfold np_zeros. by rewrite length_replicate.
    + rewrite (poly_poisson_result max_degree sch b a q p t2 t1); [| done | lia |].
      * rewrite <- !bracket_step_opp, opp_zeros. by rewrite (Nat.add_comm b a).
      * intros m Hm. destruct (Hterms m Hm) as (H1 & H2 & Hh1 & Hh2).
        destruct (poisson_terms_swap max_degree sch a b p q m) as [Hs1 Hs2];
          [done .. |].
        rewrite Hs1, Hs2, (Nat.add_comm b a). done.
  - intros p0 q0 d. unfold _poly_poisson.
    rewrite (bool_decide_eq_true_2 (0 = 0)) by done.
    rewrite orb_true_r. cbn [orb].
    rewrite psi_at_init by (unfold N_VARS; lia). done.
Qed.

Lemma poly_poisson_antisymmetric_witness :
  (∃ r,
     _poly_poisson two_workers quadratic_a 2 quadratic_b 2 (init_index_tables 2).1
       (init_index_tables 2).2
       (_create_encode_dict_from_clmo (init_index_tables 2).2) = Some r
     ∧ psi_at (init_index_tables 2).1 N_VARS (2 + 2 - 2) = Some (length r)
     ∧ _poly_poisson two_workers quadratic_b 2 quadratic_a 2 (init_index_tables 2).1
         (init_index_tables 2).2
         (_create_encode_dict_from_clmo (init_index_tables 2).2)
       = Some (Cx.opp <$> r))
  ∧ (∀ (p0 q0 : list Cx.t) (d : nat),
       _poly_poisson two_workers p0 0 q0 d (init_index_tables 2).1
         (init_index_tables 2).2
         (_create_encode_dict_from_clmo (init_index_tables 2).2)
       = Some [Cx.zero]
       ∧ _poly_poisson two_workers p0 d q0 0 (init_index_tables 2).1
           (init_index_tables 2).2
           (_create_encode_dict_from_clmo (init_index_tables 2).2)
         = Some [Cx.zero]).
Proof.
  apply (poly_poisson_antisymmetric 2 two_workers quadratic_a 2 quadratic_b 2).
  - lia.
  - lia.
  - lia.
  - lia.
  - lia.
  - simpl. lia.
  - reflexivity.
  - reflexivity.
Defined.

(** ** Claims about the homological equation *)

Lemma Cx_opp_zero : (- Cx.zero)%cx = Cx.zero.
Proof. ring. Qed.


Lemma bad_quadratic_only_bad (pos : nat) (k : list nat) (c : Cx.t) :
  decode_multiindex pos 2 (init_index_tables 2).2 = Some k →
  bad_quadratic !! pos = Some c → k !! 0 = k !! 3 → c = Cx.zero.
Proof.
  intros Hk Hc Hgood.
  do 21 (destruct pos as [| pos];
         [vm_compute in Hk; injection Hk as <-; simpl in Hgood, Hc; congruence |]).
  vm_compute in Hk. discriminate Hk.
Qed.

(** ** [_get_degree] *)

Lemma psi_count_pos (v d : nat) : 1 ≤ psi_count (S v) d.
Proof.
  induction d as [| d IH]; [by rewrite psi_count_0 |].
  rewrite psi_count_S. lia.
Qed.

Lemma psi_count_lt_S (v d : nat) : psi_count (S (S v)) d < psi_count (S (S v)) (S d).
Proof. rewrite psi_count_S. pose proof (psi_count_pos v (S d)). lia. Qed.

Lemma psi_count_strict (v d d' : nat) :
  d < d' → psi_count (S (S v)) d < psi_count (S (S v)) d'.
Proof.
  induction 1 as [| d' _ IH]; [apply psi_count_lt_S |].
  pose proof (psi_count_lt_S v d'). lia.
Qed.

(** A length is the size of at most one degree. *)
Lemma homogeneous_degree_unique (d d' : nat) (p : list Cx.t) :
  homogeneous d p → homogeneous d' p → d = d'.
Proof.
  unfold homogeneous, N_VARS. intros H H'.
  destruct (Nat.lt_trichotomy d d') as [Hlt | [-> | Hlt]]; [| done |];
    apply (psi_count_strict 4) in Hlt; lia.
Qed.

Lemma psi_shape1_init (max_degree : nat) :
  psi_shape1 (init_psi_table max_degree) = S max_degree.
Proof. unfold psi_shape1, init_psi_table. simpl. by rewrite length_fmap, length_seq. Qed.

(** The search loop of [_get_degree] over the degrees [a, a + n). *)
Lemma get_degree_loop (max_degree num_coeffs a n : nat) :
  a + n ≤ S max_degree →
  for_each_return (seq a n)
    (λ d (_ : unit),
       m ← psi_at (init_psi_table max_degree) N_VARS d;
       if bool_decide (m = num_coeffs) then Some (inr (Z.of_nat d)) else Some (inl tt))
    tt
  = match list_find (λ d, psi_count N_VARS d = num_coeffs) (seq a n) with
    | Some (_, d) => Some (inr (Z.of_nat d))
    | None => Some (inl tt)
    end.
Proof.
  revert a. induction n as [| n IH]; intros a Hn; [done |].
  cbn [seq for_each_return list_find].
  rewrite psi_at_init by (unfold N_VARS; lia). cbn [mbind option_bind].
  case_bool_decide as Hm.
  - by rewrite decide_True.
  - rewrite decide_False by done. rewrite IH by lia.
    destruct (list_find _ (seq (S a) n)) as [[i d] |]; done.
Qed.

Lemma get_degree_homogeneous (max_degree d : nat) (p : list Cx.t) :
  d ≤ max_degree → homogeneous d p →
  _get_degree p (init_psi_table max_degree) = Some (Z.of_nat d).
Proof.
  intros Hd Hp. unfold _get_degree.
  pose proof (psi_count_pos 5 d) as Hpos. fold N_VARS in Hpos.
  rewrite bool_decide_eq_false_2 by (rewrite Hp; lia).
  rewrite psi_shape1_init. unfold range. rewrite get_degree_loop by lia.
  destruct (list_find _ _) as [[i d'] |] eqn:Hfind.
  - apply list_find_Some in Hfind as (_ & Hd' & _). cbn [mbind option_bind].
    by rewrite (homogeneous_degree_unique d' d p).
  - apply list_find_None in Hfind. rewrite Forall_forall in Hfind.
    destruct (Hfind d); [apply elem_of_seq; lia | by symmetry].
Qed.

(** X1.  Within tables built for [max_degree], [_get_degree] recovers the
    degree of a homogeneous coefficient array from its length. *)
Theorem get_degree_of_homogeneous (max_degree d : nat) (p : list Cx.t) :
  d ≤ max_degree → homogeneous d p →
  _get_degree p (init_index_tables max_degree).1 = Some (Z.of_nat d).
Proof. apply get_degree_homogeneous. Qed.

Lemma get_degree_of_homogeneous_witness :
  _get_degree linear_b (init_index_tables 2).1 = Some (Z.of_nat 1).
Proof. apply get_degree_of_homogeneous; [lia | reflexivity]. Defined.

(** X2.  [_get_degree] never raises on tables built by [init_index_tables].
    It returns [-1] exactly when the length of the array is the size of no
    degree of the tables, which is the case of the empty array; any other
    result is a degree of the tables whose size is the length of the array. *)
Theorem get_degree_result (max_degree : nat) (p : list Cx.t) :
  ∃ r, _get_degree p (init_index_tables max_degree).1 = Some r
       ∧ ((r = (-1)%Z ∧ ∀ d, d ≤ max_degree → ¬ homogeneous d p)
          ∨ (∃ d, r = Z.of_nat d ∧ d ≤ max_degree ∧ homogeneous d p))
       ∧ (p = [] → r = (-1)%Z).
Proof.
  assert (∀ d, length p = 0 → ¬ homogeneous d p) as Hempty.
  { intros d H0 Hd. pose proof (psi_count_pos 5 d) as Hpos. fold N_VARS in Hpos.
    unfold homogeneous in Hd. lia. }
  change (init_index_tables max_degree).1 with (init_psi_table max_degree).
  unfold _get_degree. case_bool_decide as Hlen.
  - eexists. split_and!; [done | | done]. left. split; [done |]. intros d _. by apply Hempty.
  - rewrite psi_shape1_init. unfold range. rewrite get_degree_loop by lia.
    destruct (list_find _ _) as [[i d] |] eqn:Hfind; cbn [mbind option_bind].
    + apply list_find_Some in Hfind as (Hi & Hd & _).
      apply lookup_seq in Hi as [-> Hi].
      eexists. split_and!; [done | | by intros ->].
      right. exists i. split_and!; [done | lia | done].
    + apply list_find_None in Hfind. rewrite Forall_forall in Hfind.
      eexists. split_and!; [done | | done]. left. split; [done |].
      intros d Hd Hh. apply (Hfind d); [apply elem_of_seq; lia | done].
Qed.
(** ** [_poly_evaluate] *)

Lemma Cx_mul_one_l (x : Cx.t) : (Cx.one * x)%cx = x.
Proof. ring. Qed.

Lemma cpow_add (c : Cx.t) (a b : nat) : cpow c (a + b) = (cpow c a * cpow c b)%cx.
Proof. induction a as [| a IH]; simpl; [ring | rewrite IH; ring]. Qed.

Lemma cpow_S_r (c : Cx.t) (n : nat) : cpow c (S n) = (cpow c n * c)%cx.
Proof. simpl. ring. Qed.

(** The product of a list of coefficients. *)
Lemma cprod_app (l1 l2 : list Cx.t) :
  foldr Cx.mul Cx.one (l1 ++ l2)
  = (foldr Cx.mul Cx.one l1 * foldr Cx.mul Cx.one l2)%cx.
Proof. induction l1 as [| x l1 IH]; simpl; [ring | rewrite IH; ring]. Qed.

Lemma array2_set_row (T : list (list Cx.t)) (v j : nat) (x : Cx.t) (row : list Cx.t) :
  T !! v = Some row → j < length row →
  array2_set T v j x = Some (<[v := <[j := x]> row]> T).
Proof.
  intros Hrow Hj. unfold array2_set. rewrite Hrow. cbn [mbind option_bind].
  by rewrite array_set_Some.
Qed.

Lemma array2_at_row (T : list (list Cx.t)) (v j : nat) (row : list Cx.t) :
  T !! v = Some row → array2_at T v j = row !! j.
Proof. intros Hrow. unfold array2_at. by rewrite Hrow. Qed.

(** The powers [base^0 .. base^degree] of one variable. *)
Lemma pow_row_loop (T : list (list Cx.t)) (v degree : nat) (base : Cx.t)
    (row : list Cx.t) :
  T !! v = Some row → length row = degree + 1 →
  (T ← array2_set T v 0 Cx.one;
   for_each (range_from_1 degree)
     (λ e T, prev ← array2_at T v (e - 1); array2_set T v e (prev * base)%cx) T)
  = Some (<[v := cpow base <$> seq 0 (degree + 1)]> T).
Proof.
  intros Hrow Hlen.
  assert (v < length T) as Hv by by eapply lookup_lt_Some.
  rewrite (array2_set_row T v 0 Cx.one row) by (done || lia).
  cbn [mbind option_bind].
  destruct (for_each_invariant_idx
    (λ i T', T' = <[v := (cpow base <$> seq 0 (S i)) ++ drop (S i) row]> T)
    (range_from_1 degree)
    (λ e T, prev ← array2_at T v (e - 1); array2_set T v e (prev * base)%cx)
    (<[v := <[0 := Cx.one]> row]> T)) as (T' & -> & HT').
  - f_equal. destruct row; [simpl in Hlen; lia | done].
  - intros i e T' He ->. unfold range_from_1 in He.
    apply lookup_seq in He as [-> Hi]. cbn [Nat.add].
    assert (length (cpow base <$> seq 0 (S i)) = S i) as Hws
      by by rewrite length_fmap, length_seq.
    rewrite Nat.sub_succ, Nat.sub_0_r.
    rewrite (array2_at_row _ v i _ (list_lookup_insert_eq T v _ Hv)).
    rewrite lookup_app_l by lia.
    rewrite list_lookup_fmap, lookup_seq_lt by lia.
    cbn [fmap option_fmap option_map mbind option_bind Nat.add].
    rewrite (array2_set_row _ v (S i) _ _ (list_lookup_insert_eq T v _ Hv))
      by (rewrite length_app, length_drop; lia).
    eexists. split; [done |].
    rewrite list_insert_insert_eq. f_equal.
    pose proof (insert_written_prefix (cpow base <$> seq 0 (S i)) row
                  (cpow base i * base)%cx) as Hins.
    rewrite Hws in Hins. rewrite Hins by lia.
    rewrite (seq_S (S i)), fmap_app. cbn [fmap list_fmap Nat.add]. by rewrite cpow_S_r.
  - unfold range_from_1 in HT'. rewrite length_seq in HT'. rewrite HT'.
    rewrite drop_ge, app_nil_r by lia. by rewrite Nat.add_1_r.
Qed.

(** The table of powers built by the first loop of [_poly_evaluate]. *)
Lemma pow_table_loop (degree : nat) (point : list Cx.t) :
  N_VARS ≤ length point →
  for_each (range N_VARS)
    (λ v pow_table,
       pow_table ← array2_set pow_table v 0 Cx.one;
       base ← point !! v;
       for_each (range_from_1 degree)
         (λ e pow_table,
            prev ← array2_at pow_table v (e - 1);
            array2_set pow_table v e (prev * base)%cx)
         pow_table)
    (replicate N_VARS (np_zeros (degree + 1)))
  = Some ((λ base, cpow base <$> seq 0 (degree + 1)) <$> take N_VARS point).
Proof.
  intros Hpoint.
  destruct (for_each_invariant_idx
    (λ i T, i ≤ N_VARS ∧
       T = ((λ base, cpow base <$> seq 0 (degree + 1)) <$> take i point)
           ++ replicate (N_VARS - i) (np_zeros (degree + 1)))
    (range N_VARS)
    (λ v pow_table,
       pow_table ← array2_set pow_table v 0 Cx.one;
       base ← point !! v;
       for_each (range_from_1 degree)
         (λ e pow_table,
            prev ← array2_at pow_table v (e - 1);
            array2_set pow_table v e (prev * base)%cx)
         pow_table)
    (replicate N_VARS (np_zeros (degree + 1)))) as (T' & -> & _ & HT').
  - split; [lia |]. by rewrite take_0, Nat.sub_0_r.
  - intros i v T Hv [Hi ->]. apply lookup_seq in Hv as [-> Hv]. cbn [Nat.add].
    destruct (point !! i) as [base |] eqn:Hbase;
      [| apply lookup_ge_None in Hbase; lia].
    set (rows := (λ base, cpow base <$> seq 0 (degree + 1)) <$> take i point).
    assert (length rows = i) as Hrows
      by (unfold rows; rewrite length_fmap, length_take; lia).
    set (T := rows ++ replicate (N_VARS - i) (np_zeros (degree + 1))).
    assert (T !! i = Some (np_zeros (degree + 1))) as Hrow.
    { unfold T. rewrite lookup_app_r, Hrows, Nat.sub_diag by lia.
      apply lookup_replicate_2. lia. }
    assert (length (np_zeros (degree + 1)) = degree + 1) as Hzl
      by (unfold np_zeros; by rewrite length_replicate).
    pose proof (pow_row_loop T i degree base _ Hrow Hzl) as Hloop.
    rewrite (array2_set_row T i 0 Cx.one _ Hrow) in Hloop |- * by lia.
    cbn [mbind option_bind] in Hloop |- *. rewrite Hloop.
    eexists. split; [done |]. split; [lia |].
    unfold T. rewrite (take_S_r point i base) by done. rewrite fmap_app.
    cbn [fmap list_fmap]. fold rows.
    replace (N_VARS - i) with (S (N_VARS - S i)) by lia. cbn [replicate].
    replace i with (length rows + 0) at 1 by lia.
    rewrite insert_app_r. cbn [insert list_insert]. by rewrite <- app_assoc.
  - unfold range in HT'. rewrite length_seq in HT'. rewrite HT'.
    by rewrite Nat.sub_diag, app_nil_r.
Qed.

(** The product of the powers read from the table is the value of the
    monomial. *)
Lemma term_val_loop (degree : nat) (point : list Cx.t) (exps : list nat) :
  N_VARS ≤ length point → length exps = N_VARS → Forall (λ e, e ≤ degree) exps →
  for_each (range N_VARS)
    (λ v term_val,
       ev ← exps !! v;
       pw ← array2_at ((λ base, cpow base <$> seq 0 (degree + 1)) <$> take N_VARS point)
              v ev;
       Some (term_val * pw)%cx)
    Cx.one
  = Some (monomial_value point exps).
Proof.
  intros Hpoint Hexps Hle.
  destruct (for_each_invariant_idx
    (λ i t, t = foldr Cx.mul Cx.one (take i (zip_with cpow point exps)))
    (range N_VARS)
    (λ v term_val,
       ev ← exps !! v;
       pw ← array2_at ((λ base, cpow base <$> seq 0 (degree + 1)) <$> take N_VARS point)
              v ev;
       Some (term_val * pw)%cx)
    Cx.one) as (t & -> & Ht).
  - by rewrite take_0.
  - intros i v t Hv ->. apply lookup_seq in Hv as [-> Hv]. cbn [Nat.add].
    destruct (exps !! i) as [ev |] eqn:Hev; [| apply lookup_ge_None in Hev; lia].
    destruct (point !! i) as [base |] eqn:Hbase;
      [| apply lookup_ge_None in Hbase; lia].
    assert (ev ≤ degree) as Hev_le.
    { rewrite Forall_forall in Hle. apply Hle. by eapply list_elem_of_lookup_2. }
    cbn [mbind option_bind]. unfold array2_at.
    rewrite list_lookup_fmap, lookup_take_lt, Hbase by done.
    cbn [fmap option_fmap option_map mbind option_bind].
    rewrite list_lookup_fmap, lookup_seq_lt by lia.
    cbn [fmap option_fmap option_map mbind option_bind Nat.add].
    eexists. split; [done |].
    rewrite (take_S_r _ i (cpow base ev)).
    + rewrite cprod_app. simpl. ring.
    + apply lookup_zip_with_Some. by exists base, ev.
  - unfold range in Ht. rewrite length_seq in Ht. rewrite Ht.
    rewrite take_ge; [done |]. rewrite length_zip_with. lia.
Qed.

Lemma term_value_zero (p : list Cx.t) (d : nat) (point : list Cx.t) (i : nat) :
  p !! i = Some Cx.zero → term_value p d point i = Cx.zero.
Proof.
  intros H. unfold term_value. rewrite H.
  destruct (monomials N_VARS d !! i); [ring | done].
Qed.

Lemma poly_evaluate_result (max_degree : nat) (p : list Cx.t) (d : nat)
    (point : list Cx.t) :
  max_degree < 64 → d ≤ max_degree →
  length p ≤ psi_count N_VARS d → N_VARS ≤ length point →
  _poly_evaluate p d point (init_clmo max_degree) = Some (poly_value p d point).
Proof.
  intros Hsmall Hd Hp Hpoint. unfold _poly_evaluate.
  case_bool_decide as Hempty.
  { unfold poly_value. by rewrite Hempty. }
  rewrite pow_table_loop by done. cbn [mbind option_bind].
  destruct (for_each_invariant_idx
    (λ i s, s = csum_with (term_value p d point) (seq 0 i))
    (range (length p))
    (λ i current_sum,
       coeff_val ← p !! i;
       if Cx.eqb coeff_val Cx.zero then Some current_sum else
       exps ← decode_multiindex i d (init_clmo max_degree);
       term_val ← for_each (range N_VARS)
         (λ v term_val,
            ev ← exps !! v;
            pw ← array2_at
                   ((λ base, cpow base <$> seq 0 (d + 1)) <$> take N_VARS point) v ev;
            Some (term_val * pw)%cx)
         Cx.one;
       Some (current_sum + coeff_val * term_val)%cx)
    Cx.zero) as (s & -> & Hs).
  - done.
  - intros i x s Hx ->. apply lookup_seq in Hx as [-> Hi]. cbn [Nat.add].
    destruct (p !! i) as [c |] eqn:Hc; [| apply lookup_ge_None in Hc; lia].
    cbn [mbind option_bind].
    rewrite seq_S, csum_with_app, csum_with_cons, csum_with_nil. cbn [Nat.add].
    destruct (Cx.eqb c Cx.zero) eqn:Hz.
    + apply Cx_eqb_eq in Hz as ->. eexists. split; [done |].
      rewrite term_value_zero by done. ring.
    + rewrite decode_init by done.
      destruct (monomials N_VARS d !! i) as [k |] eqn:Hk;
        [| apply lookup_ge_None in Hk; rewrite length_monomials in Hk; lia].
      cbn [mbind option_bind].
      assert (k ∈ monomials N_VARS d) as Hin by by eapply list_elem_of_lookup_2.
      apply elem_of_monomials in Hin as [Hl Hsum].
      rewrite term_val_loop; [| done | done |].
      * cbn [mbind option_bind]. eexists. split; [done |].
        unfold term_value. rewrite Hc, Hk. ring.
      * apply Forall_forall. intros e He. apply sum_list_bound in He. lia.
  - unfold range in Hs. rewrite length_seq in Hs. by rewrite Hs.
Qed.

(** X3.  Within tables built for [max_degree], [_poly_evaluate] returns the
    value of the polynomial at the point: the sum over the positions of the
    array of the coefficient times the product of the coordinates raised to
    the exponents of the position.  The value of the empty array is zero. *)
Theorem poly_evaluate_value (max_degree : nat) (p : list Cx.t) (d : nat)
    (point : list Cx.t) :
  max_degree < 64 → d ≤ max_degree →
  length p ≤ psi_count N_VARS d → N_VARS ≤ length point →
  _poly_evaluate p d point (init_index_tables max_degree).2
  = Some (csum_with
            (λ i, match p !! i, decode_multiindex i d (init_index_tables max_degree).2 with
                  | Some c, Some k =>
                      (c * foldr Cx.mul Cx.one (zip_with cpow point k))%cx
                  | _, _ => Cx.zero
                  end)
            (range (length p))).
Proof.
  change (init_index_tables max_degree).2 with (init_clmo max_degree).
  intros Hsmall Hd Hp Hpoint. rewrite (poly_evaluate_result max_degree) by done.
  f_equal. apply csum_with_ext. intros i _. unfold term_value.
  by rewrite decode_init.
Qed.

Lemma poly_evaluate_value_witness :
  _poly_evaluate linear_b 1 sample_point (init_index_tables 2).2
  = Some (csum_with
            (λ i, match linear_b !! i, decode_multiindex i 1 (init_index_tables 2).2 with
                  | Some c, Some k =>
                      (c * foldr Cx.mul Cx.one (zip_with cpow sample_point k))%cx
                  | _, _ => Cx.zero
                  end)
            (range (length linear_b))).
Proof.
  apply (poly_evaluate_value 2 linear_b 1 sample_point);
    [lia | lia | vm_compute; lia | vm_compute; lia].
Defined.
(** ** [_poly_evaluate] and the arithmetic kernels *)

Lemma csum_with_mul_r {A : Type} (c : Cx.t) (f : A → Cx.t) (l : list A) :
  csum_with (λ x, (f x * c)%cx) l = (csum_with f l * c)%cx.
Proof.
  induction l as [| x l IH]; [rewrite !csum_with_nil; ring |].
  rewrite !csum_with_cons, IH. ring.
Qed.

(** The value of a product of monomials. *)
Lemma monomial_value_add (point : list Cx.t) (ki kj : list nat) :
  length ki = length kj →
  monomial_value point (tuple_add ki kj)
  = (monomial_value point ki * monomial_value point kj)%cx.
Proof.
  unfold monomial_value, tuple_add. revert ki kj.
  induction point as [| x point IH]; intros ki kj Hl.
  - simpl. ring.
  - destruct ki as [| a ki], kj as [| b kj]; simplify_eq/=; [ring |].
    rewrite IH, cpow_add by done. ring.
Qed.

Section evaluate_mul.
Context (max_degree : nat).
Hypothesis max_degree_small : max_degree < 64.
Local Abbreviation clmo := (init_clmo max_degree).

(** The terms of the product that the pair of positions [(i, j)] feeds add up
    to the product of the two terms. *)
Lemma pair_term_value (p : list Cx.t) (deg_p : nat) (q : list Cx.t) (deg_q : nat)
    (point : list Cx.t) (i j : nat) :
  deg_p + deg_q ≤ max_degree →
  csum_with
    (λ idx, match monomials N_VARS (deg_p + deg_q) !! idx with
            | Some k => (pair_term clmo p deg_p q deg_q k i j * monomial_value point k)%cx
            | None => Cx.zero
            end)
    (range (psi_count N_VARS (deg_p + deg_q)))
  = (term_value p deg_p point i * term_value q deg_q point j)%cx.
Proof.
  intros Hd. unfold term_value, pair_term.
  rewrite !decode_init by (done || lia).
  destruct (p !! i) as [pi |] eqn:Hpi; cycle 1.
  { rewrite csum_with_zero; [ring |]. intros idx _.
    destruct (monomials N_VARS (deg_p + deg_q) !! idx); [ring | done]. }
  destruct (q !! j) as [qj |] eqn:Hqj; cycle 1.
  { rewrite csum_with_zero; [destruct (monomials N_VARS deg_p !! i); ring |].
    intros idx _. destruct (monomials N_VARS (deg_p + deg_q) !! idx); [ring | done]. }
  destruct (monomials N_VARS deg_p !! i) as [ki |] eqn:Hki; cycle 1.
  { rewrite csum_with_zero; [ring |]. intros idx _.
    destruct (monomials N_VARS (deg_p + deg_q) !! idx); [ring | done]. }
  destruct (monomials N_VARS deg_q !! j) as [kj |] eqn:Hkj; cycle 1.
  { rewrite csum_with_zero; [ring |]. intros idx _.
    destruct (monomials N_VARS (deg_p + deg_q) !! idx); [ring | done]. }
  assert (ki ∈ monomials N_VARS deg_p) as Hki_in by by eapply list_elem_of_lookup_2.
  assert (kj ∈ monomials N_VARS deg_q) as Hkj_in by by eapply list_elem_of_lookup_2.
  destruct (monomials_position (deg_p + deg_q) (tuple_add ki kj)) as [pos Hpos];
    [by apply tuple_add_monomials |].
  apply elem_of_monomials in Hki_in as [Hli _].
  apply elem_of_monomials in Hkj_in as [Hlj _].
  rewrite (csum_with_single _ _ pos).
  - rewrite Hpos, bool_decide_eq_true_2 by done.
    rewrite monomial_value_add by congruence. ring.
  - apply NoDup_seq.
  - apply elem_of_seq. apply lookup_lt_Some in Hpos.
    rewrite length_monomials in Hpos. lia.
  - intros idx _ Hne.
    destruct (monomials N_VARS (deg_p + deg_q) !! idx) as [k |] eqn:Hk; [| done].
    rewrite bool_decide_eq_false_2; [ring |]. intros <-.
    apply Hne. by eapply monomials_lookup_inj.
Qed.

Lemma poly_value_mul (sch : Sched) (p : list Cx.t) (deg_p : nat) (q : list Cx.t)
    (deg_q : nat) (point : list Cx.t) :
  deg_p + deg_q ≤ max_degree →
  length p ≤ psi_count N_VARS deg_p → length q ≤ psi_count N_VARS deg_q →
  ∃ r,
    _poly_mul sch p deg_p q deg_q (init_psi_table max_degree) clmo
      (_create_encode_dict_from_clmo clmo) = Some r
    ∧ homogeneous (deg_p + deg_q) r
    ∧ poly_value r (deg_p + deg_q) point
      = (poly_value p deg_p point * poly_value q deg_q point)%cx.
Proof.
  intros Hd Hp Hq.
  destruct (poly_mul_result max_degree max_degree_small sch p deg_p q deg_q)
    as (r & Hr & Hlen & Hconv); [done .. |].
  exists r. split_and!; [done | done |].
  unfold poly_value. rewrite Hlen.
  rewrite (csum_with_ext _
    (λ idx, csum_with
       (λ i, csum_with
          (λ j, match monomials N_VARS (deg_p + deg_q) !! idx with
                | Some k =>
                    (pair_term clmo p deg_p q deg_q k i j * monomial_value point k)%cx
                | None => Cx.zero
                end)
          (range (length q)))
       (range (length p)))).
  - rewrite csum_with_swap.
    rewrite <- csum_with_mul_r. apply csum_with_ext. intros i _.
    rewrite csum_with_swap.
    rewrite <- csum_with_mul_l. apply csum_with_ext. intros j _.
    by apply pair_term_value.
  - intros idx Hidx. apply elem_of_seq in Hidx. unfold term_value.
    destruct (monomials N_VARS (deg_p + deg_q) !! idx) as [k |] eqn:Hk;
      [| apply lookup_ge_None in Hk; rewrite length_monomials in Hk; lia].
    rewrite (Hconv idx k Hk). unfold convolution.
    rewrite <- csum_with_mul_r. apply csum_with_ext. intros i _.
    by rewrite <- csum_with_mul_r.
Qed.

End evaluate_mul.



(** The value of a sum and of a multiple. *)
Lemma term_value_add (p q : list Cx.t) (d : nat) (point : list Cx.t) (i : nat) :
  length p = length q →
  term_value (zip_with Cx.add p q) d point i
  = (term_value p d point i + term_value q d point i)%cx.
Proof.
  intros Hl. unfold term_value. rewrite lookup_zip_with.
  destruct (p !! i) as [a |] eqn:Ha; cbn [mbind option_bind].
  - destruct (q !! i) as [b |] eqn:Hb; cbn [mbind option_bind].
    + destruct (monomials N_VARS d !! i); ring.
    + apply lookup_lt_Some in Ha. apply lookup_ge_None in Hb. lia.
  - destruct (q !! i) as [b |] eqn:Hb; [| ring].
    apply lookup_lt_Some in Hb. apply lookup_ge_None in Ha. lia.
Qed.

Lemma term_value_scale (alpha : Cx.t) (p : list Cx.t) (d : nat) (point : list Cx.t)
    (i : nat) :
  term_value (Cx.mul alpha <$> p) d point i = (alpha * term_value p d point i)%cx.
Proof.
  unfold term_value. rewrite list_lookup_fmap.
  destruct (p !! i) as [a |]; cbn [fmap option_fmap option_map]; [| ring].
  destruct (monomials N_VARS d !! i); ring.
Qed.



(** The value of a monomial at a scaled point. *)
Lemma cpow_mul (t x : Cx.t) (n : nat) : cpow (t * x) n = (cpow t n * cpow x n)%cx.
Proof. induction n as [| n IH]; simpl; [ring | rewrite IH; ring]. Qed.

Lemma monomial_value_scaled (t : Cx.t) (point : list Cx.t) (k : list nat) :
  length k ≤ length point →
  monomial_value (Cx.mul t <$> point) k
  = (cpow t (sum_list k) * monomial_value point k)%cx.
Proof.
  unfold monomial_value. revert k.
  induction point as [| x point IH]; intros k Hl.
  - destruct k; [simpl; ring | simpl in Hl; lia].
  - destruct k as [| e k]; [simpl; ring |].
    cbn [fmap list_fmap zip_with foldr sum_list sum_list_with].
    simpl in Hl. rewrite IH by lia. rewrite cpow_mul, cpow_add.
    change (id e) with e. ring.
Qed.


(** ** [_poly_evaluate] outside the tables *)

Lemma evaluate_loop_beyond (max_degree degree : nat) (p : list Cx.t)
    (T : list (list Cx.t)) (n a : nat) (s : Cx.t) :
  max_degree < degree → a + n ≤ length p →
  for_each (seq a n)
    (λ i current_sum,
       coeff_val ← p !! i;
       if Cx.eqb coeff_val Cx.zero then Some current_sum else
       exps ← decode_multiindex i degree (init_clmo max_degree);
       term_val ← for_each (range N_VARS)
         (λ v term_val, ev ← exps !! v; pw ← array2_at T v ev; Some (term_val * pw)%cx)
         Cx.one;
       Some (current_sum + coeff_val * term_val)%cx)
    s
  = if bool_decide (Forall (λ c, c = Cx.zero) (take n (drop a p))) then Some s else None.
Proof.
  intros Hdeg. revert a s. induction n as [| n IH]; intros a s Han.
  - rewrite take_0. by rewrite bool_decide_eq_true_2.
  - cbn [seq]. rewrite for_each_cons.
    destruct (p !! a) as [c |] eqn:Hc; [| apply lookup_ge_None in Hc; lia].
    rewrite (drop_S _ _ _ Hc). cbn [take mbind option_bind].
    destruct (Cx.eqb c Cx.zero) eqn:Hz.
    + apply Cx_eqb_eq in Hz as ->. cbn [mbind option_bind]. rewrite IH by lia.
      repeat case_bool_decide; try done; exfalso.
      * match goal with H : ¬ Forall _ (_ :: _) |- _ => apply H end. by constructor.
      * match goal with H : Forall _ (_ :: _) |- _ => apply Forall_cons in H as [_ H] end.
        done.
    + apply Cx_eqb_neq in Hz. rewrite decode_init_beyond by done.
      cbn [mbind option_bind]. rewrite bool_decide_eq_false_2; [done |].
      by intros [? _]%Forall_cons.
Qed.

(** X7.  With a degree beyond the tables, [_poly_evaluate] consults the
    tables for the nonzero coefficients only: the value of an array of zeros
    is zero, and an array with a nonzero coefficient raises. *)
Theorem poly_evaluate_beyond_tables (max_degree degree : nat) (p point : list Cx.t) :
  max_degree < degree → N_VARS ≤ length point →
  _poly_evaluate p degree point (init_index_tables max_degree).2
  = if bool_decide (Forall (λ c, c = Cx.zero) p) then Some Cx.zero else None.
Proof.
  change (init_index_tables max_degree).2 with (init_clmo max_degree).
  intros Hdeg Hpoint. unfold _poly_evaluate. case_bool_decide as Hempty.
  - apply length_zero_iff_nil in Hempty as ->. by rewrite bool_decide_eq_true_2.
  - rewrite pow_table_loop by done. cbn [mbind option_bind]. unfold range.
    rewrite (evaluate_loop_beyond max_degree degree p) by (done || lia).
    by rewrite drop_0, firstn_all.
Qed.

Lemma poly_evaluate_beyond_tables_witness :
  _poly_evaluate linear_b 3 sample_point (init_index_tables 2).2
  = if bool_decide (Forall (λ c, c = Cx.zero) linear_b) then Some Cx.zero else None.
Proof.
  apply (poly_evaluate_beyond_tables 2 3 linear_b sample_point);
    [lia | vm_compute; lia].
Defined.

(** ** [_evaluate_reduced_monomial] *)

(** A returning loop whose iterations multiply the state by a factor or
    return zero. *)
Lemma for_each_return_factors {A : Type} (xs : list A) (factor : A → option Cx.t)
    (body : A → Cx.t → option (Cx.t + Cx.t)) (r : Cx.t) :
  (∀ x s, x ∈ xs →
     body x s = Some (match factor x with
                      | Some f => inl (s * f)%cx
                      | None => inr Cx.zero
                      end)) →
  for_each_return xs body r
  = Some (match mapM factor xs with
          | Some fs => inl (r * foldr Cx.mul Cx.one fs)%cx
          | None => inr Cx.zero
          end).
Proof.
  revert r. induction xs as [| x xs IH]; intros r Hbody.
  - simpl. do 2 f_equal. ring.
  - cbn [for_each_return]. rewrite Hbody by apply list_elem_of_here.
    cbn [mapM]. destruct (factor x) as [f |]; [| done].
    rewrite IH by (intros; apply Hbody; by apply list_elem_of_further).
    cbn [mbind option_bind]. destruct (mapM factor xs) as [fs |]; [| done].
    cbn [mbind option_bind mret option_ret foldr]. do 2 f_equal. ring.
Qed.

Lemma reduced_monomial_factors (k : list nat) (coords : list Cx.t) (var_idx : nat)
    (exp_change : Z) :
  length k = 6 → 6 ≤ length coords →
  _evaluate_reduced_monomial k coords var_idx exp_change
  = Some (match mapM (reduced_factor k coords var_idx exp_change) (range 6) with
          | Some fs => foldr Cx.mul Cx.one fs
          | None => Cx.zero
          end).
Proof.
  intros Hk Hcoords. unfold _evaluate_reduced_monomial.
  rewrite (for_each_return_factors _ (reduced_factor k coords var_idx exp_change)).
  - cbn [mbind option_bind]. destruct (mapM _ _); [| done]. f_equal. ring.
  - intros i s Hi. apply elem_of_seq in Hi. unfold reduced_factor.
    destruct (k !! i) as [ki |] eqn:Hki; [| apply lookup_ge_None in Hki; lia].
    destruct (coords !! i) as [c |] eqn:Hc; [| apply lookup_ge_None in Hc; lia].
    cbn [mbind option_bind default from_option id].
    destruct (bool_decide (i = var_idx));
      (destruct (bool_decide _); cbn [mbind option_bind];
       [destruct (Cx.abs_le c TOL_1E_15); cbn [negb] |]);
      first [done | do 2 f_equal; ring].
Qed.

(** X8.  When no coordinate with a positive exponent has magnitude at most
    [1e-15], [_evaluate_reduced_monomial] with no change of exponent returns
    the value of the monomial, the product of the coordinates raised to their
    exponents. *)
Theorem reduced_monomial_unchanged (k : list nat) (coords : list Cx.t) (var_idx : nat) :
  length k = 6 → 6 ≤ length coords →
  Forall (λ ec, 0 < ec.1 → Cx.abs_le ec.2 TOL_1E_15 = false) (zip k coords) →
  _evaluate_reduced_monomial k coords var_idx 0
  = Some (foldr Cx.mul Cx.one (zip_with cpow coords k)).
Proof.
  intros Hk Hcoords Hbig. rewrite reduced_monomial_factors by done.
  rewrite (mapM_Some_2 _ _ (zip_with cpow coords k)); [done |].
  apply Forall2_same_length_lookup_2.
  { unfold range. rewrite length_seq, length_zip_with. lia. }
  intros i x f Hx Hf. apply lookup_seq in Hx as [-> Hi]. cbn [Nat.add].
  apply lookup_zip_with_Some in Hf as (c & e & -> & Hc & He).
  unfold reduced_factor. rewrite He, Hc. cbn [default from_option id].
  replace (if bool_decide (i = var_idx) then (Z.of_nat e + 0)%Z else Z.of_nat e)
    with (Z.of_nat e) by (case_bool_decide; lia).
  case_bool_decide as Hpos.
  - rewrite Forall_forall in Hbig.
    assert (Cx.abs_le c TOL_1E_15 = false) as ->.
    { apply (Hbig (e, c)); [| simpl; lia].
      apply list_elem_of_lookup. exists i. apply lookup_zip_with_Some. by exists e, c. }
    by rewrite Nat2Z.id.
  - by replace e with 0 by lia.
Qed.

Lemma reduced_monomial_unchanged_witness :
  _evaluate_reduced_monomial [2; 0; 1; 0; 0; 0] sample_point 0 0
  = Some (foldr Cx.mul Cx.one (zip_with cpow sample_point [2; 0; 1; 0; 0; 0])).
Proof.
  apply reduced_monomial_unchanged; [reflexivity | vm_compute; lia |].
  repeat constructor.
Defined.



(** Raising the factor of one position multiplies the product. *)
Lemma factors_shift {A : Type} `{!EqDecision A} (xs : list A)
    (f g : A → option Cx.t) (x0 : A) (a c : Cx.t) :
  NoDup xs → x0 ∈ xs → (∀ x, x ≠ x0 → f x = g x) →
  f x0 = Some a → g x0 = Some (a * c)%cx →
  match mapM f xs, mapM g xs with
  | Some fs, Some gs => foldr Cx.mul Cx.one gs = (foldr Cx.mul Cx.one fs * c)%cx
  | None, None => True
  | _, _ => False
  end.
Proof.
  intros Hnd Hin Hne Hf Hg.
  induction Hnd as [| x xs Hx Hnd IH]; [by apply elem_of_nil in Hin |].
  cbn [mapM]. destruct (decide (x = x0)) as [-> | Hxx0].
  - rewrite Hf, Hg. cbn [mbind option_bind].
    rewrite (Forall_mapM_ext f g xs).
    + destruct (mapM g xs) as [gs |]; cbn [mbind option_bind mret option_ret foldr];
        [ring | done].
    + apply Forall_forall. intros y Hy. apply Hne. by intros ->.
  - rewrite (Hne x Hxx0). destruct (g x) as [b |]; cbn [mbind option_bind].
    + apply elem_of_cons in Hin as [-> | Hin]; [done |]. specialize (IH Hin).
      destruct (mapM f xs) as [fs |], (mapM g xs) as [gs |];
        cbn [mbind option_bind mret option_ret foldr]; try done.
      rewrite IH. ring.
    + apply elem_of_cons in Hin as [-> | Hin]; [done |]. specialize (IH Hin).
      by destruct (mapM f xs), (mapM g xs).
Qed.


(** ** Laws of [_poly_mul] *)



Lemma pair_term_add (clmo : Clmo) (p q : list Cx.t) (deg_p : nat) (r : list Cx.t)
    (deg_r : nat) (k : list nat) (i j : nat) :
  length p = length q →
  pair_term clmo (zip_with Cx.add p q) deg_p r deg_r k i j
  = (pair_term clmo p deg_p r deg_r k i j + pair_term clmo q deg_p r deg_r k i j)%cx.
Proof.
  intros Hl. unfold pair_term. rewrite lookup_zip_with.
  destruct (p !! i) as [a |] eqn:Ha, (q !! i) as [b |] eqn:Hb; cbn [mbind option_bind].
  - destruct (r !! j); [| ring].
    destruct (decode_multiindex i deg_p clmo); [| ring].
    destruct (decode_multiindex j deg_r clmo); [| ring].
    case_bool_decide; ring.
  - apply lookup_lt_Some in Ha. apply lookup_ge_None in Hb. lia.
  - apply lookup_lt_Some in Hb. apply lookup_ge_None in Ha. lia.
  - ring.
Qed.

Lemma pair_term_scale (clmo : Clmo) (alpha : Cx.t) (p : list Cx.t) (deg_p : nat)
    (r : list Cx.t) (deg_r : nat) (k : list nat) (i j : nat) :
  pair_term clmo (Cx.mul alpha <$> p) deg_p r deg_r k i j
  = (alpha * pair_term clmo p deg_p r deg_r k i j)%cx.
Proof.
  unfold pair_term. rewrite list_lookup_fmap.
  destruct (p !! i) as [a |]; cbn [fmap option_fmap option_map]; [| ring].
  destruct (r !! j); [| ring].
  destruct (decode_multiindex i deg_p clmo); [| ring].
  destruct (decode_multiindex j deg_r clmo); [| ring].
  case_bool_decide; ring.
Qed.

Lemma convolution_add (clmo : Clmo) (p q : list Cx.t) (deg_p : nat) (r : list Cx.t)
    (deg_r : nat) (k : list nat) :
  length p = length q →
  convolution clmo (zip_with Cx.add p q) deg_p r deg_r k
  = (convolution clmo p deg_p r deg_r k + convolution clmo q deg_p r deg_r k)%cx.
Proof.
  intros Hl. unfold convolution. rewrite length_zip_with.
  replace (length p `min` length q) with (length p) by lia.
  replace (length q) with (length p) by lia.
  rewrite <- csum_with_add. apply csum_with_ext. intros i _.
  rewrite <- csum_with_add. apply csum_with_ext. intros j _.
  apply pair_term_add. lia.
Qed.

Lemma convolution_scale (clmo : Clmo) (alpha : Cx.t) (p : list Cx.t) (deg_p : nat)
    (r : list Cx.t) (deg_r : nat) (k : list nat) :
  convolution clmo (Cx.mul alpha <$> p) deg_p r deg_r k
  = (alpha * convolution clmo p deg_p r deg_r k)%cx.
Proof.
  unfold convolution. rewrite length_fmap.
  rewrite <- csum_with_mul_l. apply csum_with_ext. intros i _.
  rewrite <- csum_with_mul_l. apply csum_with_ext. intros j _.
  apply pair_term_scale.
Qed.


(** ** Laws of [_poly_diff], [_poly_poisson] and the cleaning kernels *)

(** X13.  Within tables built for [max_degree], the derivative of a
    homogeneous polynomial of degree [d' + 1] with respect to a variable
    [var] in [0..5] has [psi[N_VARS, d']] coefficients: the one at the
    exponent tuple [k] is [k[var] + 1] times the coefficient of the input at
    [k + e_var].  The derivative of a polynomial of degree zero is [[0]]. *)
Theorem poly_diff_coefficients (max_degree : nat) (sch : Sched) (p : list Cx.t)
    (var d' : nat) :
  max_degree < 64 → S d' ≤ max_degree → var < N_VARS → homogeneous (S d') p →
  (∃ dp,
     _poly_diff sch p var (S d') (init_index_tables max_degree).1
       (init_index_tables max_degree).2
       (_create_encode_dict_from_clmo (init_index_tables max_degree).2) = Some dp
     ∧ psi_at (init_index_tables max_degree).1 N_VARS d' = Some (length dp)
     ∧ ∀ idx k,
         decode_multiindex idx d' (init_index_tables max_degree).2 = Some k →
         ∃ e i0 c,
           k !! var = Some e
           ∧ encode_multiindex (<[var := e + 1]> k) (S d')
               (_create_encode_dict_from_clmo (init_index_tables max_degree).2)
             = Z.of_nat i0
           ∧ p !! i0 = Some c
           ∧ dp !! idx = Some (c * Cx.of_nat (e + 1))%cx)
  ∧ (∀ p0 : list Cx.t,
       _poly_diff sch p0 var 0 (init_index_tables max_degree).1
         (init_index_tables max_degree).2
         (_create_encode_dict_from_clmo (init_index_tables max_degree).2)
       = Some [Cx.zero]).
Proof.
  change (init_index_tables max_degree).1 with (init_psi_table max_degree).
  change (init_index_tables max_degree).2 with (init_clmo max_degree).
  intros Hsmall Hd Hvar Hp. split.
  - destruct (poly_diff_result max_degree Hsmall sch p var d') as (dp & Hdp & Hh & Hc);
      [done .. |].
    exists dp. split_and!; [done | |].
    + rewrite psi_at_init by (unfold N_VARS; lia). by rewrite Hh.
    + intros idx k Hk. rewrite decode_init in Hk by (done || lia).
      assert (k ∈ monomials N_VARS d') as Hin by by eapply list_elem_of_lookup_2.
      destruct (monomials_var d' var k) as [e He]; [done .. |].
      pose proof (monomials_raise d' var e k Hin He) as Hraise.
      replace (d' + 1) with (S d') in Hraise by lia.
      destruct (monomials_position _ _ Hraise) as [i0 Hi0].
      destruct (p !! i0) as [c |] eqn:Hpc; cycle 1.
      { apply lookup_ge_None in Hpc. apply lookup_lt_Some in Hi0.
        rewrite length_monomials in Hi0. unfold homogeneous in Hp. lia. }
      exists e, i0, c. split_and!; [done | | done |].
      * by apply (encode_init max_degree Hsmall).
      * by apply (Hc idx k e i0 c).
  - intros p0. unfold _poly_diff. rewrite bool_decide_eq_true_2 by done.
    rewrite psi_at_init by (unfold N_VARS; lia). done.
Qed.

Lemma poly_diff_coefficients_witness :
  (∃ dp,
     _poly_diff two_workers quadratic_a 3 (S 1) (init_index_tables 2).1
       (init_index_tables 2).2
       (_create_encode_dict_from_clmo (init_index_tables 2).2) = Some dp
     ∧ psi_at (init_index_tables 2).1 N_VARS 1 = Some (length dp)
     ∧ ∀ idx k,
         decode_multiindex idx 1 (init_index_tables 2).2 = Some k →
         ∃ e i0 c,
           k !! 3 = Some e
           ∧ encode_multiindex (<[3 := e + 1]> k) (S 1)
               (_create_encode_dict_from_clmo (init_index_tables 2).2)
             = Z.of_nat i0
           ∧ quadratic_a !! i0 = Some c
           ∧ dp !! idx = Some (c * Cx.of_nat (e + 1))%cx)
  ∧ (∀ p0 : list Cx.t,
       _poly_diff two_workers p0 3 0 (init_index_tables 2).1
         (init_index_tables 2).2
         (_create_encode_dict_from_clmo (init_index_tables 2).2)
       = Some [Cx.zero]).
Proof.
  apply (poly_diff_coefficients 2 two_workers quadratic_a 3 1);
    [lia | lia | unfold N_VARS; lia | reflexivity].
Defined.

Section diff_commute.
Context (max_degree : nat).
Hypothesis max_degree_small : max_degree < 64.
Local Abbreviation psi := (init_psi_table max_degree).
Local Abbreviation clmo := (init_clmo max_degree).
Local Abbreviation encode_dict_list := (_create_encode_dict_from_clmo (init_clmo max_degree)).

(** A coefficient of a second derivative with respect to two different
    variables. *)
Lemma diff_diff_lookup (sch : Sched) (p pa r : list Cx.t) (a b d : nat)
    (idx : nat) (k : list nat) (ea eb i2 : nat) (c : Cx.t) :
  S (S d) ≤ max_degree → a < N_VARS → b < N_VARS → a ≠ b →
  homogeneous (S (S d)) p →
  _poly_diff sch p a (S (S d)) psi clmo encode_dict_list = Some pa →
  _poly_diff sch pa b (S d) psi clmo encode_dict_list = Some r →
  monomials N_VARS d !! idx = Some k → k !! a = Some ea → k !! b = Some eb →
  monomials N_VARS (S (S d)) !! i2 = Some (<[a := ea + 1]> (<[b := eb + 1]> k)) →
  p !! i2 = Some c →
  r !! idx = Some (c * Cx.of_nat (ea + 1) * Cx.of_nat (eb + 1))%cx.
Proof.
  intros Hd Ha Hb Hab Hp Hpa Hr Hk Hea Heb Hi2 Hc.
  destruct (poly_diff_result max_degree max_degree_small sch p a (S d))
    as (pa' & Hpa' & Hha & Hca); [done .. |].
  rewrite Hpa in Hpa'. injection Hpa' as <-.
  destruct (poly_diff_result max_degree max_degree_small sch pa b d)
    as (r' & Hr' & Hhr & Hcr); [lia | done | done |].
  rewrite Hr in Hr'. injection Hr' as <-.
  assert (k ∈ monomials N_VARS d) as Hin by by eapply list_elem_of_lookup_2.
  pose proof (monomials_raise d b eb k Hin Heb) as Hraise.
  replace (d + 1) with (S d) in Hraise by lia.
  destruct (monomials_position _ _ Hraise) as [i1 Hi1].
  apply (Hcr idx k eb i1); [done | done | done |].
  apply (Hca i1 (<[b := eb + 1]> k) ea i2); [done | | done | done].
  by rewrite list_lookup_insert_ne.
Qed.

Lemma poly_diff_commute_ne (sch : Sched) (p : list Cx.t) (a b d : nat) :
  S (S d) ≤ max_degree → a < N_VARS → b < N_VARS → a ≠ b →
  homogeneous (S (S d)) p →
  ∃ pa pb r,
    _poly_diff sch p a (S (S d)) psi clmo encode_dict_list = Some pa
    ∧ _poly_diff sch p b (S (S d)) psi clmo encode_dict_list = Some pb
    ∧ _poly_diff sch pa b (S d) psi clmo encode_dict_list = Some r
    ∧ _poly_diff sch pb a (S d) psi clmo encode_dict_list = Some r.
Proof.
  intros Hd Ha Hb Hab Hp.
  destruct (poly_diff_result max_degree max_degree_small sch p a (S d))
    as (pa & Hpa & Hha & _); [done .. |].
  destruct (poly_diff_result max_degree max_degree_small sch p b (S d))
    as (pb & Hpb & Hhb & _); [done .. |].
  destruct (poly_diff_result max_degree max_degree_small sch pa b d)
    as (r1 & Hr1 & Hh1 & _); [lia | done | done |].
  destruct (poly_diff_result max_degree max_degree_small sch pb a d)
    as (r2 & Hr2 & Hh2 & _); [lia | done | done |].
  exists pa, pb, r1. split_and!; [done .. |]. rewrite Hr2. f_equal.
  apply (homogeneous_ext d); [done .. |]. intros idx k Hk.
  assert (k ∈ monomials N_VARS d) as Hin by by eapply list_elem_of_lookup_2.
  destruct (monomials_var d a k) as [ea Hea]; [done .. |].
  destruct (monomials_var d b k) as [eb Heb]; [done .. |].
  pose proof (monomials_raise d b eb k Hin Heb) as Hraise1.
  assert (<[b := eb + 1]> k !! a = Some ea) as Hea'
    by by rewrite list_lookup_insert_ne.
  pose proof (monomials_raise (d + 1) a ea _ Hraise1 Hea') as Hraise2.
  replace (d + 1 + 1) with (S (S d)) in Hraise2 by lia.
  destruct (monomials_position _ _ Hraise2) as [i2 Hi2].
  destruct (p !! i2) as [c |] eqn:Hpc; cycle 1.
  { apply lookup_ge_None in Hpc. apply lookup_lt_Some in Hi2.
    rewrite length_monomials in Hi2. unfold homogeneous in Hp. lia. }
  rewrite (diff_diff_lookup sch p pb r2 b a d idx k eb ea i2 c); try done.
  - rewrite (diff_diff_lookup sch p pa r1 a b d idx k ea eb i2 c); try done.
    f_equal. ring.
  - by rewrite list_insert_insert_ne.
Qed.

End diff_commute.



Lemma bracket_step_cancel (r t : list Cx.t) :
  length t = length r → bracket_step r t t = r.
Proof.
  intros Hl. unfold bracket_step. apply list_eq. intros i.
  rewrite !lookup_zip_with.
  destruct (r !! i) as [x |] eqn:Hx; [| done].
  destruct (t !! i) as [y |] eqn:Hy;
    [| apply lookup_lt_Some in Hx; apply lookup_ge_None in Hy; lia].
  cbn [mbind option_bind]. f_equal. ring.
Qed.



Lemma clean_coeff_compose (tol1 tol2 : Qc) (c : Cx.t) :
  (tol1 ≤ tol2)%Qc → clean_coeff tol2 (clean_coeff tol1 c) = clean_coeff tol2 c.
Proof.
  intros Htol. unfold clean_coeff at 2.
  destruct (Cx.abs_le c tol1) eqn:H1; [| done].
  assert (clean_coeff tol2 Cx.zero = Cx.zero) as ->
    by (unfold clean_coeff; by destruct (Cx.abs_le Cx.zero tol2)).
  unfold Cx.abs_le in H1. apply andb_true_iff in H1 as [H0 Hn].
  apply bool_decide_eq_true in H0. apply bool_decide_eq_true in Hn.
  unfold clean_coeff, Cx.abs_le.
  rewrite bool_decide_eq_true_2 by (by etrans).
  rewrite bool_decide_eq_true_2; [done |].
  etrans; [exact Hn |]. etrans.
  - apply Qcmult_le_compat_r; [exact Htol | done].
  - rewrite (Qcmult_comm tol2 tol1). apply Qcmult_le_compat_r; [exact Htol |].
    by etrans.
Qed.

(** X16.  Cleaning twice is cleaning once at the larger tolerance: for
    [tol1 <= tol2], cleaning at [tol2] the array cleaned at [tol1] gives the
    array cleaned at [tol2]; in particular cleaning at one tolerance is
    idempotent, in place and out of place. *)
Theorem poly_clean_compose (p out : list Cx.t) (tol1 tol2 : Qc) :
  (tol1 ≤ tol2)%Qc → length out = length p →
  ∃ r1 r2,
    _poly_clean_inplace p tol1 = Some r1
    ∧ _poly_clean_inplace p tol2 = Some r2
    ∧ _poly_clean_inplace r1 tol2 = Some r2
    ∧ _poly_clean r1 tol2 out = Some r2
    ∧ _poly_clean_inplace r2 tol2 = Some r2.
Proof.
  intros Htol Hout. rewrite !poly_clean_inplace_result.
  eexists _, _. split_and!; [done | done | | |].
  - rewrite poly_clean_inplace_result. f_equal. rewrite <- list_fmap_compose.
    apply list_fmap_ext. intros i c _. by apply clean_coeff_compose.
  - rewrite poly_clean_result by (rewrite length_fmap; lia).
    rewrite drop_ge, app_nil_r by (rewrite length_fmap; lia).
    f_equal. rewrite <- list_fmap_compose.
    apply list_fmap_ext. intros i c _. by apply clean_coeff_compose.
  - rewrite poly_clean_inplace_result. f_equal. rewrite <- list_fmap_compose.
    apply list_fmap_ext. intros i c _. by apply clean_coeff_compose.
Qed.

Lemma poly_clean_compose_witness :
  ∃ r1 r2,
    _poly_clean_inplace [tiny; Cx.one] TOL_1E_15 = Some r1
    ∧ _poly_clean_inplace [tiny; Cx.one] TOL_1E_14 = Some r2
    ∧ _poly_clean_inplace r1 TOL_1E_14 = Some r2
    ∧ _poly_clean r1 TOL_1E_14 [Cx.zero; Cx.zero] = Some r2
    ∧ _poly_clean_inplace r2 TOL_1E_14 = Some r2.
Proof.
  apply (poly_clean_compose [tiny; Cx.one] [Cx.zero; Cx.zero] TOL_1E_15 TOL_1E_14);
    [by vm_compute | reflexivity].
Defined.
(** ** Edge cases of [substitute_linear] *)

(** A loop with an iteration that raises in every state raises. *)
Lemma for_each_raises_at {A St : Type} (xs : list A) (body : A → St → option St)
    (x : A) (s : St) :
  x ∈ xs → (∀ s', body x s' = None) → for_each xs body s = None.
Proof.
  intros Hx Hnone. revert s. induction xs as [| y xs IH]; intros s.
  - by apply elem_of_nil in Hx.
  - cbn [for_each]. apply elem_of_cons in Hx as [<- | Hx]; [by rewrite Hnone |].
    destruct (body y s); [by apply IH | done].
Qed.

(** A loop whose iterations all leave the state alone. *)
Lemma for_each_skip {A St : Type} (xs : list A) (body : A → St → option St) (s : St) :
  (∀ x, x ∈ xs → body x s = Some s) → for_each xs body s = Some s.
Proof.
  induction xs as [| y xs IH]; intros Hskip; [done |].
  cbn [for_each]. rewrite Hskip by apply list_elem_of_here.
  apply IH. intros x Hx. apply Hskip. by apply list_elem_of_further.
Qed.

Lemma np_any_zeros (p : list Cx.t) : Forall (λ c, c = Cx.zero) p → np_any p = false.
Proof.
  unfold np_any. induction 1 as [| c p -> _ IH]; [done |].
  cbn [existsb]. rewrite IH. by rewrite (proj2 (Cx_eqb_eq Cx.zero Cx.zero)).
Qed.

(** X17.  [substitute_linear] reads the blocks [poly_old[0 .. max_deg]]: given
    fewer than [max_deg + 1] blocks it raises, whatever the graded operations
    compute. *)
Theorem substitute_linear_short_input
    (polynomial_variable :
       nat → nat → PsiTable → Clmo → EncodeDicts → option (list (list Cx.t)))
    (polynomial_zero_list : nat → PsiTable → option (list (list Cx.t)))
    (polynomial_add_inplace :
       list (list Cx.t) → list (list Cx.t) → Cx.t → nat → option (list (list Cx.t)))
    (polynomial_multiply polynomial_power : _)
    (poly_old C : list (list Cx.t)) (max_deg : nat)
    (psi : PsiTable) (clmo : Clmo) (encode_dict_list : EncodeDicts) :
  length poly_old ≤ max_deg →
  substitute_linear polynomial_variable polynomial_zero_list polynomial_add_inplace
    polynomial_multiply polynomial_power poly_old C max_deg psi clmo encode_dict_list
  = None.
Proof.
  intros Hshort. unfold substitute_linear.
  destruct (_linear_variable_polys _ _ _ _ _ _ _ _) as [var_polys |]; [| done].
  cbn [mbind option_bind].
  destruct (polynomial_zero_list max_deg psi) as [poly_new |]; [| done].
  cbn [mbind option_bind].
  rewrite (for_each_raises_at _ _ (length poly_old)); [done | |].
  - apply elem_of_seq. lia.
  - intros s. by rewrite (proj2 (lookup_ge_None poly_old (length poly_old))).
Qed.

Lemma substitute_linear_short_input_witness :
  substitute_linear polynomial_variable polynomial_zero_list polynomial_add_inplace
    (polynomial_multiply two_workers) (polynomial_power two_workers)
    [np_zeros 1; np_zeros 6] identity_matrix 2 psi_2 clmo_2 encode_2
  = None.
Proof. apply substitute_linear_short_input. simpl. lia. Defined.

(** X18.  A polynomial whose coefficients are all zero is never expanded:
    [substitute_linear] calls neither the power nor the product of graded
    polynomials, and returns the cleaned zero list. *)
Theorem substitute_linear_zero_input
    (polynomial_variable :
       nat → nat → PsiTable → Clmo → EncodeDicts → option (list (list Cx.t)))
    (polynomial_zero_list : nat → PsiTable → option (list (list Cx.t)))
    (polynomial_add_inplace :
       list (list Cx.t) → list (list Cx.t) → Cx.t → nat → option (list (list Cx.t)))
    (polynomial_multiply polynomial_power : _)
    (poly_old C : list (list Cx.t)) (max_deg : nat)
    (psi : PsiTable) (clmo : Clmo) (encode_dict_list : EncodeDicts)
    (var_polys : list (list (list Cx.t))) (zero_list : list (list Cx.t)) :
  _linear_variable_polys polynomial_variable polynomial_zero_list polynomial_add_inplace
    C max_deg psi clmo encode_dict_list = Some var_polys →
  polynomial_zero_list max_deg psi = Some zero_list →
  max_deg < length poly_old →
  Forall (Forall (λ c, c = Cx.zero)) poly_old →
  substitute_linear polynomial_variable polynomial_zero_list polynomial_add_inplace
    polynomial_multiply polynomial_power poly_old C max_deg psi clmo encode_dict_list
  = Some ((λ p : list Cx.t, clean_coeff TOL_1E_14 <$> p) <$> zero_list).
Proof.
  intros Hvars Hzero Hlen Hall. unfold substitute_linear.
  rewrite Hvars, Hzero. cbn [mbind option_bind].
  rewrite for_each_skip.
  - cbn [mbind option_bind]. apply polynomial_clean_result.
  - intros deg Hdeg. apply elem_of_seq in Hdeg.
    destruct (poly_old !! deg) as [p |] eqn:Hp; [| apply lookup_ge_None in Hp; lia].
    cbn [mbind option_bind]. rewrite np_any_zeros; [done |].
    rewrite Forall_forall in Hall. apply Hall. by eapply list_elem_of_lookup_2.
Qed.

Lemma substitute_linear_zero_input_witness :
  substitute_linear polynomial_variable polynomial_zero_list polynomial_add_inplace
    (λ _ _ _ _ _ _, None) (λ _ _ _ _ _ _, None)
    [np_zeros 1; np_zeros 6; np_zeros 21] identity_matrix 2 psi_2 clmo_2 encode_2
  = Some ((λ p : list Cx.t, clean_coeff TOL_1E_14 <$> p)
            <$> [np_zeros 1; np_zeros 6; np_zeros 21]).
Proof.
  eapply substitute_linear_zero_input;
    [vm_compute; reflexivity | reflexivity | simpl; lia | repeat constructor].
Defined.

(** A loop that appends one element in every iteration. *)
Lemma for_each_append_length {A B : Type} (xs : list A)
    (body : A → list B → option (list B)) (L0 L : list B) :
  (∀ x L L', body x L = Some L' → length L' = S (length L)) →
  for_each xs body L0 = Some L → length L = length L0 + length xs.
Proof.
  intros Hbody. revert L0. induction xs as [| x xs IH]; intros L0 HL.
  - injection HL as <-. simpl. lia.
  - cbn [for_each] in HL. destruct (body x L0) as [L1 |] eqn:H1; [| done].
    apply IH in HL. apply Hbody in H1. simpl. lia.
Qed.

(** X23.  [_linear_variable_polys] returns one polynomial per new variable,
    six in all.  An entry [C[i, j] == 0] costs no call of
    [polynomial_add_inplace]: for the zero matrix every polynomial returned is
    the zero list, whatever that operation computes. *)
Theorem linear_variable_polys_result
    (polynomial_variable :
       nat → nat → PsiTable → Clmo → EncodeDicts → option (list (list Cx.t)))
    (polynomial_zero_list : nat → PsiTable → option (list (list Cx.t)))
    (polynomial_add_inplace :
       list (list Cx.t) → list (list Cx.t) → Cx.t → nat → option (list (list Cx.t)))
    (max_deg : nat) (psi : PsiTable) (clmo : Clmo) (encode_dict_list : EncodeDicts)
    (new_basis : list (list (list Cx.t))) (zero_list : list (list Cx.t)) :
  mapM (λ j, polynomial_variable j max_deg psi clmo encode_dict_list) (range 6)
  = Some new_basis →
  polynomial_zero_list max_deg psi = Some zero_list →
  (∀ C L,
     _linear_variable_polys polynomial_variable polynomial_zero_list
       polynomial_add_inplace C max_deg psi clmo encode_dict_list = Some L →
     length L = 6)
  ∧ _linear_variable_polys polynomial_variable polynomial_zero_list
      polynomial_add_inplace (replicate 6 (replicate 6 Cx.zero)) max_deg psi clmo
      encode_dict_list
    = Some (replicate 6 zero_list).
Proof.
  intros Hbasis Hzero. unfold _linear_variable_polys. rewrite Hbasis, Hzero.
  cbn [mbind option_bind]. split.
  - intros C L HL.
    cut (length L = length (@nil (list (list Cx.t))) + length (range 6));
      [done |].
    eapply for_each_append_length; [| exact HL].
    intros i L1 L2 HL2. cbn [mbind option_bind] in HL2.
    destruct (for_each (range 6) _ zero_list) as [poly_result |]; [| done].
    cbn [mbind option_bind] in HL2.
    injection HL2 as <-. rewrite length_app. simpl. lia.
  - rewrite (for_each_ext _ _ (λ _ L, Some (L ++ [zero_list]))); [done |].
    intros i L Hi. apply elem_of_seq in Hi.
    rewrite for_each_skip; [done |]. intros j Hj. apply elem_of_seq in Hj.
    unfold matrix_at. rewrite lookup_replicate_2 by lia. cbn [mbind option_bind].
    rewrite lookup_replicate_2 by lia. cbn [mbind option_bind].
    by rewrite (proj2 (Cx_eqb_eq Cx.zero Cx.zero)).
Qed.

Lemma linear_variable_polys_result_witness :
  (∀ C L,
     _linear_variable_polys polynomial_variable polynomial_zero_list
       polynomial_add_inplace C 1 psi_2 clmo_2 encode_2 = Some L →
     length L = 6)
  ∧ _linear_variable_polys polynomial_variable polynomial_zero_list
      polynomial_add_inplace (replicate 6 (replicate 6 Cx.zero)) 1 psi_2 clmo_2
      encode_2
    = Some (replicate 6 [np_zeros 1; np_zeros 6]).
Proof.
  eapply linear_variable_polys_result; [vm_compute; reflexivity | reflexivity].
Defined.
(** ** The cache of [CenterManifold] *)

Lemma read_poly_elem (h : gmap nat (list Cx.t)) (items : list nat)
    (H : list (list Cx.t)) (l : nat) :
  read_poly h items = Some H → l ∈ items → is_Some (h !! l).
Proof.
  intros Hread Hl. apply mapM_Some in Hread.
  apply list_elem_of_lookup in Hl as [i Hi].
  destruct (Forall2_lookup_l _ _ _ i l Hread Hi) as (a & _ & Ha). by exists a.
Qed.

Lemma read_poly_agree (h h' : gmap nat (list Cx.t)) (poly : list nat)
    (H : list (list Cx.t)) :
  (∀ l, l ∈ poly → h' !! l = h !! l) →
  read_poly h poly = Some H → read_poly h' poly = Some H.
Proof.
  intros Hsame Hread. rewrite <- Hread. unfold read_poly.
  apply Forall_mapM_ext, Forall_forall. intros l Hl. by apply Hsame.
Qed.

(** A hit on a list of arrays. *)
Lemma get_or_compute_hit_list (self : CenterManifold) (key : list (string + Z))
    (compute_func : CenterManifold → gmap nat (list Cx.t) →
                    option (pyobj * CenterManifold * gmap nat (list Cx.t)))
    (h : gmap nat (list Cx.t)) (items : list nat) (H : list (list Cx.t)) :
  cache_get self key = PyList items → read_poly h items = Some H →
  ∃ copied h',
    _get_or_compute self key compute_func h = Some (PyList copied, self, h')
    ∧ read_poly h' copied = Some H
    ∧ NoDup copied
    ∧ (∀ l, l ∈ copied → h !! l = None)
    ∧ (∀ l, is_Some (h !! l) → h' !! l = h !! l).
Proof.
  intros Hget Hread. unfold _get_or_compute. rewrite Hget.
  destruct (copy_all_result items h H Hread) as (copied & h' & Hcopy & Hnd & Hnew & Hold & Hr).
  exists copied, h'. cbn [copy_value]. rewrite Hcopy. done.
Qed.

(** X19.  On a hit, [_get_or_compute] does not run [compute_func]: it returns
    new arrays with the contents of the cached ones and leaves the object, its
    cache and every array of the store as they were. *)
Theorem get_or_compute_hit (self : CenterManifold) (key : list (string + Z))
    (h : gmap nat (list Cx.t)) (items : list nat) (H : list (list Cx.t)) :
  cache_get self key = PyList items → read_poly h items = Some H →
  ∃ copied h',
    (∀ compute_func,
       _get_or_compute self key compute_func h = Some (PyList copied, self, h'))
    ∧ read_poly h' copied = Some H
    ∧ read_poly h' items = Some H
    ∧ (∀ l, l ∈ copied → (l ∉ items) ∧ h !! l = None)
    ∧ (∀ l, is_Some (h !! l) → h' !! l = h !! l).
Proof.
  intros Hget Hread.
  destruct (get_or_compute_hit_list self key (λ _ _, None) h items H Hget Hread)
    as (copied & h' & Hcall & Hr & Hnd & Hnew & Hold).
  exists copied, h'. split_and!; [| done | | | done].
  - intros compute_func. unfold _get_or_compute in Hcall |- *.
    by rewrite Hget in Hcall |- *.
  - by eapply read_poly_preserved.
  - intros l Hl. split; [| by apply Hnew]. intros Hin.
    destruct (read_poly_elem h items H l Hread Hin) as [a Ha].
    rewrite (Hnew l Hl) in Ha. done.
Qed.

Lemma get_or_compute_hit_witness :
  ∃ copied h',
    (∀ compute_func,
       _get_or_compute sample_manifold_cached sample_key compute_func ones_heap
       = Some (PyList copied, sample_manifold_cached, h'))
    ∧ read_poly h' copied = Some ones_poly
    ∧ read_poly h' [0; 1] = Some ones_poly
    ∧ (∀ l, l ∈ copied → (l ∉ [0; 1]) ∧ ones_heap !! l = None)
    ∧ (∀ l, is_Some (ones_heap !! l) → h' !! l = ones_heap !! l).
Proof.
  apply (get_or_compute_hit sample_manifold_cached sample_key ones_heap [0; 1] ones_poly);
    reflexivity.
Defined.

(** A miss on a computation that returns a list of arrays. *)
Lemma get_or_compute_miss_list (self self1 : CenterManifold) (key : list (string + Z))
    (compute_func : CenterManifold → gmap nat (list Cx.t) →
                    option (pyobj * CenterManifold * gmap nat (list Cx.t)))
    (h h1 : gmap nat (list Cx.t)) (items : list nat) (H : list (list Cx.t)) :
  cache_get self key = PyNone →
  compute_func self h = Some (PyList items, self1, h1) →
  read_poly h1 items = Some H →
  ∃ stored h2,
    _get_or_compute self key compute_func h
    = Some (PyList items, cache_set self1 key (PyList stored), h2)
    ∧ cache_get (cache_set self1 key (PyList stored)) key = PyList stored
    ∧ read_poly h2 items = Some H
    ∧ read_poly h2 stored = Some H
    ∧ (∀ l, l ∈ stored → l ∉ items)
    ∧ ∀ h3 other_func,
        (∀ l, l ∉ items → h3 !! l = h2 !! l) →
        ∃ copied h4,
          _get_or_compute (cache_set self1 key (PyList stored)) key other_func h3
          = Some (PyList copied, cache_set self1 key (PyList stored), h4)
          ∧ read_poly h4 copied = Some H.
Proof.
  intros Hget Hcompute Hread. unfold _get_or_compute at 1. rewrite Hget, Hcompute.
  cbn [mbind option_bind copy_value].
  destruct (copy_all_result items h1 H Hread)
    as (stored & h2 & Hcopy & Hnd & Hnew & Hold & Hr).
  rewrite Hcopy. cbn [mbind option_bind].
  assert (∀ l, l ∈ stored → l ∉ items) as Hdisj.
  { intros l Hl Hin. destruct (read_poly_elem h1 items H l Hread Hin) as [a Ha].
    rewrite (Hnew l Hl) in Ha. done. }
  assert (cache_get (cache_set self1 key (PyList stored)) key = PyList stored) as Hget'.
  { unfold cache_get, cache_set. cbn [_cache]. by rewrite lookup_insert_eq. }
  exists stored, h2. split_and!; [done | done | | done | done |].
  - by eapply read_poly_preserved.
  - intros h3 other_func Hsame.
    assert (read_poly h3 stored = Some H) as Hr3.
    { apply (read_poly_agree h2); [| done]. intros l Hl. by apply Hsame, Hdisj. }
    destruct (get_or_compute_hit_list _ key other_func h3 stored H Hget' Hr3)
      as (copied & h4 & Hcall & Hr4 & _).
    by exists copied, h4.
Qed.

(** X20.  On a miss, [_get_or_compute] runs [compute_func], returns its list
    of arrays and stores copies of them under the key.  The stored arrays are
    not the returned ones, so whatever the caller then writes into the
    returned arrays, the next call for the key is a hit that returns the
    computed contents. *)
Theorem get_or_compute_miss (self self1 : CenterManifold) (key : list (string + Z))
    (compute_func : CenterManifold → gmap nat (list Cx.t) →
                    option (pyobj * CenterManifold * gmap nat (list Cx.t)))
    (h h1 : gmap nat (list Cx.t)) (items : list nat) (H : list (list Cx.t)) :
  cache_get self key = PyNone →
  compute_func self h = Some (PyList items, self1, h1) →
  read_poly h1 items = Some H →
  ∃ stored h2,
    _get_or_compute self key compute_func h
    = Some (PyList items, cache_set self1 key (PyList stored), h2)
    ∧ cache_get (cache_set self1 key (PyList stored)) key = PyList stored
    ∧ read_poly h2 items = Some H
    ∧ read_poly h2 stored = Some H
    ∧ (∀ l, l ∈ stored → l ∉ items)
    ∧ ∀ h3 other_func,
        (∀ l, l ∉ items → h3 !! l = h2 !! l) →
        ∃ copied h4,
          _get_or_compute (cache_set self1 key (PyList stored)) key other_func h3
          = Some (PyList copied, cache_set self1 key (PyList stored), h4)
          ∧ read_poly h4 copied = Some H.
Proof. apply get_or_compute_miss_list. Qed.

Lemma get_or_compute_miss_witness :
  ∃ stored h2,
    _get_or_compute sample_manifold sample_key sample_compute ones_heap
    = Some (PyList [0; 1], cache_set sample_manifold sample_key (PyList stored), h2)
    ∧ cache_get (cache_set sample_manifold sample_key (PyList stored)) sample_key
      = PyList stored
    ∧ read_poly h2 [0; 1] = Some ones_poly
    ∧ read_poly h2 stored = Some ones_poly
    ∧ (∀ l, l ∈ stored → l ∉ [0; 1])
    ∧ ∀ h3 other_func,
        (∀ l, l ∉ [0; 1] → h3 !! l = h2 !! l) →
        ∃ copied h4,
          _get_or_compute (cache_set sample_manifold sample_key (PyList stored))
            sample_key other_func h3
          = Some (PyList copied, cache_set sample_manifold sample_key (PyList stored), h4)
          ∧ read_poly h4 copied = Some ones_poly.
Proof.
  apply (get_or_compute_miss sample_manifold sample_manifold sample_key sample_compute
           ones_heap ones_heap [0; 1] ones_poly); reflexivity.
Defined.

(** X21.  The constructor accepts collinear points only and builds the tables
    of [max_degree] with empty caches.  The setter of [max_degree] rejects a
    value that is not positive; a new value rebuilds the tables for it and
    empties both caches, the current value changes nothing. *)
Theorem max_degree_setter_result (self : CenterManifold) (value : Z) :
  (∀ point max_degree self0,
     CenterManifold_init point max_degree = Some self0 →
     (∃ is_L3, point = CollinearPoint is_L3)
     ∧ _max_degree self0 = max_degree ∧ tables_consistent self0
     ∧ ∀ key, cache_get self0 key = PyNone)
  ∧ ((value ≤ 0)%Z → max_degree_setter self value = None)
  ∧ (value = Z.of_nat (_max_degree self) → (0 < value)%Z →
     max_degree_setter self value = Some self)
  ∧ (value ≠ Z.of_nat (_max_degree self) → (0 < value)%Z →
     ∃ self',
       max_degree_setter self value = Some self'
       ∧ Z.of_nat (_max_degree self') = value
       ∧ _point self' = _point self
       ∧ tables_consistent self'
       ∧ _poincare_maps self' = ∅
       ∧ ∀ key, cache_get self' key = PyNone).
Proof.
  split_and!.
  - intros point max_degree self0 Hinit. destruct point as [is_L3 | |]; try done.
    injection Hinit as <-. split_and!; [by exists is_L3 | done | done | done].
  - intros Hle. unfold max_degree_setter. by rewrite bool_decide_eq_true_2.
  - intros -> Hpos. unfold max_degree_setter.
    rewrite bool_decide_eq_false_2 by lia.
    by rewrite bool_decide_eq_false_2 by (intros Hne; by apply Hne).
  - intros Hne Hpos. unfold max_degree_setter.
    rewrite bool_decide_eq_false_2 by lia. rewrite bool_decide_eq_true_2 by done.
    eexists. split_and!; [done | | done | done | done | done].
    cbn [cache_clear _max_degree]. lia.
Qed.

(** X22.  The first call of [_get_center_manifold_complex] runs the
    normal-form pipeline, restricts its result to the center manifold without
    changing it, returns the restricted polynomial and caches a copy of it.
    The next call returns the restricted polynomial from the cache without
    running the pipeline, whatever was written into the arrays returned
    first. *)
Theorem center_manifold_complex_cached
    (_get_complex_normal_form :
       CenterManifold → gmap nat (list Cx.t) →
       option (list nat * CenterManifold * gmap nat (list Cx.t)))
    (self self1 : CenterManifold) (h h1 : gmap nat (list Cx.t))
    (poly_trans : list nat) (H : list (list Cx.t)) :
  _max_degree self < 64 →
  cache_get self [inl "hamiltonian"; inr (Z.of_nat (_max_degree self));
                  inl "center_manifold_complex"] = PyNone →
  _get_complex_normal_form self h = Some (poly_trans, self1, h1) →
  _max_degree self1 = _max_degree self → tables_consistent self1 →
  read_poly h1 poly_trans = Some H → graded_poly (_max_degree self) H →
  ∃ poly_cm self2 h2,
    _get_center_manifold_complex _get_complex_normal_form self h
    = Some (PyList poly_cm, self2, h2)
    ∧ read_poly h2 poly_cm = Some (restrict_poly TOL_1E_14 H)
    ∧ read_poly h2 poly_trans = Some H
    ∧ ∀ h3 other_pipeline,
        (∀ l, l ∉ poly_cm → h3 !! l = h2 !! l) →
        ∃ copied h4,
          _get_center_manifold_complex other_pipeline self2 h3
          = Some (PyList copied, self2, h4)
          ∧ read_poly h4 copied = Some (restrict_poly TOL_1E_14 H).
Proof.
  intros Hsmall Hmiss Hpipe Hdeg [Htab _] Hread Hgraded.
  unfold init_index_tables in Htab. injection Htab as _ Hclmo.
  rewrite Hdeg in Hclmo.
  destruct (restrict_run (_max_degree self) Hsmall TOL_1E_14 poly_trans h1 H)
    as (poly_cm & h' & Hrestrict & Hold & Hcm); [done .. |].
  set (key := [inl "hamiltonian"; inr (Z.of_nat (_max_degree self));
               inl "center_manifold_complex"] : list (string + Z)) in *.
  destruct (get_or_compute_miss_list self self1 key
    (λ self h,
       '(poly_trans, self, h) ← _get_complex_normal_form self h;
       '(poly_cm, h) ← _restrict_to_center_manifold (_clmo self) poly_trans TOL_1E_14 h;
       Some (PyList poly_cm, self, h))
    h h' poly_cm (restrict_poly TOL_1E_14 H))
    as (stored & h2 & Hcall & Hget & Hr2 & Hs2 & Hdisj & Hnext); [done | | done |].
  { rewrite Hpipe. cbn [mbind option_bind]. rewrite Hclmo, Hrestrict. done. }
  exists poly_cm, (cache_set self1 key (PyList stored)), h2.
  split_and!; [exact Hcall | done | |].
  - unfold _get_or_compute in Hcall. rewrite Hmiss, Hpipe in Hcall.
    cbn [mbind option_bind] in Hcall. rewrite Hclmo, Hrestrict in Hcall.
    cbn [mbind option_bind copy_value] in Hcall.
    destruct (copy_all_result poly_cm h' _ Hcm) as (st & hh & Hcopy & _ & _ & Hold2 & _).
    rewrite Hcopy in Hcall. cbn [mbind option_bind] in Hcall.
    injection Hcall as _ <-.
    eapply read_poly_preserved; [exact Hold2 |].
    by eapply read_poly_preserved.
  - intros h3 other_pipeline Hsame.
    destruct (Hnext h3
      (λ self h,
         '(poly_trans, self, h) ← other_pipeline self h;
         '(poly_cm, h) ← _restrict_to_center_manifold (_clmo self) poly_trans TOL_1E_14 h;
         Some (PyList poly_cm, self, h)) Hsame) as (copied & h4 & Hcall' & Hr4).
    exists copied, h4. split; [| done].
    unfold _get_center_manifold_complex. cbn [cache_set _max_degree].
    rewrite Hdeg. exact Hcall'.
Qed.

Lemma center_manifold_complex_cached_witness :
  ∃ poly_cm self2 h2,
    _get_center_manifold_complex sample_pipeline sample_manifold ones_heap
    = Some (PyList poly_cm, self2, h2)
    ∧ read_poly h2 poly_cm = Some (restrict_poly TOL_1E_14 ones_poly)
    ∧ read_poly h2 [0; 1] = Some ones_poly
    ∧ ∀ h3 other_pipeline,
        (∀ l, l ∉ poly_cm → h3 !! l = h2 !! l) →
        ∃ copied h4,
          _get_center_manifold_complex other_pipeline self2 h3
          = Some (PyList copied, self2, h4)
          ∧ read_poly h4 copied = Some (restrict_poly TOL_1E_14 ones_poly).
Proof.
  apply (center_manifold_complex_cached sample_pipeline sample_manifold sample_manifold
           ones_heap ones_heap [0; 1] ones_poly);
    [simpl; lia | reflexivity | reflexivity | reflexivity | by split | reflexivity
    | apply ones_poly_graded].
Defined.
(** ** Linearity of [_poly_diff] and [_poly_poisson] *)

Section linearity.
Context (max_degree : nat).
Hypothesis max_degree_small : max_degree < 64.
Local Abbreviation psi := (init_psi_table max_degree).
Local Abbreviation clmo := (init_clmo max_degree).
Local Abbreviation encode_dict_list := (_create_encode_dict_from_clmo (init_clmo max_degree)).

(** The coefficient at a position of the derivative, with the coefficient of
    the input it comes from. *)
Lemma poly_diff_source (var d' idx : nat) (k : list nat) (n : nat) :
  var < N_VARS → monomials N_VARS d' !! idx = Some k → n = psi_count N_VARS (S d') →
  ∃ e i0, k !! var = Some e
          ∧ monomials N_VARS (S d') !! i0 = Some (<[var := e + 1]> k)
          ∧ i0 < n.
Proof.
  intros Hvar Hk ->.
  assert (k ∈ monomials N_VARS d') as Hin by by eapply list_elem_of_lookup_2.
  destruct (monomials_var d' var k) as [e He]; [done .. |].
  pose proof (monomials_raise d' var e k Hin He) as Hraise.
  replace (d' + 1) with (S d') in Hraise by lia.
  destruct (monomials_position _ _ Hraise) as [i0 Hi0].
  exists e, i0. split_and!; [done .. |].
  apply lookup_lt_Some in Hi0. by rewrite length_monomials in Hi0.
Qed.

Lemma poly_diff_add (sch : Sched) (p q dp dq : list Cx.t) (var d' : nat) :
  S d' ≤ max_degree → var < N_VARS →
  homogeneous (S d') p → homogeneous (S d') q →
  _poly_diff sch p var (S d') psi clmo encode_dict_list = Some dp →
  _poly_diff sch q var (S d') psi clmo encode_dict_list = Some dq →
  _poly_diff sch (zip_with Cx.add p q) var (S d') psi clmo encode_dict_list
  = Some (zip_with Cx.add dp dq).
Proof.
  intros Hd Hvar Hp Hq Hdp Hdq.
  destruct (poly_diff_result max_degree max_degree_small sch p var d')
    as (dp' & Hdp' & Hhp & Hcp); [done .. |].
  rewrite Hdp in Hdp'. injection Hdp' as <-.
  destruct (poly_diff_result max_degree max_degree_small sch q var d')
    as (dq' & Hdq' & Hhq & Hcq); [done .. |].
  rewrite Hdq in Hdq'. injection Hdq' as <-.
  assert (homogeneous (S d') (zip_with Cx.add p q)) as Hs.
  { unfold homogeneous in *. rewrite length_zip_with. lia. }
  destruct (poly_diff_result max_degree max_degree_small sch _ var d' Hd Hvar Hs)
    as (ds & -> & Hhs & Hcs).
  f_equal. apply (homogeneous_ext d'); [done | |].
  { unfold homogeneous in *. rewrite length_zip_with. lia. }
  intros idx k Hk.
  destruct (poly_diff_source var d' idx k (length p)) as (e & i0 & He & Hi0 & Hlt);
    [done .. |].
  destruct (lookup_lt_is_Some_2 p i0 Hlt) as [cp Hcp'].
  destruct (lookup_lt_is_Some_2 q i0) as [cq Hcq'].
  { unfold homogeneous in *. lia. }
  rewrite (Hcs idx k e i0 (cp + cq)%cx);
    [| done | done | done | by rewrite lookup_zip_with, Hcp', Hcq'].
  rewrite lookup_zip_with, (Hcp idx k e i0 cp), (Hcq idx k e i0 cq) by done.
  cbn [mbind option_bind]. f_equal. ring.
Qed.

Lemma poly_diff_scale (sch : Sched) (alpha : Cx.t) (p dp : list Cx.t) (var d' : nat) :
  S d' ≤ max_degree → var < N_VARS → homogeneous (S d') p →
  _poly_diff sch p var (S d') psi clmo encode_dict_list = Some dp →
  _poly_diff sch (Cx.mul alpha <$> p) var (S d') psi clmo encode_dict_list
  = Some (Cx.mul alpha <$> dp).
Proof.
  intros Hd Hvar Hp Hdp.
  destruct (poly_diff_result max_degree max_degree_small sch p var d')
    as (dp' & Hdp' & Hhp & Hcp); [done .. |].
  rewrite Hdp in Hdp'. injection Hdp' as <-.
  assert (homogeneous (S d') (Cx.mul alpha <$> p)) as Hs.
  { unfold homogeneous in *. by rewrite length_fmap. }
  destruct (poly_diff_result max_degree max_degree_small sch _ var d' Hd Hvar Hs)
    as (ds & -> & Hhs & Hcs).
  f_equal. apply (homogeneous_ext d'); [done | |].
  { unfold homogeneous in *. by rewrite length_fmap. }
  intros idx k Hk.
  destruct (poly_diff_source var d' idx k (length p)) as (e & i0 & He & Hi0 & Hlt);
    [done .. |].
  destruct (lookup_lt_is_Some_2 p i0 Hlt) as [cp Hcp'].
  rewrite (Hcs idx k e i0 (alpha * cp)%cx);
    [| done | done | done | by rewrite list_lookup_fmap, Hcp'].
  rewrite list_lookup_fmap, (Hcp idx k e i0 cp) by done.
  cbn [fmap option_fmap option_map]. f_equal. ring.
Qed.

Lemma poly_mul_add_l (sch : Sched) (a b r ar br : list Cx.t) (deg_a deg_r : nat) :
  deg_a + deg_r ≤ max_degree →
  homogeneous deg_a a → homogeneous deg_a b → homogeneous deg_r r →
  _poly_mul sch a deg_a r deg_r psi clmo encode_dict_list = Some ar →
  _poly_mul sch b deg_a r deg_r psi clmo encode_dict_list = Some br →
  _poly_mul sch (zip_with Cx.add a b) deg_a r deg_r psi clmo encode_dict_list
  = Some (zip_with Cx.add ar br).
Proof.
  intros Hdeg Ha Hb Hr Har Hbr. unfold homogeneous in *.
  destruct (poly_mul_result max_degree max_degree_small sch a deg_a r deg_r)
    as (ar' & Har' & Hla & Hca); [done | lia | lia |].
  rewrite Har in Har'. injection Har' as <-.
  destruct (poly_mul_result max_degree max_degree_small sch b deg_a r deg_r)
    as (br' & Hbr' & Hlb & Hcb); [done | lia | lia |].
  rewrite Hbr in Hbr'. injection Hbr' as <-.
  destruct (poly_mul_result max_degree max_degree_small sch (zip_with Cx.add a b)
              deg_a r deg_r) as (t & -> & Hlt & Hct);
    [done | rewrite length_zip_with; lia | lia |].
  f_equal. apply (homogeneous_ext (deg_a + deg_r)); unfold homogeneous; [done | |].
  { rewrite length_zip_with. lia. }
  intros idx k Hk. rewrite (Hct idx k Hk), lookup_zip_with.
  rewrite (Hca idx k Hk), (Hcb idx k Hk). cbn [mbind option_bind].
  rewrite convolution_add by lia. done.
Qed.

Lemma poly_mul_scale_l (sch : Sched) (alpha : Cx.t) (a r ar : list Cx.t)
    (deg_a deg_r : nat) :
  deg_a + deg_r ≤ max_degree → homogeneous deg_a a → homogeneous deg_r r →
  _poly_mul sch a deg_a r deg_r psi clmo encode_dict_list = Some ar →
  _poly_mul sch (Cx.mul alpha <$> a) deg_a r deg_r psi clmo encode_dict_list
  = Some (Cx.mul alpha <$> ar).
Proof.
  intros Hdeg Ha Hr Har. unfold homogeneous in *.
  destruct (poly_mul_result max_degree max_degree_small sch a deg_a r deg_r)
    as (ar' & Har' & Hla & Hca); [done | lia | lia |].
  rewrite Har in Har'. injection Har' as <-.
  destruct (poly_mul_result max_degree max_degree_small sch (Cx.mul alpha <$> a)
              deg_a r deg_r) as (t & -> & Hlt & Hct);
    [done | rewrite length_fmap; lia | lia |].
  f_equal. apply (homogeneous_ext (deg_a + deg_r)); unfold homogeneous; [done | |].
  { by rewrite length_fmap. }
  intros idx k Hk. rewrite (Hct idx k Hk), list_lookup_fmap.
  rewrite (Hca idx k Hk). cbn [fmap option_fmap option_map].
  by rewrite convolution_scale.
Qed.

(** The products of derivatives of one iteration of the bracket are linear in
    the first polynomial. *)
Lemma poisson_terms_add (sch : Sched) (a b : nat) (p q r : list Cx.t) (m : nat)
    (tp1 tp2 tq1 tq2 : list Cx.t) :
  S a ≤ max_degree → S b ≤ max_degree → a + b ≤ max_degree →
  homogeneous (S a) p → homogeneous (S a) q → homogeneous (S b) r → m < 3 →
  poisson_term1 sch p (S a) r (S b) psi clmo encode_dict_list m = Some tp1 →
  poisson_term2 sch p (S a) r (S b) psi clmo encode_dict_list m = Some tp2 →
  poisson_term1 sch q (S a) r (S b) psi clmo encode_dict_list m = Some tq1 →
  poisson_term2 sch q (S a) r (S b) psi clmo encode_dict_list m = Some tq2 →
  poisson_term1 sch (zip_with Cx.add p q) (S a) r (S b) psi clmo encode_dict_list m
  = Some (zip_with Cx.add tp1 tq1)
  ∧ poisson_term2 sch (zip_with Cx.add p q) (S a) r (S b) psi clmo encode_dict_list m
    = Some (zip_with Cx.add tp2 tq2).
Proof.
  intros Ha Hb Hab Hp Hq Hr Hm. unfold poisson_term1, poisson_term2.
  destruct (poly_diff_result max_degree max_degree_small sch p m a)
    as (dp1 & Hdp1 & Hhp1 & _); [done | unfold N_VARS; lia | done |].
  destruct (poly_diff_result max_degree max_degree_small sch p (m + 3) a)
    as (dp2 & Hdp2 & Hhp2 & _); [done | unfold N_VARS; lia | done |].
  destruct (poly_diff_result max_degree max_degree_small sch q m a)
    as (dq1 & Hdq1 & Hhq1 & _); [done | unfold N_VARS; lia | done |].
  destruct (poly_diff_result max_degree max_degree_small sch q (m + 3) a)
    as (dq2 & Hdq2 & Hhq2 & _); [done | unfold N_VARS; lia | done |].
  destruct (poly_diff_result max_degree max_degree_small sch r m b)
    as (dr1 & Hdr1 & Hhr1 & _); [done | unfold N_VARS; lia | done |].
  destruct (poly_diff_result max_degree max_degree_small sch r (m + 3) b)
    as (dr2 & Hdr2 & Hhr2 & _); [done | unfold N_VARS; lia | done |].
  rewrite (poly_diff_add sch p q dp1 dq1 m a), (poly_diff_add sch p q dp2 dq2 (m + 3) a)
    by (done || unfold N_VARS; lia).
  rewrite Hdp1, Hdp2, Hdq1, Hdq2, Hdr1, Hdr2. cbn [mbind option_bind].
  replace (S a - 1) with a by lia. replace (S b - 1) with b by lia.
  intros H1 H2 H3 H4. split; by apply poly_mul_add_l.
Qed.

Lemma poisson_terms_scale (sch : Sched) (alpha : Cx.t) (a b : nat) (p r : list Cx.t)
    (m : nat) (tp1 tp2 : list Cx.t) :
  S a ≤ max_degree → S b ≤ max_degree → a + b ≤ max_degree →
  homogeneous (S a) p → homogeneous (S b) r → m < 3 →
  poisson_term1 sch p (S a) r (S b) psi clmo encode_dict_list m = Some tp1 →
  poisson_term2 sch p (S a) r (S b) psi clmo encode_dict_list m = Some tp2 →
  poisson_term1 sch (Cx.mul alpha <$> p) (S a) r (S b) psi clmo encode_dict_list m
  = Some (Cx.mul alpha <$> tp1)
  ∧ poisson_term2 sch (Cx.mul alpha <$> p) (S a) r (S b) psi clmo encode_dict_list m
    = Some (Cx.mul alpha <$> tp2).
Proof.
  intros Ha Hb Hab Hp Hr Hm. unfold poisson_term1, poisson_term2.
  destruct (poly_diff_result max_degree max_degree_small sch p m a)
    as (dp1 & Hdp1 & Hhp1 & _); [done | unfold N_VARS; lia | done |].
  destruct (poly_diff_result max_degree max_degree_small sch p (m + 3) a)
    as (dp2 & Hdp2 & Hhp2 & _); [done | unfold N_VARS; lia | done |].
  destruct (poly_diff_result max_degree max_degree_small sch r m b)
    as (dr1 & Hdr1 & Hhr1 & _); [done | unfold N_VARS; lia | done |].
  destruct (poly_diff_result max_degree max_degree_small sch r (m + 3) b)
    as (dr2 & Hdr2 & Hhr2 & _); [done | unfold N_VARS; lia | done |].
  rewrite (poly_diff_scale sch alpha p dp1 m a),
    (poly_diff_scale sch alpha p dp2 (m + 3) a) by (done || unfold N_VARS; lia).
  rewrite Hdp1, Hdp2, Hdr1, Hdr2. cbn [mbind option_bind].
  replace (S a - 1) with a by lia. replace (S b - 1) with b by lia.
  intros H1 H2. split; by apply poly_mul_scale_l.
Qed.

End linearity.

Lemma bracket_step_add (n : nat) (r r' t1 t1' t2 t2' : list Cx.t) :
  length r = n → length r' = n → length t1 = n → length t1' = n →
  length t2 = n → length t2' = n →
  bracket_step (zip_with Cx.add r r') (zip_with Cx.add t1 t1') (zip_with Cx.add t2 t2')
  = zip_with Cx.add (bracket_step r t1 t2) (bracket_step r' t1' t2').
Proof.
  intros Hr Hr' H1 H1' H2 H2'. unfold bracket_step. apply list_eq. intros i.
  rewrite !lookup_zip_with. destruct (decide (i < n)) as [Hi | Hi].
  - destruct (lookup_lt_is_Some_2 r i) as [x ->]; [lia |].
    destruct (lookup_lt_is_Some_2 r' i) as [x' ->]; [lia |].
    destruct (lookup_lt_is_Some_2 t1 i) as [y ->]; [lia |].
    destruct (lookup_lt_is_Some_2 t1' i) as [y' ->]; [lia |].
    destruct (lookup_lt_is_Some_2 t2 i) as [z ->]; [lia |].
    destruct (lookup_lt_is_Some_2 t2' i) as [z' ->]; [lia |].
    cbn [mbind option_bind]. f_equal. ring.
  - by rewrite !(lookup_ge_None_2 r) by lia.
Qed.

Lemma bracket_step_scale (alpha : Cx.t) (n : nat) (r t1 t2 : list Cx.t) :
  length r = n → length t1 = n → length t2 = n →
  bracket_step (Cx.mul alpha <$> r) (Cx.mul alpha <$> t1) (Cx.mul alpha <$> t2)
  = Cx.mul alpha <$> bracket_step r t1 t2.
Proof.
  intros Hr H1 H2. unfold bracket_step. apply list_eq. intros i.
  rewrite list_lookup_fmap, !lookup_zip_with, !list_lookup_fmap.
  destruct (r !! i) as [x |]; [| done].
  destruct (t1 !! i) as [y |]; [| done].
  destruct (t2 !! i) as [z |]; [| done].
  cbn [mbind option_bind fmap option_fmap option_map]. f_equal. ring.
Qed.

Lemma zeros_add (n : nat) : zip_with Cx.add (np_zeros n) (np_zeros n) = np_zeros n.
Proof.
  unfold np_zeros. induction n as [| n IH]; [done |].
  cbn [replicate zip_with]. rewrite IH. f_equal; ring.
Qed.

Lemma zeros_scale (alpha : Cx.t) (n : nat) : Cx.mul alpha <$> np_zeros n = np_zeros n.
Proof.
  unfold np_zeros. induction n as [| n IH]; [done |].
  cbn [replicate fmap list_fmap]. fold (fmap (M := list) (Cx.mul alpha)).
  rewrite IH. f_equal; ring.
Qed.




(** ** The product rule *)

Lemma Cx_of_nat_add (a b : nat) : Cx.of_nat (a + b) = (Cx.of_nat a + Cx.of_nat b)%cx.
Proof.
  unfold Cx.of_nat, Cx.of_Z, Cx.of_Qc, Cx.add. simpl.
  apply Cx_eq; simpl; [by rewrite Nat2Z.inj_add, Z2Qc_inj_add | ring].
Qed.

(** Lowering an exponent of one summand lowers the exponent of the sum. *)
Lemma tuple_add_lower (var : nat) (ki kj k : list nat) (ei ej e : nat) :
  ki !! var = Some ei → kj !! var = Some ej → k !! var = Some e → ei ≠ 0 →
  tuple_add (<[var := ei - 1]> ki) kj = k ↔ tuple_add ki kj = <[var := (e + 1)%nat]> k.
Proof.
  intros Hi Hj Hk Hne. unfold tuple_add.
  assert (zip_with Nat.add ki kj !! var = Some (ei + ej)) as HT
    by by rewrite lookup_zip_with, Hi, Hj.
  assert (zip_with Nat.add (<[var := ei - 1]> ki) kj
          = <[var := ei - 1 + ej]> (zip_with Nat.add ki kj)) as ->.
  { rewrite insert_zip_with. by rewrite (list_insert_id kj var ej). }
  assert (var < length (zip_with Nat.add ki kj)) as Hlen by by eapply lookup_lt_Some.
  split.
  - intros <-. rewrite list_lookup_insert_eq in Hk by done.
    injection Hk as <-. rewrite list_insert_insert_eq.
    symmetry. apply list_insert_id. rewrite HT. f_equal. lia.
  - intros HK. rewrite HK in HT |- *.
    rewrite list_lookup_insert_eq in HT by (by eapply lookup_lt_Some).
    injection HT as HT. rewrite list_insert_insert_eq.
    apply list_insert_id. rewrite Hk. f_equal. lia.
Qed.

Lemma csum_with_swap3 {A B C : Type} (f : A → B → C → Cx.t)
    (la : list A) (lb : list B) (lc : list C) :
  csum_with (λ x, csum_with (λ y, csum_with (λ z, f x y z) lc) lb) la
  = csum_with (λ z, csum_with (λ y, csum_with (λ x, f x y z) la) lb) lc.
Proof.
  rewrite (csum_with_ext _ (λ x, csum_with (λ z, csum_with (λ y, f x y z) lb) lc))
    by (intros; apply csum_with_swap).
  rewrite csum_with_swap. apply csum_with_ext. intros z _. apply csum_with_swap.
Qed.

Section leibniz.
Context (max_degree : nat).
Hypothesis max_degree_small : max_degree < 64.
Local Abbreviation psi := (init_psi_table max_degree).
Local Abbreviation clmo := (init_clmo max_degree).
Local Abbreviation encode_dict_list := (_create_encode_dict_from_clmo (init_clmo max_degree)).

(** What the position [i] of [p] and the position [j] of [q] feed into the
    coefficient at [k] of the product of the derivative of [p] and [q]. *)
Lemma diff_pair_collapse (p q : list Cx.t) (var a deg_q : nat) (k : list nat)
    (e i j : nat) :
  S a + deg_q ≤ max_degree → var < N_VARS →
  homogeneous (S a) p → homogeneous deg_q q →
  k ∈ monomials N_VARS (a + deg_q) → k !! var = Some e →
  i < length p → j < length q →
  csum_with
    (λ i', match q !! j, monomials N_VARS a !! i', monomials N_VARS deg_q !! j with
           | Some qj, Some ki', Some kj =>
               if bool_decide (tuple_add ki' kj = k)
               then (diff_term p var a i i' * qj)%cx else Cx.zero
           | _, _, _ => Cx.zero
           end)
    (range (psi_count N_VARS a))
  = (exponent_coeff (S a) var i
     * pair_term clmo p (S a) q deg_q (<[var := (e + 1)%nat]> k) i j)%cx.
Proof.
  intros Hdeg Hvar Hp Hq Hk He Hi Hj. unfold homogeneous in Hp, Hq.
  unfold pair_term, exponent_coeff. rewrite !decode_init by (done || lia).
  destruct (lookup_lt_is_Some_2 p i Hi) as [pi Hpi].
  destruct (lookup_lt_is_Some_2 q j Hj) as [qj Hqj].
  destruct (lookup_lt_is_Some_2 (monomials N_VARS (S a)) i) as [ki Hki];
    [rewrite length_monomials; lia |].
  destruct (lookup_lt_is_Some_2 (monomials N_VARS deg_q) j) as [kj Hkj];
    [rewrite length_monomials; lia |].
  rewrite Hpi, Hqj, Hki, Hkj.
  assert (ki ∈ monomials N_VARS (S a)) as Hki_in by by eapply list_elem_of_lookup_2.
  assert (kj ∈ monomials N_VARS deg_q) as Hkj_in by by eapply list_elem_of_lookup_2.
  destruct (monomials_var (S a) var ki) as [ei Hei]; [done .. |].
  destruct (monomials_var deg_q var kj) as [ej Hej]; [done .. |].
  rewrite Hei. cbn [default from_option id].
  destruct (decide (ei = 0)) as [-> | Hne].
  - rewrite Cx_of_nat_0, csum_with_zero; [ring |]. intros i' _.
    unfold diff_term. rewrite Hpi, Hki, Hei.
    rewrite (bool_decide_eq_false_2 (0 ≠ 0 ∧ _)) by (by intros [? _]).
    destruct (monomials N_VARS a !! i'); [| done]. case_bool_decide; ring.
  - pose proof (monomials_lower a var ei ki Hki_in Hei Hne) as Hlow.
    destruct (monomials_position _ _ Hlow) as [i0 Hi0].
    rewrite (csum_with_single _ _ i0).
    + rewrite Hi0. unfold diff_term. rewrite Hpi, Hki, Hei.
      rewrite (bool_decide_eq_true_2 (ei ≠ 0 ∧ _)) by done.
      destruct (decide (tuple_add ki kj = <[var := (e + 1)%nat]> k)) as [HK | HK].
      * rewrite !bool_decide_eq_true_2; [ring | done |].
        by apply (tuple_add_lower var ki kj k ei ej e).
      * rewrite !bool_decide_eq_false_2; [ring | done |].
        intros Hlowk. by apply HK, (tuple_add_lower var ki kj k ei ej e).
    + apply NoDup_seq.
    + apply elem_of_seq. apply lookup_lt_Some in Hi0.
      rewrite length_monomials in Hi0. lia.
    + intros i' _ Hne'. destruct (monomials N_VARS a !! i') as [ki' |] eqn:Hki'; [| done].
      unfold diff_term. rewrite Hpi, Hki, Hei.
      rewrite (bool_decide_eq_false_2 (ei ≠ 0 ∧ _)).
      * case_bool_decide; ring.
      * intros [_ Hsame]. apply Hne'. by eapply monomials_lookup_inj.
Qed.

(** The coefficients of the product of the derivative of [p] and [q]. *)
Lemma convolution_diff_l (sch : Sched) (p dp q : list Cx.t) (var a deg_q : nat)
    (k : list nat) (e : nat) :
  S a + deg_q ≤ max_degree → var < N_VARS →
  homogeneous (S a) p → homogeneous deg_q q →
  _poly_diff sch p var (S a) psi clmo encode_dict_list = Some dp →
  k ∈ monomials N_VARS (a + deg_q) → k !! var = Some e →
  convolution clmo dp a q deg_q k
  = csum_with
      (λ i, csum_with
         (λ j, (exponent_coeff (S a) var i
                * pair_term clmo p (S a) q deg_q (<[var := (e + 1)%nat]> k) i j)%cx)
         (range (length q)))
      (range (length p)).
Proof.
  intros Hdeg Hvar Hp Hq Hdp Hk He.
  destruct (poly_diff_sums max_degree max_degree_small sch p var a)
    as (dp' & Hdp' & Hlen & Hsum); [lia | done | unfold homogeneous in Hp; lia |].
  rewrite Hdp in Hdp'. injection Hdp' as <-.
  unfold convolution. rewrite Hlen.
  rewrite (csum_with_ext _
    (λ i', csum_with
       (λ j, csum_with
          (λ i, match q !! j, monomials N_VARS a !! i', monomials N_VARS deg_q !! j with
                | Some qj, Some ki', Some kj =>
                    if bool_decide (tuple_add ki' kj = k)
                    then (diff_term p var a i i' * qj)%cx else Cx.zero
                | _, _, _ => Cx.zero
                end)
          (range (length p)))
       (range (length q)))).
  - rewrite csum_with_swap3. apply csum_with_ext. intros i Hi.
    apply csum_with_ext. intros j Hj.
    apply elem_of_seq in Hi. apply elem_of_seq in Hj.
    apply diff_pair_collapse; (done || lia).
  - intros i' Hi'. apply elem_of_seq in Hi'. apply csum_with_ext. intros j _.
    unfold pair_term. rewrite !decode_init by (done || lia).
    rewrite (Hsum i') by lia.
    destruct (q !! j) as [qj |]; [| by rewrite csum_with_zero].
    destruct (monomials N_VARS a !! i') as [ki' |]; [| by rewrite csum_with_zero].
    destruct (monomials N_VARS deg_q !! j) as [kj |]; [| by rewrite csum_with_zero].
    case_bool_decide; [| by rewrite csum_with_zero].
    by rewrite csum_with_mul_r.
Qed.

(** When the tuples of the positions [i] and [j] add to a tuple whose
    exponent of [var] is [e + 1], the two exponents of [var] add to [e + 1]. *)
Lemma pair_term_exponents (p q : list Cx.t) (var a b : nat) (k : list nat)
    (e i j : nat) :
  S a + S b ≤ max_degree → var < N_VARS → k !! var = Some e →
  (pair_term clmo p (S a) q (S b) (<[var := (e + 1)%nat]> k) i j * Cx.of_nat (e + 1))%cx
  = (exponent_coeff (S a) var i * pair_term clmo p (S a) q (S b) (<[var := (e + 1)%nat]> k) i j
     + exponent_coeff (S b) var j
       * pair_term clmo p (S a) q (S b) (<[var := (e + 1)%nat]> k) i j)%cx.
Proof.
  intros Hdeg Hvar He. unfold pair_term, exponent_coeff.
  rewrite !decode_init by (done || lia).
  destruct (p !! i) as [pi |]; [| ring].
  destruct (q !! j) as [qj |]; [| destruct (monomials N_VARS (S a) !! i); ring].
  destruct (monomials N_VARS (S a) !! i) as [ki |] eqn:Hki; [| ring].
  destruct (monomials N_VARS (S b) !! j) as [kj |] eqn:Hkj; [| ring].
  case_bool_decide as HK; [| ring].
  assert (ki ∈ monomials N_VARS (S a)) as Hki_in by by eapply list_elem_of_lookup_2.
  assert (kj ∈ monomials N_VARS (S b)) as Hkj_in by by eapply list_elem_of_lookup_2.
  destruct (monomials_var (S a) var ki) as [ei Hei]; [done .. |].
  destruct (monomials_var (S b) var kj) as [ej Hej]; [done .. |].
  rewrite Hei, Hej. cbn [default from_option id].
  assert (ei + ej = e + 1) as Hsum.
  { assert (tuple_add ki kj !! var = Some (ei + ej)) as HT
      by (unfold tuple_add; by rewrite lookup_zip_with, Hei, Hej).
    rewrite HK, list_lookup_insert_eq in HT by (by eapply lookup_lt_Some).
    by injection HT. }
  rewrite <- Hsum, Cx_of_nat_add. ring.
Qed.

Lemma poly_diff_mul (sch : Sched) (p q : list Cx.t) (var a b : nat) :
  S a + S b ≤ max_degree → var < N_VARS →
  homogeneous (S a) p → homogeneous (S b) q →
  ∃ pq dp dq t1 t2,
    _poly_mul sch p (S a) q (S b) psi clmo encode_dict_list = Some pq
    ∧ _poly_diff sch p var (S a) psi clmo encode_dict_list = Some dp
    ∧ _poly_diff sch q var (S b) psi clmo encode_dict_list = Some dq
    ∧ _poly_mul sch dp a q (S b) psi clmo encode_dict_list = Some t1
    ∧ _poly_mul sch p (S a) dq b psi clmo encode_dict_list = Some t2
    ∧ homogeneous (a + S b) t1 ∧ homogeneous (a + S b) t2
    ∧ _poly_diff sch pq var (S a + S b) psi clmo encode_dict_list
      = Some (zip_with Cx.add t1 t2).
Proof.
  intros Hdeg Hvar Hp Hq.
  destruct (poly_mul_result max_degree max_degree_small sch p (S a) q (S b))
    as (pq & Hpq & Hlpq & Hcpq); [done | unfold homogeneous in *; lia .. |].
  destruct (poly_diff_result max_degree max_degree_small sch p var a)
    as (dp & Hdp & Hhdp & _); [lia | done | done |].
  destruct (poly_diff_result max_degree max_degree_small sch q var b)
    as (dq & Hdq & Hhdq & _); [lia | done | done |].
  destruct (poly_mul_result max_degree max_degree_small sch dp a q (S b))
    as (t1 & Ht1 & Hl1 & Hc1); [lia | unfold homogeneous in *; lia .. |].
  destruct (poly_mul_result max_degree max_degree_small sch p (S a) dq b)
    as (t2 & Ht2 & Hl2 & Hc2); [lia | unfold homogeneous in *; lia .. |].
  replace (S a + b) with (a + S b) in Hl2, Hc2 by lia.
  destruct (poly_diff_result max_degree max_degree_small sch pq var (a + S b))
    as (dpq & Hdpq & Hhdpq & Hcdpq); [lia | done | done |].
  exists pq, dp, dq, t1, t2. split_and!; try done.
  change (S a + S b) with (S (a + S b)). rewrite Hdpq. f_equal.
  apply (homogeneous_ext (a + S b)); [done | |].
  { unfold homogeneous in *. rewrite length_zip_with. lia. }
  intros idx k Hk.
  assert (k ∈ monomials N_VARS (a + S b)) as Hin by by eapply list_elem_of_lookup_2.
  destruct (monomials_var (a + S b) var k) as [e He]; [done .. |].
  pose proof (monomials_raise (a + S b) var e k Hin He) as Hraise.
  replace (a + S b + 1) with (S a + S b) in Hraise by lia.
  destruct (monomials_position _ _ Hraise) as [i0 Hi0].
  rewrite (Hcdpq idx k e i0 _ Hk He Hi0 (Hcpq i0 _ Hi0)).
  rewrite lookup_zip_with, (Hc1 idx k Hk), (Hc2 idx k Hk). cbn [mbind option_bind].
  f_equal.
  rewrite (convolution_diff_l sch p dp q var a (S b) k e) by (done || lia).
  rewrite (convolution_comm clmo p (S a) dq b k).
  rewrite (convolution_diff_l sch q dq p var b (S a) k e);
    [| lia | done | done | done | done | by replace (b + S a) with (a + S b) by lia
     | done].
  rewrite (csum_with_swap
    (λ j i, (exponent_coeff (S b) var j
             * pair_term clmo q (S b) p (S a) (<[var := (e + 1)%nat]> k) j i)%cx)
    (range (length q)) (range (length p))).
  rewrite <- csum_with_add.
  unfold convolution. rewrite <- csum_with_mul_r. apply csum_with_ext. intros i _.
  rewrite <- csum_with_add, <- csum_with_mul_r. apply csum_with_ext. intros j _.
  rewrite (pair_term_comm clmo q (S b) p (S a)).
  by apply pair_term_exponents.
Qed.

End leibniz.


(** ** Associativity of [_poly_mul] *)

Lemma tuple_add_assoc (ki kj kl : list nat) :
  tuple_add ki (tuple_add kj kl) = tuple_add (tuple_add ki kj) kl.
Proof.
  unfold tuple_add. revert kj kl.
  induction ki as [| a ki IH]; intros [| b kj] [| c kl]; try done.
  simpl. rewrite IH. f_equal. lia.
Qed.

Lemma triple_term_rotate (p : list Cx.t) (deg_p : nat) (q : list Cx.t) (deg_q : nat)
    (r : list Cx.t) (deg_r : nat) (k : list nat) (i j l : nat) :
  triple_term q deg_q r deg_r p deg_p k j l i = triple_term p deg_p q deg_q r deg_r k i j l.
Proof.
  unfold triple_term.
  destruct (p !! i), (q !! j), (r !! l); try done.
  destruct (monomials N_VARS deg_p !! i) as [ki |],
    (monomials N_VARS deg_q !! j) as [kj |],
    (monomials N_VARS deg_r !! l) as [kl |]; try done.
  rewrite (tuple_add_comm (tuple_add kj kl) ki), tuple_add_assoc.
  case_bool_decide; [ring | done].
Qed.

Section poly_mul_assoc.
Context (max_degree : nat).
Hypothesis max_degree_small : max_degree < 64.
Local Abbreviation psi := (init_psi_table max_degree).
Local Abbreviation clmo := (init_clmo max_degree).
Local Abbreviation encode_dict_list := (_create_encode_dict_from_clmo (init_clmo max_degree)).

(** The pairs of the product [p * q] that reach the coefficient at [k] of
    [(p * q) * r] through the position [l] of [r]. *)
Lemma triple_collapse (p : list Cx.t) (deg_p : nat) (q : list Cx.t) (deg_q : nat)
    (r : list Cx.t) (deg_r : nat) (k : list nat) (i j l : nat) :
  deg_p + deg_q ≤ max_degree → deg_r ≤ max_degree →
  homogeneous deg_p p → homogeneous deg_q q → homogeneous deg_r r →
  i < length p → j < length q → l < length r →
  csum_with
    (λ m, match r !! l, monomials N_VARS (deg_p + deg_q) !! m,
                monomials N_VARS deg_r !! l with
          | Some rl, Some km, Some kl =>
              if bool_decide (tuple_add km kl = k)
              then (pair_term clmo p deg_p q deg_q km i j * rl)%cx else Cx.zero
          | _, _, _ => Cx.zero
          end)
    (range (psi_count N_VARS (deg_p + deg_q)))
  = triple_term p deg_p q deg_q r deg_r k i j l.
Proof.
  intros Hpq Hr' Hp Hq Hr Hi Hj Hl. unfold homogeneous in Hp, Hq, Hr.
  unfold triple_term, pair_term. rewrite !decode_init by (done || lia).
  destruct (lookup_lt_is_Some_2 p i Hi) as [pi ->].
  destruct (lookup_lt_is_Some_2 q j Hj) as [qj ->].
  destruct (lookup_lt_is_Some_2 r l Hl) as [rl ->].
  destruct (lookup_lt_is_Some_2 (monomials N_VARS deg_p) i) as [ki Hki];
    [rewrite length_monomials; lia |].
  destruct (lookup_lt_is_Some_2 (monomials N_VARS deg_q) j) as [kj Hkj];
    [rewrite length_monomials; lia |].
  destruct (lookup_lt_is_Some_2 (monomials N_VARS deg_r) l) as [kl Hkl];
    [rewrite length_monomials; lia |].
  rewrite Hki, Hkj, Hkl.
  destruct (monomials_position (deg_p + deg_q) (tuple_add ki kj)) as [m0 Hm0].
  { apply tuple_add_monomials; by eapply list_elem_of_lookup_2. }
  rewrite (csum_with_single _ _ m0).
  - rewrite Hm0, (bool_decide_eq_true_2 (tuple_add ki kj = tuple_add ki kj)) by done.
    done.
  - apply NoDup_seq.
  - apply elem_of_seq. apply lookup_lt_Some in Hm0.
    rewrite length_monomials in Hm0. lia.
  - intros m _ Hne.
    destruct (monomials N_VARS (deg_p + deg_q) !! m) as [km |] eqn:Hkm; [| done].
    rewrite (bool_decide_eq_false_2 (tuple_add ki kj = km)).
    + case_bool_decide; ring.
    + intros <-. apply Hne. by eapply monomials_lookup_inj.
Qed.

(** The coefficients of [(p * q) * r]. *)
Lemma convolution_mul_l (sch : Sched) (p : list Cx.t) (deg_p : nat) (q : list Cx.t)
    (deg_q : nat) (r : list Cx.t) (deg_r : nat) (pq : list Cx.t) (k : list nat) :
  deg_p + deg_q ≤ max_degree → deg_r ≤ max_degree →
  homogeneous deg_p p → homogeneous deg_q q → homogeneous deg_r r →
  _poly_mul sch p deg_p q deg_q psi clmo encode_dict_list = Some pq →
  convolution clmo pq (deg_p + deg_q) r deg_r k
  = csum_with
      (λ i, csum_with
         (λ j, csum_with
            (λ l, triple_term p deg_p q deg_q r deg_r k i j l)
            (range (length r)))
         (range (length q)))
      (range (length p)).
Proof.
  intros Hpq Hr' Hp Hq Hr Hmul.
  destruct (poly_mul_result max_degree max_degree_small sch p deg_p q deg_q)
    as (pq' & Hpq' & Hlen & Hconv); [done | unfold homogeneous in *; lia .. |].
  rewrite Hmul in Hpq'. injection Hpq' as <-.
  unfold convolution at 1. rewrite Hlen.
  rewrite (csum_with_ext _
    (λ m, csum_with
       (λ l, csum_with
          (λ i, csum_with
             (λ j, match r !! l, monomials N_VARS (deg_p + deg_q) !! m,
                         monomials N_VARS deg_r !! l with
                   | Some rl, Some km, Some kl =>
                       if bool_decide (tuple_add km kl = k)
                       then (pair_term clmo p deg_p q deg_q km i j * rl)%cx
                       else Cx.zero
                   | _, _, _ => Cx.zero
                   end)
             (range (length q)))
          (range (length p)))
       (range (length r)))).
  - rewrite csum_with_swap.
    rewrite (csum_with_ext _
      (λ l, csum_with
         (λ j, csum_with
            (λ i, triple_term p deg_p q deg_q r deg_r k i j l)
            (range (length p)))
         (range (length q)))).
    + by rewrite csum_with_swap3.
    + intros l Hl. apply elem_of_seq in Hl.
      rewrite csum_with_swap3. apply csum_with_ext. intros j Hj.
      apply csum_with_ext. intros i Hi.
      apply elem_of_seq in Hi. apply elem_of_seq in Hj.
      apply triple_collapse; (done || lia).
  - intros m Hm. apply elem_of_seq in Hm. apply csum_with_ext. intros l _.
    unfold pair_term at 1. rewrite !decode_init by (done || lia).
    destruct (monomials N_VARS (deg_p + deg_q) !! m) as [km |] eqn:Hkm; cycle 1.
    { apply lookup_ge_None in Hkm. rewrite length_monomials in Hkm. lia. }
    rewrite (Hconv m km Hkm).
    destruct (r !! l) as [rl |];
      [| symmetry; apply csum_with_zero; intros; by apply csum_with_zero].
    destruct (monomials N_VARS deg_r !! l) as [kl |];
      [| symmetry; apply csum_with_zero; intros; by apply csum_with_zero].
    case_bool_decide;
      [| symmetry; apply csum_with_zero; intros; by apply csum_with_zero].
    unfold convolution. rewrite <- csum_with_mul_r. apply csum_with_ext. intros i _.
    by rewrite <- csum_with_mul_r.
Qed.

Lemma poly_mul_assoc (sch : Sched) (p : list Cx.t) (deg_p : nat) (q : list Cx.t)
    (deg_q : nat) (r : list Cx.t) (deg_r : nat) :
  deg_p + deg_q + deg_r ≤ max_degree →
  homogeneous deg_p p → homogeneous deg_q q → homogeneous deg_r r →
  ∃ pq qr t,
    _poly_mul sch p deg_p q deg_q psi clmo encode_dict_list = Some pq
    ∧ _poly_mul sch q deg_q r deg_r psi clmo encode_dict_list = Some qr
    ∧ _poly_mul sch pq (deg_p + deg_q) r deg_r psi clmo encode_dict_list = Some t
    ∧ _poly_mul sch p deg_p qr (deg_q + deg_r) psi clmo encode_dict_list = Some t.
Proof.
  intros Hdeg Hp Hq Hr.
  destruct (poly_mul_result max_degree max_degree_small sch p deg_p q deg_q)
    as (pq & Hpq & Hlpq & _); [lia | unfold homogeneous in *; lia .. |].
  destruct (poly_mul_result max_degree max_degree_small sch q deg_q r deg_r)
    as (qr & Hqr & Hlqr & _); [lia | unfold homogeneous in *; lia .. |].
  destruct (poly_mul_result max_degree max_degree_small sch pq (deg_p + deg_q) r deg_r)
    as (t & Ht & Hlt & Hct); [lia | unfold homogeneous in *; lia .. |].
  destruct (poly_mul_result max_degree max_degree_small sch p deg_p qr (deg_q + deg_r))
    as (t' & Ht' & Hlt' & Hct'); [lia | unfold homogeneous in *; lia .. |].
  replace (deg_p + (deg_q + deg_r)) with (deg_p + deg_q + deg_r) in Hlt', Hct' by lia.
  exists pq, qr, t. split_and!; [done .. |]. rewrite Ht'. f_equal.
  apply (homogeneous_ext (deg_p + deg_q + deg_r)); [done | done |].
  intros idx k Hk. rewrite (Hct idx k Hk), (Hct' idx k Hk). f_equal.
  rewrite (convolution_comm clmo p deg_p qr (deg_q + deg_r) k).
  rewrite (convolution_mul_l sch q deg_q r deg_r p deg_p qr k) by (done || lia).
  rewrite (convolution_mul_l sch p deg_p q deg_q r deg_r pq k) by (done || lia).
  rewrite csum_with_swap3. apply csum_with_ext. intros i _.
  rewrite csum_with_swap. apply csum_with_ext. intros j _.
  apply csum_with_ext. intros l _. apply triple_term_rotate.
Qed.

End poly_mul_assoc.


(** ** Brackets of linear polynomials, and the degrees of the results *)

Lemma singleton_ext (a : list Cx.t) (x : Cx.t) :
  length a = 1 → a !! 0 = Some x → a = [x].
Proof. destruct a as [| y [| ? ?]]; intros Hl Hx; simplify_eq/=. done. Qed.

Section linear_brackets.
Context (max_degree : nat).
Hypothesis max_degree_small : max_degree < 64.
Hypothesis linear_in_table : 1 ≤ max_degree.
Local Abbreviation psi := (init_psi_table max_degree).
Local Abbreviation clmo := (init_clmo max_degree).
Local Abbreviation encode_dict_list := (_create_encode_dict_from_clmo (init_clmo max_degree)).

(** The derivative of a linear polynomial is the coefficient of the
    variable. *)
Lemma diff_linear (sch : Sched) (p : list Cx.t) (var : nat) :
  var < N_VARS → homogeneous 1 p →
  _poly_diff sch p var 1 psi clmo encode_dict_list = Some [entry p (5 - var)].
Proof.
  intros Hvar Hp.
  destruct (poly_diff_result max_degree max_degree_small sch p var 0)
    as (dp & -> & Hh & Hc); [done .. |].
  f_equal. apply singleton_ext; [done |].
  destruct (lookup_lt_is_Some_2 p (5 - var)) as [c Hpc].
  { unfold homogeneous in Hp. rewrite Hp. change (psi_count N_VARS 1) with 6. lia. }
  rewrite (Hc 0 (replicate N_VARS 0) 0 (5 - var) c); [| done | | | done].
  - unfold entry. rewrite Hpc. cbn [default from_option id]. f_equal.
    change (0 + 1) with 1. rewrite Cx_of_nat_1. ring.
  - by apply lookup_replicate_2.
  - by apply monomials_1_lookup.
Qed.

(** The product of two constants. *)
Lemma mul_constants (sch : Sched) (x y : Cx.t) :
  _poly_mul sch [x] 0 [y] 0 psi clmo encode_dict_list = Some [(x * y)%cx].
Proof.
  destruct (poly_mul_result max_degree max_degree_small sch [x] 0 [y] 0)
    as (r & -> & Hl & Hc); [lia | done | done |].
  f_equal. apply singleton_ext; [done |].
  rewrite (Hc 0 (replicate N_VARS 0)) by done. f_equal.
  unfold convolution. change (range (length [x])) with [0].
  change (range (length [y])) with [0].
  rewrite !csum_with_cons, !csum_with_nil.
  unfold pair_term. rewrite !decode_init by (done || lia).
  change (monomials N_VARS 0 !! 0) with (Some (replicate N_VARS 0)).
  cbn [lookup list_lookup].
  rewrite bool_decide_eq_true_2 by done. ring.
Qed.

Lemma poisson_linear (sch : Sched) (p q : list Cx.t) :
  homogeneous 1 p → homogeneous 1 q →
  _poly_poisson sch p 1 q 1 psi clmo encode_dict_list
  = Some [csum_with
            (λ m, (entry p (5 - m) * entry q (2 - m)
                   - entry p (2 - m) * entry q (5 - m))%cx)
            (range 3)].
Proof.
  intros Hp Hq.
  rewrite (poly_poisson_result max_degree sch 0 0 p q
             (λ m, [(entry p (5 - m) * entry q (5 - (m + 3)))%cx])
             (λ m, [(entry p (5 - (m + 3)) * entry q (5 - m))%cx]));
    [| done | lia |].
  - f_equal. change (range 3) with [0; 1; 2].
    rewrite !csum_with_cons, csum_with_nil.
    change (psi_count N_VARS (0 + 0)) with 1. cbn. f_equal. ring.
  - intros m Hm. unfold poisson_term1, poisson_term2.
    rewrite !diff_linear by (done || unfold N_VARS; lia).
    cbn [mbind option_bind]. change (1 - 1) with 0.
    rewrite !mul_constants. done.
Qed.

End linear_brackets.



(** X29.  The degrees of the results, read back by [_get_degree]: within
    tables built for [max_degree], the product of polynomials of degrees
    [a + 1] and [b + 1] has degree [a + b + 2], the derivative of the first
    has degree [a], and their bracket has degree [a + b]. *)
Theorem get_degree_of_results (max_degree : nat) (sch : Sched) (p q : list Cx.t)
    (var a b : nat) :
  max_degree < 64 → S a + S b ≤ max_degree → var < N_VARS →
  homogeneous (S a) p → homogeneous (S b) q →
  ∃ pq dp br,
    _poly_mul sch p (S a) q (S b) (init_index_tables max_degree).1
      (init_index_tables max_degree).2
      (_create_encode_dict_from_clmo (init_index_tables max_degree).2) = Some pq
    ∧ _poly_diff sch p var (S a) (init_index_tables max_degree).1
        (init_index_tables max_degree).2
        (_create_encode_dict_from_clmo (init_index_tables max_degree).2) = Some dp
    ∧ _poly_poisson sch p (S a) q (S b) (init_index_tables max_degree).1
        (init_index_tables max_degree).2
        (_create_encode_dict_from_clmo (init_index_tables max_degree).2) = Some br
    ∧ _get_degree pq (init_index_tables max_degree).1 = Some (Z.of_nat (S a + S b))
    ∧ _get_degree dp (init_index_tables max_degree).1 = Some (Z.of_nat a)
    ∧ _get_degree br (init_index_tables max_degree).1 = Some (Z.of_nat (a + b)).
Proof.
  change (init_index_tables max_degree).1 with (init_psi_table max_degree).
  change (init_index_tables max_degree).2 with (init_clmo max_degree).
  intros Hsmall Hdeg Hvar Hp Hq.
  destruct (poly_mul_result max_degree Hsmall sch p (S a) q (S b))
    as (pq & Hpq & Hlpq & _); [done | unfold homogeneous in *; lia .. |].
  destruct (poly_diff_result max_degree Hsmall sch p var a)
    as (dp & Hdp & Hhdp & _); [lia | done | done |].
  destruct (poly_poisson_defined max_degree sch a b p q)
    as (t1 & t2 & Hterms & Hbr); [done | lia | lia | lia | done | done |].
  eexists pq, dp, _. split_and!; [done | done | exact Hbr | | |].
  - apply get_degree_homogeneous; [lia | done].
  - apply get_degree_homogeneous; [lia | done].
  - apply get_degree_homogeneous; [lia |].
    destruct (Hterms 0) as (_ & _ & ? & ?); [lia |].
    destruct (Hterms 1) as (_ & _ & ? & ?); [lia |].
    destruct (Hterms 2) as (_ & _ & ? & ?); [lia |].
    unfold homogeneous. repeat apply bracket_step_length; try done.
    unfold np_zeros. by rewrite length_replicate.
Qed.

Lemma get_degree_of_results_witness :
  ∃ pq dp br,
    _poly_mul two_workers linear_a (S 0) linear_b (S 0) (init_index_tables 2).1
      (init_index_tables 2).2
      (_create_encode_dict_from_clmo (init_index_tables 2).2) = Some pq
    ∧ _poly_diff two_workers linear_a 5 (S 0) (init_index_tables 2).1
        (init_index_tables 2).2
        (_create_encode_dict_from_clmo (init_index_tables 2).2) = Some dp
    ∧ _poly_poisson two_workers linear_a (S 0) linear_b (S 0) (init_index_tables 2).1
        (init_index_tables 2).2
        (_create_encode_dict_from_clmo (init_index_tables 2).2) = Some br
    ∧ _get_degree pq (init_index_tables 2).1 = Some (Z.of_nat (S 0 + S 0))
    ∧ _get_degree dp (init_index_tables 2).1 = Some (Z.of_nat 0)
    ∧ _get_degree br (init_index_tables 2).1 = Some (Z.of_nat (0 + 0)).
Proof.
  apply (get_degree_of_results 2 two_workers linear_a linear_b 5 0 0);
    [lia | lia | unfold N_VARS; lia | reflexivity | reflexivity].
Defined.
(** ** The restriction as an evaluation at [q1 = p1 = 0] *)

Lemma cpow_zero (n : nat) : n ≠ 0 → cpow Cx.zero n = Cx.zero.
Proof. destruct n as [| n]; [done |]. intros _. simpl. ring. Qed.

(** A monomial that contains a variable vanishes where the variable does. *)
Lemma monomial_value_zero (point : list Cx.t) (k : list nat) (var e : nat) :
  point !! var = Some Cx.zero → k !! var = Some e → e ≠ 0 →
  monomial_value point k = Cx.zero.
Proof.
  unfold monomial_value. revert point k.
  induction var as [| var IH]; intros [| x point] [| a k] Hx Hk He; simplify_eq/=.
  - rewrite cpow_zero by done. ring.
  - rewrite (IH point k) by done. ring.
Qed.

Lemma term_value_restrict (tol : Qc) (block : list Cx.t) (d : nat) (point : list Cx.t)
    (i : nat) :
  point !! 0 = Some Cx.zero → point !! 3 = Some Cx.zero →
  term_value (zip_with (restrict_coeff tol) (monomials N_VARS d) block) d point i
  = term_value (clean_coeff tol <$> block) d point i.
Proof.
  intros H0 H3. unfold term_value. rewrite lookup_zip_with, list_lookup_fmap.
  destruct (monomials N_VARS d !! i) as [k |] eqn:Hk; cbn [mbind option_bind]; cycle 1.
  { by destruct (block !! i). }
  destruct (block !! i) as [c |]; cbn [mbind option_bind fmap option_fmap option_map];
    [| done].
  unfold restrict_coeff, clean_coeff. destruct (Cx.abs_le c tol); [done |].
  case_bool_decide as Hcenter; [done |].
  assert (k ∈ monomials N_VARS d) as Hin by by eapply list_elem_of_lookup_2.
  destruct (monomials_var d 0 k) as [e0 He0]; [done | unfold N_VARS; lia |].
  destruct (monomials_var d 3 k) as [e3 He3]; [done | unfold N_VARS; lia |].
  destruct (decide (e0 = 0)) as [-> | Hne0].
  - destruct (decide (e3 = 0)) as [-> | Hne3]; [by destruct Hcenter |].
    rewrite (monomial_value_zero point k 3 e3) by done. ring.
  - rewrite (monomial_value_zero point k 0 e0) by done. ring.
Qed.

(** X30.  Restricting to the center manifold is setting the hyperbolic pair
    to zero: at a point with [q1 = p1 = 0], every block of the restricted
    polynomial has the value of the block of the input cleaned at [tol]. *)
Theorem restrict_value_on_center (max_degree : nat) (tol : Qc)
    (h : gmap nat (list Cx.t)) (poly_H : list nat) (H : list (list Cx.t))
    (point : list Cx.t) :
  max_degree < 64 → graded_poly max_degree H → read_poly h poly_H = Some H →
  N_VARS ≤ length point → point !! 0 = Some Cx.zero → point !! 3 = Some Cx.zero →
  ∃ poly_cm h' H_cm,
    _restrict_to_center_manifold (init_index_tables max_degree).2 poly_H tol h
      = Some (poly_cm, h')
    ∧ read_poly h' poly_cm = Some H_cm
    ∧ ∀ deg block, H !! deg = Some block →
        ∃ block_cm cleaned v,
          H_cm !! deg = Some block_cm
          ∧ _poly_clean_inplace block tol = Some cleaned
          ∧ _poly_evaluate cleaned deg point (init_index_tables max_degree).2 = Some v
          ∧ _poly_evaluate block_cm deg point (init_index_tables max_degree).2 = Some v.
Proof.
  change (init_index_tables max_degree).2 with (init_clmo max_degree).
  intros Hsmall Hgraded Hread Hpoint H0 H3.
  destruct (restrict_run max_degree Hsmall tol poly_H h H Hgraded Hread)
    as (poly_cm & h' & Hrun & _ & Hcm).
  exists poly_cm, h', (restrict_poly tol H). split_and!; [done | done |].
  intros deg block Hblock. destruct (Hgraded deg block Hblock) as [Hdeg Hhom].
  unfold homogeneous in Hhom.
  exists (zip_with (restrict_coeff tol) (monomials N_VARS deg) block),
    (clean_coeff tol <$> block), (poly_value (clean_coeff tol <$> block) deg point).
  split_and!.
  - unfold restrict_poly. by rewrite list_lookup_imap, Hblock.
  - apply poly_clean_inplace_result.
  - apply poly_evaluate_result; [done | done | rewrite length_fmap; lia | done].
  - rewrite (poly_evaluate_result max_degree);
      [| done | done | rewrite length_zip_with, length_monomials; lia | done].
    f_equal. unfold poly_value.
    rewrite length_zip_with, length_monomials, length_fmap.
    replace (psi_count N_VARS deg `min` length block) with (length block) by lia.
    apply csum_with_ext. intros i _. by apply term_value_restrict.
Qed.

Lemma restrict_value_on_center_witness :
  ∃ poly_cm h' H_cm,
    _restrict_to_center_manifold (init_index_tables 1).2 [0; 1] TOL_1E_14 ones_heap
      = Some (poly_cm, h')
    ∧ read_poly h' poly_cm = Some H_cm
    ∧ ∀ deg block, ones_poly !! deg = Some block →
        ∃ block_cm cleaned v,
          H_cm !! deg = Some block_cm
          ∧ _poly_clean_inplace block TOL_1E_14 = Some cleaned
          ∧ _poly_evaluate cleaned deg (<[0 := Cx.zero]> (<[3 := Cx.zero]> sample_point))
              (init_index_tables 1).2 = Some v
          ∧ _poly_evaluate block_cm deg (<[0 := Cx.zero]> (<[3 := Cx.zero]> sample_point))
              (init_index_tables 1).2 = Some v.
Proof.
  apply (restrict_value_on_center 1 TOL_1E_14 ones_heap [0; 1] ones_poly);
    [lia | apply ones_poly_graded | reflexivity | vm_compute; lia | reflexivity
    | reflexivity].
Defined.
